(** * BackFlow: the structural Go source analysis engine

    A shallow embedding of the analysis engine of the BackFlow desktop
    shell (TypeScript, Electron main process):

    - [src/main/utils/apiFlowUtils.ts]: file discovery, route discovery,
      route identifiers, the data-flow tracer;
    - [src/main/utils/goUtils.ts]: file discovery, call extraction, call
      resolution, symbol lookup;
    - [src/main/utils/astParser.ts] and [src/main/ipc/astHandlers.ts]: the
      declaration extractor and its project-wide handlers;
    - [src/main/utils/fileUtils.ts]: the search of a file by name and the
      list of all files;
    - [src/main/ipc/goHandlers.ts]: the handlers that trace a route and
      that list the usages of a symbol.

    Modelling conventions.

    - A JavaScript string is a [list ascii]; the model covers ASCII text
      (code units above 127 are ordinary characters that are neither word
      characters nor white space and have no case).
    - A JavaScript [RegExp] is a term of [regex], run by a backtracking
      matcher with the priorities of the ECMAScript semantics (greedy
      quantifiers, left-to-right alternatives, leftmost match).
    - The disk is a finite tree of directory entries; [readFileSync] and
      [readdirSync] either return or throw, and a thrown exception is a value
      of the result type.
    - [undefined] is [None]. *)

From Stdlib Require Import Ascii String DecimalString DecimalNat ZArith Sorted.
From stdpp Require Import gmap strings list.

Set Warnings "-register-all".

Local Open Scope list_scope.

(** ** JavaScript strings *)

Module JsString.

Abbreviation str := (list ascii).

Definition js (s : string) : str := list_ascii_of_string s.

Definition dq : ascii := "034"%char.
Definition nl : ascii := "010"%char.
Definition cr : ascii := "013"%char.
Definition bquote : ascii := "096"%char.
Definition bslash : ascii := "092"%char.

Definition quoted (s : str) : str := dq :: s ++ [dq].

Definition code (c : ascii) : nat := nat_of_ascii c.

Definition in_range (lo hi : nat) (c : ascii) : bool :=
  (lo <=? code c) && (code c <=? hi).

Definition is_upper (c : ascii) : bool := in_range 65 90 c.
Definition is_lower (c : ascii) : bool := in_range 97 122 c.
Definition is_digit (c : ascii) : bool := in_range 48 57 c.

(** The class [\w]. *)
Definition is_w (c : ascii) : bool :=
  is_upper c || is_lower c || is_digit c || Ascii.eqb c "_"%char.

(** The class [\s], which is also what [trim] removes. *)
Definition is_s (c : ascii) : bool := in_range 9 13 c || Ascii.eqb c " "%char.

Definition lower_char (c : ascii) : ascii :=
  if is_upper c then ascii_of_nat (code c + 32) else c.

Definition upper_char (c : ascii) : ascii :=
  if is_lower c then ascii_of_nat (code c - 32) else c.

Definition toLowerCase (s : str) : str := map lower_char s.
Definition toUpperCase (s : str) : str := map upper_char s.

Fixpoint trimStart (s : str) : str :=
  match s with
  | c :: s' => if is_s c then trimStart s' else s
  | [] => []
  end.

Definition trimEnd (s : str) : str := rev (trimStart (rev s)).

Definition trim (s : str) : str := trimEnd (trimStart s).

Fixpoint startsWith (s p : str) : bool :=
  match p, s with
  | [], _ => true
  | a :: p', b :: s' => Ascii.eqb a b && startsWith s' p'
  | _ :: _, [] => false
  end.

Definition endsWith (s p : str) : bool := startsWith (rev s) (rev p).

Fixpoint includes (s sub : str) : bool :=
  startsWith s sub ||
  match s with
  | [] => false
  | _ :: s' => includes s' sub
  end.

Fixpoint indexOf (s sub : str) : option nat :=
  if startsWith s sub then Some 0
  else match s with
       | [] => None
       | _ :: s' => S <$> indexOf s' sub
       end.

(** [s.substring(a, b)]: the arguments are swapped when [a > b]. *)
Definition substring (a b : nat) (s : str) : str :=
  take (Nat.max a b - Nat.min a b) (drop (Nat.min a b) s).

(** [s.substring(a)]. *)
Definition substring_from (a : nat) (s : str) : str := drop a s.

(** [s.split(c)] for a one-character separator: never the empty array. *)
Fixpoint split (sep : ascii) (s : str) : list str :=
  match s with
  | [] => [[]]
  | c :: s' =>
      if Ascii.eqb c sep then [] :: split sep s'
      else match split sep s' with
           | [] => [[c]]
           | h :: t => (c :: h) :: t
           end
  end.

Fixpoint join (sep : str) (l : list str) : str :=
  match l with
  | [] => []
  | [x] => x
  | x :: l' => x ++ sep ++ join sep l'
  end.

(** [s.replace(sub, by)] with a string pattern: the first occurrence only. *)
Definition replace_str (sub by_ s : str) : str :=
  match indexOf s sub with
  | Some i => take i s ++ by_ ++ drop (i + length sub) s
  | None => s
  end.

(** Template-literal interpolation of a number. *)
Definition of_nat (n : nat) : str := js (NilEmpty.string_of_uint (Nat.to_uint n)).

(** The [||] of JavaScript on strings: the empty string is falsy. *)
Definition or_else (a : option str) (b : str) : str :=
  match a with
  | Some (c :: s) => c :: s
  | _ => b
  end.

Definition str_eqb (a b : str) : bool := bool_decide (a = b).

(** The truth value of a string. *)
Definition nonempty (s : str) : bool := negb (bool_decide (s = [])).

End JsString.

Import JsString.

(** ** JavaScript regular expressions *)

Module RegExp.

Inductive regex :=
| RChar (p : ascii -> bool)
| REps
| RSeq (r1 r2 : regex)
| RAlt (r1 r2 : regex)
| RStar (r : regex)
| RGroup (n : nat) (r : regex)
| RBol (multiline : bool)
| REol.

(** Captures: group number to captured text, most recent first. *)
Definition captures := list (nat * str).

Fixpoint group (caps : captures) (n : nat) : option str :=
  match caps with
  | [] => None
  | (m, s) :: caps' => if Nat.eqb m n then Some s else group caps' n
  end.

Section Matcher.
Context {R : Type}.

(** The continuation receives the number of characters consumed since the
    start of the match, the character before the current position, the
    rest of the input and the captures. *)
Definition cont := nat -> option ascii -> str -> captures -> option R.

Fixpoint rmatch (r : regex) (pos : nat) (prev : option ascii) (s : str)
    (caps : captures) (k : cont) {struct r} : option R :=
  match r with
  | RChar p =>
      match s with
      | c :: s' => if p c then k (S pos) (Some c) s' caps else None
      | [] => None
      end
  | REps => k pos prev s caps
  | RSeq r1 r2 =>
      rmatch r1 pos prev s caps
        (fun pos' prev' s' caps' => rmatch r2 pos' prev' s' caps' k)
  | RAlt r1 r2 =>
      match rmatch r1 pos prev s caps k with
      | Some x => Some x
      | None => rmatch r2 pos prev s caps k
      end
  | RStar r1 =>
      (fix star (n : nat) (pos : nat) (prev : option ascii) (s : str)
           (caps : captures) {struct n} : option R :=
         match n with
         | 0 => k pos prev s caps
         | S n' =>
             match rmatch r1 pos prev s caps
                     (fun pos' prev' s' caps' =>
                        if Nat.eqb pos' pos then None
                        else star n' pos' prev' s' caps') with
             | Some x => Some x
             | None => k pos prev s caps
             end
         end) (length s) pos prev s caps
  | RGroup n r1 =>
      rmatch r1 pos prev s caps
        (fun pos' prev' s' caps' =>
           k pos' prev' s' ((n, take (pos' - pos) s) :: caps'))
  | RBol multiline =>
      match prev with
      | None => k pos prev s caps
      | Some c =>
          if multiline && (Ascii.eqb c nl || Ascii.eqb c cr) then k pos prev s caps
          else None
      end
  | REol =>
      match s with
      | [] => k pos prev s caps
      | _ :: _ => None
      end
  end.
End Matcher.

(** A match: [index], the matched text [match[0]] and the groups. *)
Record rmatched := {
  m_index : nat;
  m_text : str;
  m_caps : captures
}.

Definition grp (m : rmatched) (n : nat) : option str := group (m_caps m) n.

(** The match that starts exactly at the current position, if any. *)
Definition match_here (r : regex) (prev : option ascii) (s : str)
    : option (nat * captures) :=
  rmatch r 0 prev s [] (fun len _ _ caps => Some (len, caps)).

(** [r.exec(s)] from the current position: the leftmost match. *)
Fixpoint search (r : regex) (pos : nat) (prev : option ascii) (s : str)
    : option rmatched :=
  match match_here r prev s with
  | Some (len, caps) =>
      Some {| m_index := pos; m_text := take len s; m_caps := caps |}
  | None =>
      match s with
      | [] => None
      | c :: s' => search r (S pos) (Some c) s'
      end
  end.

Definition exec (r : regex) (s : str) : option rmatched := search r 0 None s.

(** All the matches of a global pattern, as [matchAll] or a loop on [exec]
    yields them.  [skip] counts the characters of the previous match that
    are still to be passed.  The patterns of this program cannot match the
    empty string; an empty match is passed over. *)
Fixpoint matches_from (r : regex) (skip pos : nat) (prev : option ascii)
    (s : str) : list rmatched :=
  match s with
  | [] => []
  | c :: s' =>
      match skip with
      | S k => matches_from r k (S pos) (Some c) s'
      | 0 =>
          match match_here r prev s with
          | Some (S len, caps) =>
              {| m_index := pos; m_text := take (S len) s; m_caps := caps |}
                :: matches_from r len (S pos) (Some c) s'
          | _ => matches_from r 0 (S pos) (Some c) s'
          end
      end
  end.

Definition matchAll (r : regex) (s : str) : list rmatched :=
  matches_from r 0 0 None s.

(** [s.replace(r, by)] for a global pattern. *)
Fixpoint replace_from (r : regex) (by_ : str) (skip : nat)
    (prev : option ascii) (s : str) : str :=
  match s with
  | [] => []
  | c :: s' =>
      match skip with
      | S k => replace_from r by_ k (Some c) s'
      | 0 =>
          match match_here r prev s with
          | Some (S len, _) => by_ ++ replace_from r by_ len (Some c) s'
          | _ => c :: replace_from r by_ 0 (Some c) s'
          end
      end
  end.

Definition replace_all (r : regex) (by_ s : str) : str :=
  replace_from r by_ 0 None s.

(** [s.replace(r, by)] for a pattern without the [g] flag. *)
Definition replace_first (r : regex) (by_ s : str) : str :=
  match exec r s with
  | Some m =>
      take (m_index m) s ++ by_ ++ drop (m_index m + length (m_text m)) s
  | None => s
  end.

(** [r.test(s)], and the truth value of [s.match(r)]. *)
Definition test (r : regex) (s : str) : bool :=
  match exec r s with Some _ => true | None => false end.

(** Pattern syntax. *)
Definition chr (c : ascii) : regex := RChar (Ascii.eqb c).
Definition chr_ci (c : ascii) : regex :=
  RChar (fun d => Ascii.eqb (lower_char d) (lower_char c)).
Definition notchr (c : ascii) : regex := RChar (fun d => negb (Ascii.eqb c d)).
Definition word : regex := RChar is_w.
Definition space : regex := RChar is_s.
Definition plus (r : regex) : regex := RSeq r (RStar r).
Definition opt (r : regex) : regex := RAlt r REps.

Fixpoint seqs (l : list regex) : regex :=
  match l with
  | [] => REps
  | [r] => r
  | r :: l' => RSeq r (seqs l')
  end.

Fixpoint alts (l : list regex) : regex :=
  match l with
  | [] => RChar (fun _ => false)
  | [r] => r
  | r :: l' => RAlt r (alts l')
  end.

Definition lit (s : str) : regex := seqs (map chr s).
Definition lit_ci (s : str) : regex := seqs (map chr_ci s).
Definition l (s : string) : regex := lit (js s).

(** [s.split(r)] for a pattern that cannot match the empty string. *)
Fixpoint split_at (ms : list rmatched) (from : nat) (s : str) : list str :=
  match ms with
  | [] => [drop from s]
  | m :: ms' =>
      substring from (m_index m) s
        :: split_at ms' (m_index m + length (m_text m)) s
  end.

Definition split_re (r : regex) (s : str) : list str := split_at (matchAll r s) 0 s.

(** [new RegExp(source)] for a source that interpolates a name into a
    pattern.  The pattern is given as a function of the name taken
    literally; this is what the source denotes when the name is made of
    word characters.  For any other name the source may denote another
    pattern or be ill-formed, and the host decides: a [SyntaxError], or an
    object with its [exec]. *)
Inductive compiled :=
| SyntaxError
| Compiled (run_exec : str -> option rmatched).

Class RegExpHost := {
  new_RegExp : (str -> regex) -> str -> compiled;
  new_RegExp_word : forall (pattern : str -> regex) (name : str),
      forallb is_w name = true ->
      new_RegExp pattern name = Compiled (exec (pattern name))
}.

(** The host that takes every name literally. *)
Definition literal_RegExp (pattern : str -> regex) (name : str) : compiled :=
  Compiled (exec (pattern name)).

Instance literal_host : RegExpHost :=
  {| new_RegExp := literal_RegExp;
     new_RegExp_word := fun _ _ _ => eq_refl |}.


End RegExp.

Import RegExp.

(** ** Exceptions *)

Inductive js_result (A : Type) :=
| Returned (a : A)
| Thrown.

Arguments Returned {A} a.
Arguments Thrown {A}.

Global Instance js_result_ret : MRet js_result := @Returned.
Global Instance js_result_bind : MBind js_result :=
  fun A B f x => match x with Returned a => f a | Thrown => Thrown end.

(** An exception of the callee becomes an exception of the caller. *)
Definition or_throw {A} (o : option A) : js_result A :=
  match o with
  | Some a => Returned a
  | None => Thrown
  end.

(** [try { ... } catch { return fallback }] *)
Definition catch {A} (x : js_result A) (fallback : A) : A :=
  match x with
  | Returned a => a
  | Thrown => fallback
  end.

(** [new RegExp(...)]: the [exec] of the object, or the [SyntaxError]. *)
Definition compile {host : RegExpHost} (pattern : str -> regex) (name : str)
    : js_result (str -> option rmatched) :=
  match new_RegExp pattern name with
  | Compiled run_exec => Returned run_exec
  | SyntaxError => Thrown
  end.

(** ** The disk *)

Module Disk.

(** A directory entry as [readdirSync(dir, { withFileTypes: true })] returns
    it.  A file whose content is [None] exists but cannot be read; a
    directory that is not [listable] makes [readdirSync] throw. *)
Inductive entry :=
| File (name : str) (content : option str)
| Dir (name : str) (listable : bool) (items : list entry)
| Other (name : str).

Record project := {
  projectPath : str;
  rootListable : bool;
  rootItems : list entry
}.

(** [path.join(dir, name)] for a normalised [dir] and a plain [name]. *)
Definition path_join (dir name : str) : str := dir ++ js "/" ++ name.

(** Every file of the tree with its full path, whatever the directory. *)
Fixpoint files_of (dir : str) (e : entry) : list (str * option str) :=
  match e with
  | File name content => [(path_join dir name, content)]
  | Dir name _ items => flat_map (files_of (path_join dir name)) items
  | Other _ => []
  end.

Definition all_files (p : project) : list (str * option str) :=
  flat_map (files_of (projectPath p)) (rootItems p).

Fixpoint assoc {A} (k : str) (l : list (str * A)) : option A :=
  match l with
  | [] => None
  | (k', v) :: l' => if str_eqb k' k then Some v else assoc k l'
  end.

(** [readFileSync(path)]: [None] stands for the thrown exception
    (no such file, or a file that cannot be read). *)
Definition readFileSync (p : project) (path : str) : option str :=
  match assoc path (all_files p) with
  | Some (Some content) => Some content
  | _ => None
  end.

End Disk.

Import Disk.

(** ** Recursive file discovery *)

(** apiFlowUtils.ts, [getGoFilesRecursive]: the loop body for one item. *)
Fixpoint goFilesOfItem (dir : str) (item : entry) : list str :=
  match item with
  | Dir name listable items =>
      if negb (startsWith name (js ".")) && negb (str_eqb name (js "vendor"))
         && negb (str_eqb name (js "node_modules"))
      then
        if listable then flat_map (goFilesOfItem (path_join dir name)) items
        else []
      else []
  | File name _ =>
      if endsWith name (js ".go") && negb (endsWith name (js "_test.go"))
      then [path_join dir name]
      else []
  | Other _ => []
  end.

Definition getGoFilesRecursive (p : project) : list str :=
  if rootListable p then flat_map (goFilesOfItem (projectPath p)) (rootItems p)
  else [].

(** goUtils.ts, [getGoFiles]: the loop body for one item. *)
Fixpoint goFilesOfItem' (dir : str) (item : entry) : list str :=
  match item with
  | Dir name listable items =>
      if negb (startsWith name (js ".")) && negb (str_eqb name (js "vendor"))
      then
        if listable then flat_map (goFilesOfItem' (path_join dir name)) items
        else []
      else []
  | File name _ =>
      if endsWith name (js ".go") && negb (endsWith name (js "_test.go"))
      then [path_join dir name]
      else []
  | Other _ => []
  end.

Definition getGoFiles (p : project) : list str :=
  if rootListable p then flat_map (goFilesOfItem' (projectPath p)) (rootItems p)
  else [].

(** ** Route discovery (apiFlowUtils.ts) *)

Record APIRoute := {
  id : str;
  method : str;
  path : str;
  handler : str;
  handlerFile : str;
  handlerLine : nat;
  codeSnippet : str
}.

Inductive framework := Mux | Gin | Echo | Chi | Http.

Definition verbs (l1 : list string) : regex := alts (map l l1).

Definition upper_verbs : regex := verbs ["GET"; "POST"; "PUT"; "DELETE"; "PATCH"]%string.
Definition camel_verbs : regex := verbs ["Get"; "Post"; "Put"; "Delete"; "Patch"]%string.

(** A double-quoted, non-empty text without double quotes, captured as
    group [n]. *)
Definition quoted_group (n : nat) : regex :=
  seqs [chr dq; RGroup n (plus (notchr dq)); chr dq].

(** [,\s*([^)]+)\)] with the handler as group [n]. *)
Definition handler_group (n : nat) : regex :=
  seqs [l ","; RStar space; RGroup n (plus (notchr ")")); l ")"].

(** The optional [.Methods(...)] suffix, its quoted argument as group 4. *)
Definition methods_suffix : regex :=
  opt (seqs [l ".Methods("; quoted_group 4; l ")"]).

Definition muxPatterns : list regex :=
  [ seqs [RGroup 1 (plus word); l ".Handle("; quoted_group 2; handler_group 3;
          methods_suffix];
    seqs [RGroup 1 (plus word); l ".HandleFunc("; quoted_group 2; handler_group 3;
          methods_suffix];
    seqs [RGroup 1 (plus word); l ".PathPrefix("; quoted_group 2; l ").Subrouter()"] ].

Definition ginPatterns : list regex :=
  [ seqs [RGroup 1 (plus word); l "."; RGroup 2 upper_verbs; l "("; quoted_group 3;
          handler_group 4];
    seqs [RGroup 1 (plus word); l ".Handle("; chr dq; RGroup 2 upper_verbs; chr dq;
          l ","; RStar space; quoted_group 3; handler_group 4] ].

Definition echoPatterns : list regex :=
  [ seqs [RGroup 1 (plus word); l "."; RGroup 2 upper_verbs; l "("; quoted_group 3;
          handler_group 4] ].

Definition chiPatterns : list regex :=
  [ seqs [RGroup 1 (plus word); l "."; RGroup 2 camel_verbs; l "("; quoted_group 3;
          handler_group 4] ].

Definition httpPatterns : list regex :=
  [ seqs [l "http.HandleFunc("; quoted_group 1; handler_group 2];
    seqs [l "mux.HandleFunc("; quoted_group 1; handler_group 2] ].

Definition allPatterns : list (regex * framework) :=
  map (fun p => (p, Mux)) muxPatterns ++
  map (fun p => (p, Gin)) ginPatterns ++
  map (fun p => (p, Echo)) echoPatterns ++
  map (fun p => (p, Chi)) chiPatterns ++
  map (fun p => (p, Http)) httpPatterns.

Definition re_nonword : regex := RChar (fun c => negb (is_w c)).
Definition re_hyphens : regex := plus (chr "-").

Definition generateStableRouteId (method path handler file : str) (line : nat)
    : str :=
  let cleanMethod := toLowerCase method in
  let cleanPath := replace_all re_nonword (js "-") path in
  let cleanHandler := replace_all re_nonword (js "-") handler in
  let cleanFile := replace_all re_nonword (js "-") file in
  replace_all re_hyphens (js "-")
    (cleanMethod ++ js "-" ++ cleanPath ++ js "-" ++ cleanHandler ++ js "-" ++
     cleanFile ++ js "-" ++ of_nat line).

Definition cleanPath (path : str) : str :=
  or_else
    (Some (replace_first (RSeq (chr "/") REol) []
             (replace_first (RSeq (RBol false) (RStar (chr "/"))) (js "/") path)))
    (js "/").

(** The number of lines up to an offset: the length of
    [content.substring(0, index)] split at newlines. *)
Definition lineNumberAt (content : str) (index : nat) : nat :=
  length (split nl (substring 0 index content)).

(** [lines.slice(a, b)] for in-range non-negative bounds. *)
Definition slice {A} (a b : nat) (xs : list A) : list A := take (b - a) (drop a xs).

Definition routeSnippet (lines : list str) (lineNumber : nat) : str :=
  if (0 <? lineNumber) && (lineNumber <=? length lines) then
    let codeSnippet := trim (default [] (lines !! (lineNumber - 1))) in
    if (length codeSnippet <? 20) && (lineNumber <? length lines) then
      let contextLines :=
        slice (lineNumber - 1) (Nat.min (lineNumber + 2) (length lines)) lines in
      trim (replace_all (plus space) (js " ") (join (js " ") contextLines))
    else codeSnippet
  else [].

(** [match[2] || match[1].split(dot)[1]?.toUpperCase() || GET]; [None] is
    the [TypeError] on an undefined [match[1]]. *)
Definition verbOfMatch (m : rmatched) : option str :=
  match grp m 2 with
  | Some (c :: s) => Some (c :: s)
  | _ =>
      m1 ← grp m 1;
      Some (or_else (toUpperCase <$> (split "." m1 !! 1)) (js "GET"))
  end.

(** [parseRouteMatch]: [None] is [null], returned for an unknown framework
    and from the [catch] when a capture used as a string is undefined. *)
Definition parseRouteMatch (m : rmatched) (frameworkType : framework)
    (content relativePath : str) (lines : list str) : option APIRoute :=
  let parts :=
    match frameworkType with
    | Mux => (Some (or_else (grp m 4) (js "ALL")), grp m 2, grp m 3)
    | Gin | Echo | Chi => (verbOfMatch m, grp m 3, grp m 4)
    | Http => (Some (js "ALL"), grp m 1, grp m 2)
    end in
  method ← parts.1.1;
  let lineNumber := lineNumberAt content (m_index m) in
  handler ← parts.2;
  let handlerName :=
    or_else (last (split "." (replace_all space [] handler))) handler in
  path ← parts.1.2;
  let routeId := generateStableRouteId method path handlerName relativePath lineNumber in
  Some {| id := routeId;
          method := toUpperCase method;
          path := cleanPath path;
          handler := handlerName;
          handlerFile := relativePath;
          handlerLine := lineNumber;
          codeSnippet := routeSnippet lines lineNumber |}.

Definition discoverRoutesInFile (content relativePath : str) : list APIRoute :=
  let lines := split nl content in
  flat_map
    (fun pt : regex * framework =>
       omap (fun m => parseRouteMatch m pt.2 content relativePath lines)
            (matchAll pt.1 content))
    allPatterns.

(** [filePath.replace(projectPath, empty).substring(1)] *)
Definition relativeTo (projectPath filePath : str) : str :=
  substring_from 1 (replace_str projectPath [] filePath).

(** [routes.filter((route, index, self) => index === self.findIndex(...))] *)
Definition sameEndpoint (a b : APIRoute) : bool :=
  str_eqb (method b) (method a) && str_eqb (path b) (path a).

Fixpoint findIndex {A} (f : A -> bool) (xs : list A) : option nat :=
  match xs with
  | [] => None
  | x :: xs' => if f x then Some 0 else S <$> findIndex f xs'
  end.

Fixpoint filter_index {A} (f : A -> nat -> bool) (i : nat) (xs : list A) : list A :=
  match xs with
  | [] => []
  | x :: xs' => if f x i then x :: filter_index f (S i) xs' else filter_index f (S i) xs'
  end.

Definition uniqueRoutes (routes : list APIRoute) : list APIRoute :=
  filter_index
    (fun route index =>
       bool_decide (Some index = findIndex (sameEndpoint route) routes))
    0 routes.

(** The routes of every discovered file, in scan order; [None] when a
    [readFileSync] throws, which [discoverAPIRoutesInternal] does not
    catch. *)
Fixpoint collectRoutes (p : project) (goFiles : list str) : option (list APIRoute) :=
  match goFiles with
  | [] => Some []
  | filePath :: rest =>
      content ← readFileSync p filePath;
      let relativePath := relativeTo (projectPath p) filePath in
      more ← collectRoutes p rest;
      Some (discoverRoutesInFile content relativePath ++ more)
  end.

Definition discoverAPIRoutesInternal (p : project) : option (list APIRoute) :=
  uniqueRoutes <$> collectRoutes p (getGoFilesRecursive p).


(** ** The declaration extractor (astParser.ts) and its handler *)

Module AST.

Record ImportDeclaration := {
  imp_path : str; imp_line : nat; imp_codeSnippet : str
}.

Record TypeDeclaration := {
  ty_name : str; ty_type : str; ty_line : nat; ty_codeSnippet : str;
  ty_comments : list str
}.

Record ConstantDeclaration := {
  const_name : str; const_value : str; const_line : nat; const_codeSnippet : str;
  const_comments : list str
}.

Record VariableDeclaration := {
  var_name : str; var_type : str; var_line : nat; var_codeSnippet : str;
  var_comments : list str
}.

Record Parameter_ := { param_name : str; param_type : str }.

Record FunctionDeclaration := {
  fn_name : str; fn_parameters : list Parameter_; fn_returnType : str;
  fn_line : nat; fn_codeSnippet : str; fn_comments : list str;
  fn_receiver : option str
}.

Record StructField := {
  field_name : str; field_type : str; field_tag : str; field_comments : list str
}.

Record StructDeclaration := {
  struct_name : str; struct_fields : list StructField; struct_line : nat;
  struct_codeSnippet : str; struct_comments : list str
}.

Record InterfaceMethod := {
  meth_name : str; meth_parameters : list Parameter_; meth_returnType : str;
  meth_comments : list str
}.

Record InterfaceDeclaration := {
  iface_name : str; iface_methods : list InterfaceMethod; iface_line : nat;
  iface_codeSnippet : str; iface_comments : list str
}.

Inductive commentKind := LineComment | BlockComment.

Record Comment := { comment_text : str; comment_line : nat; comment_type : commentKind }.

Record CodeStructure := {
  filePath : str;
  packageName : str;
  imports : list ImportDeclaration;
  types : list TypeDeclaration;
  constants : list ConstantDeclaration;
  variables : list VariableDeclaration;
  functions : list FunctionDeclaration;
  structs : list StructDeclaration;
  interfaces : list InterfaceDeclaration;
  comments : list Comment
}.

(** The structure [parseFile] builds before it parses anything. *)
Definition emptyStructure (relativePath : str) : CodeStructure :=
  {| filePath := relativePath; packageName := []; imports := []; types := [];
     constants := []; variables := []; functions := []; structs := [];
     interfaces := []; comments := [] |}.

(** A block of lines: [{ content, endIndex }]. *)
Record block := { content : str; endIndex : nat }.

(** The [while] loop of [extractTypeBlock] and [extractFunctionBlock], on
    the lines from index [i] on. *)
Fixpoint braceLoop (rest : list str) (i : nat) (braceCount : Z) (content : str)
    : str * nat :=
  match rest with
  | [] => (content, i)
  | line :: rest' =>
      if (0 <? braceCount)%Z then
        let braceCount := if includes line (js "{") then (braceCount + 1)%Z else braceCount in
        let braceCount := if includes line (js "}") then (braceCount - 1)%Z else braceCount in
        braceLoop rest' (S i) braceCount (content ++ nl :: line)
      else (content, i)
  end.

(** [extractTypeBlock(lines, startIndex, _type)]; [None] is the
    [TypeError] on a start index outside the lines. *)
Definition extractTypeBlock (lines : list str) (startIndex : nat) : option block :=
  content ← lines !! startIndex;
  if includes content (js "{") then
    let '(content, i) := braceLoop (drop (S startIndex) lines) (S startIndex) 1 content in
    Some {| content := content; endIndex := i - 1 |}
  else Some {| content := content; endIndex := startIndex |}.

(** [extractFunctionBlock] has the body of [extractTypeBlock]. *)
Definition extractFunctionBlock (lines : list str) (startIndex : nat) : option block :=
  content ← lines !! startIndex;
  if includes content (js "{") then
    let '(content, i) := braceLoop (drop (S startIndex) lines) (S startIndex) 1 content in
    Some {| content := content; endIndex := i - 1 |}
  else Some {| content := content; endIndex := startIndex |}.

Section ParseFile.
(** [path.relative] of Node. *)
Variable relative : str -> str -> str.

(** The [try] block of [parseFile]: [extractComments], then
    [parseGoContent], which fill the structure in place.  The value is the
    structure as the block leaves it, whether it completes or throws: the
    [catch] logs the error and returns the same object. *)
Variable parseBody : str -> CodeStructure -> CodeStructure.

(** [ASTParser.parseFile(filePath, projectPath)]; [None] is the exception
    of [readFileSync], which is called before the [try]. *)
Definition parseFile (p : project) (filePath : str) : option CodeStructure :=
  content ← readFileSync p filePath;
  let relativePath := relative (projectPath p) filePath in
  let structure := emptyStructure relativePath in
  Some (parseBody content structure).

Record elementCount := {
  count_files : nat; count_imports : nat; count_types : nat;
  count_constants : nat; count_variables : nat; count_functions : nat;
  count_structs : nat; count_interfaces : nat
}.

Definition countTotalElements (structures : list CodeStructure) : elementCount :=
  fold_left
    (fun count structure =>
       {| count_files := count_files count;
          count_imports := count_imports count + length (imports structure);
          count_types := count_types count + length (types structure);
          count_constants := count_constants count + length (constants structure);
          count_variables := count_variables count + length (variables structure);
          count_functions := count_functions count + length (functions structure);
          count_structs := count_structs count + length (structs structure);
          count_interfaces := count_interfaces count + length (interfaces structure) |})
    structures
    {| count_files := length structures; count_imports := 0; count_types := 0;
       count_constants := 0; count_variables := 0; count_functions := 0;
       count_structs := 0; count_interfaces := 0 |}.

(** The [for] loop of the handler: [None] when a [parseFile] throws. *)
Fixpoint parseAll (p : project) (goFiles : list str) : option (list CodeStructure) :=
  match goFiles with
  | [] => Some []
  | filePath :: rest =>
      structure ← parseFile p filePath;
      structures ← parseAll p rest;
      Some (structure :: structures)
  end.

Inductive analysis :=
| Success (structures : list CodeStructure) (totalFiles : nat)
    (totalElements : elementCount)
| Failure.

(** The handler of [ast:analyzeProject]: the exception of any file is
    caught by the one [try] around the whole scan. *)
Definition analyzeProject (p : project) : analysis :=
  let goFiles := getGoFilesRecursive p in
  match parseAll p goFiles with
  | Some structures =>
      Success structures (length goFiles) (countTotalElements structures)
  | None => Failure
  end.
End ParseFile.

End AST.

(** ** Function bodies (apiFlowUtils.ts) *)

Record scanner := {
  braceCount : Z;
  bodyStart : option nat;
  inString : bool;
  inComment : bool;
  stringChar : option ascii
}.

Definition is_quote (c : ascii) : bool := Ascii.eqb c dq || Ascii.eqb c bquote.

(** One turn of the [for] loop of [extractFunctionBody] at index [i], on
    [char], [nextChar] and [prev], which is [content[i - 1]]: the next state,
    or [None] for the [break] that sets [bodyEnd] to [i]. *)
Definition scanStep (char : ascii) (nextChar prev : option ascii) (i : nat)
    (st : scanner) : option scanner :=
  if is_quote char && negb (inComment st) then
    if negb (inString st) then
      Some {| braceCount := braceCount st; bodyStart := bodyStart st;
              inString := true; inComment := inComment st;
              stringChar := Some char |}
    else if bool_decide (Some char = stringChar st)
            && negb (bool_decide (prev = Some bslash)) then
      Some {| braceCount := braceCount st; bodyStart := bodyStart st;
              inString := false; inComment := inComment st;
              stringChar := None |}
    else Some st
  else if negb (inString st) && Ascii.eqb char "/"
          && bool_decide (nextChar = Some "/"%char) then
    Some {| braceCount := braceCount st; bodyStart := bodyStart st;
            inString := inString st; inComment := true;
            stringChar := stringChar st |}
  else if negb (inString st) && Ascii.eqb char nl && inComment st then
    Some {| braceCount := braceCount st; bodyStart := bodyStart st;
            inString := inString st; inComment := false;
            stringChar := stringChar st |}
  else if negb (inString st) && negb (inComment st) then
    if Ascii.eqb char "{" then
      Some {| braceCount := (braceCount st + 1)%Z;
              bodyStart := match bodyStart st with None => Some i | b => b end;
              inString := inString st; inComment := inComment st;
              stringChar := stringChar st |}
    else if Ascii.eqb char "}" then
      if ((braceCount st - 1) =? 0)%Z then None
      else
        Some {| braceCount := (braceCount st - 1)%Z; bodyStart := bodyStart st;
                inString := inString st; inComment := inComment st;
                stringChar := stringChar st |}
    else Some st
  else Some st.

(** The loop on the characters from index [i] on: [(bodyStart, bodyEnd)],
    with [None] for -1. *)
Fixpoint scanBody (rest : str) (i : nat) (prev : option ascii) (st : scanner)
    : option nat * option nat :=
  match rest with
  | [] => (bodyStart st, None)
  | char :: rest' =>
      match scanStep char (head rest') prev i st with
      | Some st' => scanBody rest' (S i) (Some char) st'
      | None => (bodyStart st, Some i)
      end
  end.

Definition scanner0 : scanner :=
  {| braceCount := 0; bodyStart := None; inString := false; inComment := false;
     stringChar := None |}.

Definition extractFunctionBody (content : str) (startIndex : nat) : str :=
  let prev := match startIndex with 0 => None | S j => content !! j end in
  match scanBody (drop startIndex content) startIndex prev scanner0 with
  | (Some bodyStart, Some bodyEnd) => trim (substring (bodyStart + 1) bodyEnd content)
  | _ => []
  end.

(** ** Call graph and symbol lookup (goUtils.ts) *)

Module GoUtils.

Record FunctionDef := {
  fd_name : str;
  fd_file : str;
  fd_line : nat;
  fd_package : str;
  fd_params : list str;
  fd_returns : list str
}.

Record FunctionCall := {
  callerFunc : str;
  callerFile : str;
  callerLine : nat;
  calledFunc : str;
  calledFile : option str;
  calledLine : option nat;
  package : str
}.

Record CallGraph := {
  functions : list FunctionDef;
  calls : list FunctionCall
}.

(** [(?:\([^)]*\)\s+)?]: the optional receiver. *)
Definition receiver_opt : regex :=
  opt (seqs [l "("; RStar (notchr ")"); l ")"; plus space]).

(** The pattern of [extractFunctions], with the flags [gm]. *)
Definition funcRegex : regex :=
  seqs [RBol true; l "func"; plus space; receiver_opt; RGroup 1 (plus word);
        RStar space; l "("; RGroup 2 (RStar (notchr ")")); l ")";
        opt (alts [seqs [RStar space; l "("; RGroup 3 (RStar (notchr ")")); l ")"];
                   seqs [RStar space;
                         RGroup 4 (seqs [plus word;
                                         opt (seqs [l "["; plus word; l "]"])])]])].

Definition extractFunctions (content filePath packageName : str) : list FunctionDef :=
  map
    (fun m =>
       let funcName := default [] (grp m 1) in
       let paramsStr := or_else (grp m 2) [] in
       let returnsStr := or_else (grp m 3) (or_else (grp m 4) []) in
       let lineNumber := lineNumberAt content (m_index m) in
       let params :=
         map (fun p =>
                let parts := split_re (plus space) p in
                if 1 <? length parts then default [] (head parts) else js "param")
             (filter (fun p => nonempty p = true) (map trim (split "," paramsStr))) in
       let returns :=
         filter (fun r => nonempty r = true) (map trim (split "," returnsStr)) in
       {| fd_name := funcName; fd_file := filePath; fd_line := lineNumber;
          fd_package := packageName; fd_params := params; fd_returns := returns |})
    (matchAll funcRegex content).

Definition builtins : list str :=
  map js
    ["make"; "len"; "cap"; "append"; "copy"; "delete"; "close"; "panic"; "recover";
     "print"; "println"; "new"; "complex"; "real"; "imag"; "min"; "max"; "if"; "for";
     "switch"; "select"; "go"; "defer"; "return"; "break"; "continue"; "fmt.Printf";
     "fmt.Println"; "fmt.Print"; "fmt.Sprintf"; "log.Printf"; "log.Println"]%string.

Definition isBuiltinOrKeyword (name : str) : bool :=
  bool_decide (name ∈ builtins)
  || startsWith name (js "fmt.")
  || startsWith name (js "log.")
  || startsWith name (js "strconv.")
  || startsWith name (js "strings.")
  || includes name (js ".").

(** The line pattern that opens a function; no flag. *)
Definition funcLine : regex :=
  seqs [RBol false; l "func"; plus space; receiver_opt; RGroup 1 (plus word);
        RStar space; l "("].

(** The call pattern, with the flag [g]. *)
Definition callPattern : regex :=
  seqs [RGroup 1 (seqs [plus word; opt (seqs [l "."; plus word])]); RStar space; l "("].

(** The calls recorded for one line that does not open a function.  Group 1
    spans the callee and is defined in every match. *)
Definition callsOfLine (line : str) (lineNumber : nat)
    (currentFunction filePath packageName : str) : list FunctionCall :=
  omap
    (fun callMatch =>
       calledFunc ← grp callMatch 1;
       if isBuiltinOrKeyword calledFunc then None
       else Some {| callerFunc := currentFunction; callerFile := filePath;
                    callerLine := lineNumber; calledFunc := calledFunc;
                    calledFile := None; calledLine := None;
                    package := packageName |})
    (matchAll callPattern line).

(** The loop of [extractFunctionCalls] on the lines from index [i] on. *)
Fixpoint callsOfLines (lines : list str) (i : nat)
    (currentFunction filePath packageName : str) : list FunctionCall :=
  match lines with
  | [] => []
  | line :: rest =>
      let lineNumber := i + 1 in
      match exec funcLine line with
      | Some funcMatch =>
          callsOfLines rest (S i) (default [] (grp funcMatch 1)) filePath packageName
      | None =>
          callsOfLine line lineNumber currentFunction filePath packageName
            ++ callsOfLines rest (S i) currentFunction filePath packageName
      end
  end.

Definition extractFunctionCalls (content filePath packageName : str)
    : list FunctionCall :=
  callsOfLines (split nl content) 0 [] filePath packageName.

(** The lookup map of [resolveCallTargets]: a later function of the same
    key replaces an earlier one. *)
Definition buildFunctionMap (functions : list FunctionDef) : gmap str FunctionDef :=
  fold_left
    (fun functionMap func =>
       <[fd_name func := func]>
         (<[fd_package func ++ js "." ++ fd_name func := func]> functionMap))
    functions ∅.

Definition resolveCall (functionMap : gmap str FunctionDef) (call : FunctionCall)
    : FunctionCall :=
  let targetFunc :=
    match functionMap !! (package call ++ js "." ++ calledFunc call) with
    | Some f => Some f
    | None => functionMap !! calledFunc call
    end in
  match targetFunc with
  | Some targetFunc =>
      {| callerFunc := callerFunc call; callerFile := callerFile call;
         callerLine := callerLine call; calledFunc := calledFunc call;
         calledFile := Some (fd_file targetFunc);
         calledLine := Some (fd_line targetFunc);
         package := package call |}
  | None => call
  end.

(** [resolveCallTargets] updates the calls of the graph in place. *)
Definition resolveCallTargets (callGraph : CallGraph) : CallGraph :=
  let functionMap := buildFunctionMap (functions callGraph) in
  {| functions := functions callGraph;
     calls := map (resolveCall functionMap) (calls callGraph) |}.

(** [/^package\s+(\w+)/m] *)
Definition packagePattern : regex :=
  seqs [RBol true; l "package"; plus space; RGroup 1 (plus word)].

Definition packageOf (content : str) : str :=
  match exec packagePattern content with
  | Some packageMatch => default [] (grp packageMatch 1)
  | None => js "main"
  end.

(** The handler of [go:analyzeCallGraph]; a file that cannot be read
    throws. *)
Fixpoint collectGraph (p : project) (goFiles : list str) (g : CallGraph)
    : js_result CallGraph :=
  match goFiles with
  | [] => Returned g
  | filePath :: rest =>
      content ← or_throw (readFileSync p filePath);
      let relativePath := relativeTo (projectPath p) filePath in
      let packageName := packageOf content in
      collectGraph p rest
        {| functions := functions g ++ extractFunctions content relativePath packageName;
           calls := calls g ++ extractFunctionCalls content relativePath packageName |}
  end.

Definition analyzeCallGraph (p : project) : js_result CallGraph :=
  callGraph ← collectGraph p (getGoFiles p) {| functions := []; calls := [] |};
  Returned (resolveCallTargets callGraph).

(** *** Symbol lookup *)

Inductive symbolKind := KFunction | KStruct | KInterface | KType | KVariable.

Record SymbolInfo := {
  sym_name : str;
  sym_type : symbolKind;
  sym_file : str;
  sym_line : nat;
  signature : str
}.

(** [\([^)]*\)] *)
Definition parens : regex := seqs [l "("; RStar (notchr ")"); l ")"].

(** [(?:\s*\([^)]*\))?] *)
Definition results_opt : regex := opt (seqs [RStar space; parens]).

(** The patterns of [findSymbolInProject], as functions of the symbol. *)
Definition funcPattern1 (symbol : str) : regex :=
  seqs [l "func"; plus space; lit symbol; RStar space; parens; results_opt].

Definition funcPattern2 (symbol : str) : regex :=
  seqs [l "func"; plus space; parens; plus space; lit symbol; RStar space; parens;
        results_opt].

(** [func\s+\([^)]*\s+\*?\w+\)\s+SYMBOL\s*\([^)]*\)] *)
Definition funcPattern3 (symbol : str) : regex :=
  seqs [l "func"; plus space; l "("; RStar (notchr ")"); plus space; opt (l "*");
        plus word; l ")"; plus space; lit symbol; RStar space; parens].

Definition structPattern (symbol : str) : regex :=
  seqs [l "type"; plus space; lit symbol; plus space; l "struct"].

Definition interfacePattern (symbol : str) : regex :=
  seqs [l "type"; plus space; lit symbol; plus space; l "interface"].

(** [type\s+SYMBOL\s+[^\s{]+] *)
Definition typePattern (symbol : str) : regex :=
  seqs [l "type"; plus space; lit symbol; plus space;
        plus (RChar (fun c => negb (is_s c || Ascii.eqb c "{")))].

Definition is_eq_or_colon (c : ascii) : bool := Ascii.eqb c "=" || Ascii.eqb c ":".

Definition singlePattern (keyword : string) (symbol : str) : regex :=
  seqs [l keyword; plus space; lit symbol; RStar space; RChar is_eq_or_colon].

(** [KEYWORD\s*\([^)]*SYMBOL[^)]*\)] *)
Definition groupedPattern (keyword : string) (symbol : str) : regex :=
  seqs [l keyword; RStar space; l "("; RStar (notchr ")"); lit symbol;
        RStar (notchr ")"); l ")"].

Definition shortVarPattern (symbol : str) : regex :=
  seqs [lit symbol; RStar space; l ":="].

Section Lookup.
Context {host : RegExpHost}.

(** [line.match(new RegExp(...))] as a truth value. *)
Definition lineMatches (pattern : str -> regex) (symbol line : str) : js_result bool :=
  run_exec ← compile pattern symbol;
  Returned (bool_decide (is_Some (run_exec line))).

(** [a || b] where [b] is evaluated only when [a] is falsy. *)
Definition orElse (a b : js_result bool) : js_result bool :=
  x ← a; if (x : bool) then Returned true else b.

(** The body of the loop on the lines: the kind found on this line, if
    any.  The three function patterns are built before any is tried. *)
Definition classifyLine (symbol line : str) : js_result (option symbolKind) :=
  p1 ← compile funcPattern1 symbol;
  p2 ← compile funcPattern2 symbol;
  p3 ← compile funcPattern3 symbol;
  if existsb (fun run_exec : str -> option rmatched =>
                bool_decide (is_Some (run_exec line))) [p1; p2; p3]
  then Returned (Some KFunction)
  else
    structMatch ← lineMatches structPattern symbol line;
    if (structMatch : bool) then Returned (Some KStruct) else
    interfaceMatch ← lineMatches interfacePattern symbol line;
    if (interfaceMatch : bool) then Returned (Some KInterface) else
    typeMatch ← lineMatches typePattern symbol line;
    if typeMatch && negb structMatch && negb interfaceMatch
    then Returned (Some KType) else
    constMatch ← orElse (lineMatches (singlePattern "const") symbol line)
                        (lineMatches (groupedPattern "const") symbol line);
    if (constMatch : bool) then Returned (Some KVariable) else
    varMatch ← orElse (lineMatches (singlePattern "var") symbol line)
                      (lineMatches (groupedPattern "var") symbol line);
    if (varMatch : bool) then Returned (Some KVariable) else
    shortVarMatch ← lineMatches shortVarPattern symbol line;
    if (shortVarMatch : bool) then Returned (Some KVariable) else
    Returned None.

(** The loop on the lines of one file, from index [i] on. *)
Fixpoint findInLines (symbol normalizedFile : str) (lines : list str) (i : nat)
    : js_result (option SymbolInfo) :=
  match lines with
  | [] => Returned None
  | line :: rest =>
      found ← classifyLine symbol line;
      match found with
      | Some kind =>
          Returned (Some {| sym_name := symbol; sym_type := kind;
                            sym_file := normalizedFile; sym_line := i + 1;
                            signature := trim line |})
      | None => findInLines symbol normalizedFile rest (S i)
      end
  end.

(** The loop on the files; [normalizePath] is the identity on the
    normalised paths of the model. *)
Fixpoint findInFiles (p : project) (symbol : str) (goFiles : list str)
    : js_result (option SymbolInfo) :=
  match goFiles with
  | [] => Returned None
  | file :: rest =>
      content ← or_throw (readFileSync p file);
      found ← findInLines symbol file (split nl content) 0;
      match found with
      | Some info => Returned (Some info)
      | None => findInFiles p symbol rest
      end
  end.

(** [findSymbolInProject]: the [catch] resolves to [null]. *)
Definition findSymbolInProject (p : project) (symbol : str) : option SymbolInfo :=
  catch (findInFiles p symbol (getGoFiles p)) None.
End Lookup.

End GoUtils.

(** ** The data-flow tracer (apiFlowUtils.ts) *)

Module Flow.

Inductive nodeType :=
| TRoute | THandler | TService | TDto | TRepository | TDatabase | TExternal.

Global Instance nodeType_eq_dec : EqDecision nodeType.
Proof. solve_decision. Defined.

Definition typeName (t : nodeType) : str :=
  js match t with
     | TRoute => "route" | THandler => "handler" | TService => "service"
     | TDto => "dto" | TRepository => "repository" | TDatabase => "database"
     | TExternal => "external"
     end.

Record Metadata := {
  parameters : option (list str);
  returnType : option str;
  databaseQuery : option str;
  tableName : option str;
  dtoFields : option (list str)
}.

Definition noMetadata : Metadata :=
  {| parameters := None; returnType := None; databaseQuery := None;
     tableName := None; dtoFields := None |}.

Record DataFlowNode := {
  node_id : str;
  node_type : nodeType;
  node_name : str;
  node_file : str;
  node_line : option nat;
  node_content : option str;
  node_metadata : option Metadata
}.

Record DataFlowEdge := {
  source : str;
  target : str;
  dataType : option str;
  transformation : option str
}.

(** A call found in a function body. *)
Record Call := {
  functionName : str;
  context : str;
  call_line : nat;
  call_transformation : option str
}.

(** *** Utility helpers *)

(** [path.match(/\{([^}]+)\}/g)], then the braces removed. *)
Definition extractRouteParameters (path : str) : list str :=
  map (fun param => replace_all (RChar (fun c => Ascii.eqb c "{" || Ascii.eqb c "}")) []
                      (m_text param))
      (matchAll (seqs [l "{"; RGroup 1 (plus (notchr "}")); l "}"]) path).

Definition parseParameters (paramStr : str) : list str :=
  if negb (nonempty (trim paramStr)) then []
  else
    filter (fun p => nonempty p = true)
      (map (fun p =>
              let parts := split_re (plus space) (trim p) in
              or_else (head parts) (trim p))
           (split "," paramStr)).

Definition flowBuiltins : list str :=
  map js
    ["len"; "cap"; "make"; "append"; "copy"; "delete"; "close"; "panic"; "recover";
     "print"; "println"; "new"; "complex"; "real"; "imag"; "min"; "max"; "if"; "for";
     "switch"; "select"; "go"; "defer"; "return"; "break"; "continue"; "range"]%string.

Definition commonPatterns : list str :=
  map js
    ["fmt."; "log."; "strings."; "strconv."; "time."; "context."; "json."; "http.";
     "url."; "regexp."; "sort."; "math."]%string.

Definition isBuiltinOrCommonPattern (funcName : str) : bool :=
  bool_decide (funcName ∈ flowBuiltins)
  || existsb (fun pattern => startsWith funcName pattern) commonPatterns.

Definition inferDataType (context : str) : str :=
  let lower := toLowerCase context in
  if includes lower (js "json") || includes lower (js "marshal")
     || includes lower (js "unmarshal") then js "JSON"
  else if includes lower (js "xml") then js "XML"
  else if includes lower (js "string") || includes lower (js "text") then js "String"
  else if includes lower (js "int") || includes lower (js "number") then js "Number"
  else if includes lower (js "bool") then js "Boolean"
  else if includes lower (js "slice") || includes lower (js "array") then js "Array"
  else js "Data".

Definition extractTransformation (line : str) : option str :=
  if includes line (js "json.Marshal") || includes line (js "json.Unmarshal")
  then Some (js "JSON Conversion")
  else if includes line (js "strconv.") then Some (js "Type Conversion")
  else if includes line (js "strings.") then Some (js "String Processing")
  else None.

(** The first parenthesised text of the context, split at commas. *)
Definition extractParametersFromCall (context : str) : list str :=
  match exec (seqs [l "("; RGroup 1 (RStar (notchr ")")); l ")"]) context with
  | None => []
  | Some m =>
      filter (fun p => nonempty p = true)
        (map trim (split "," (default [] (grp m 1))))
  end.

(** [/type\s+\w+\s+struct\s*\{([^}]+)\}/s] *)
Definition structBodyPattern : regex :=
  seqs [l "type"; plus space; plus word; plus space; l "struct"; RStar space; l "{";
        RGroup 1 (plus (notchr "}")); l "}"].

Definition extractDTOFields (content : str) : str :=
  match exec structBodyPattern content with
  | Some structMatch => trim (default [] (grp structMatch 1))
  | None => join [nl] (take 10 (split nl content))
  end.

Definition extractDTOFieldNames (content : str) : list str :=
  match exec structBodyPattern content with
  | Some structMatch =>
      omap (fun line =>
              fieldMatch ← exec (seqs [RBol false; RGroup 1 (plus word); plus space])
                              (trim line);
              grp fieldMatch 1)
           (split nl (default [] (grp structMatch 1)))
  | None => []
  end.

(** A quoted SQL statement that starts with a verb, with the flags [gi]. *)
Definition queryPattern (quote : ascii) (verb : string) : regex :=
  seqs [chr quote; RGroup 1 (seqs [lit_ci (js verb); plus (notchr quote)]); chr quote].

Definition queryPatterns : list regex :=
  map (queryPattern dq) ["SELECT"; "INSERT"; "UPDATE"; "DELETE"]%string ++
  map (queryPattern bquote) ["SELECT"; "INSERT"; "UPDATE"; "DELETE"]%string.

(** [content.match(pattern)] with a global pattern is the array of the
    matched texts, so [match[1]] is the second matched text; [None] is
    [undefined], when the first pattern that matches matches once. *)
Fixpoint firstQuery (patterns : list regex) (content : str) : option str :=
  match patterns with
  | [] => Some (substring 0 100 content ++ js "...")
  | pattern :: rest =>
      match matchAll pattern content with
      | [] => firstQuery rest content
      | matched => m_text <$> (matched !! 1)
      end
  end.

Definition extractDatabaseQuery (content : str) : option str :=
  firstQuery queryPatterns content.

Definition tablePatterns : list regex :=
  [ seqs [lit_ci (js "FROM"); plus space; RGroup 1 (plus word)];
    seqs [lit_ci (js "INSERT"); plus space; lit_ci (js "INTO"); plus space;
          RGroup 1 (plus word)];
    seqs [lit_ci (js "UPDATE"); plus space; RGroup 1 (plus word)];
    seqs [lit_ci (js "DELETE"); plus space; lit_ci (js "FROM"); plus space;
          RGroup 1 (plus word)] ].

Fixpoint firstTable (patterns : list regex) (query : str) : option str :=
  match patterns with
  | [] => None
  | pattern :: rest =>
      match exec pattern query with
      | Some m => grp m 1
      | None => firstTable rest query
      end
  end.

Definition extractTableName (query : str) : option str := firstTable tablePatterns query.

Definition determineNodeType (functionName context : str) : nodeType :=
  let lowerFunc := toLowerCase functionName in
  let lowerContext := toLowerCase context in
  if includes lowerFunc (js "dto") || includes lowerFunc (js "model")
     || includes lowerFunc (js "request") || includes lowerFunc (js "response")
     || includes lowerContext (js "json.marshal")
     || includes lowerContext (js "json.unmarshal")
  then TDto
  else if includes lowerFunc (js "db") || includes lowerFunc (js "query")
          || includes lowerFunc (js "exec") || includes lowerFunc (js "scan")
          || includes lowerContext (js "select") || includes lowerContext (js "insert")
          || includes lowerContext (js "update") || includes lowerContext (js "delete")
  then TDatabase
  else if includes lowerFunc (js "repo") || includes lowerFunc (js "repository")
          || includes lowerFunc (js "find") || includes lowerFunc (js "save")
          || includes lowerFunc (js "get") || includes lowerFunc (js "create")
  then TRepository
  else if includes lowerFunc (js "http") || includes lowerFunc (js "client")
          || includes lowerFunc (js "api") || includes lowerContext (js "http.get")
          || includes lowerContext (js "http.post")
  then TExternal
  else TService.

(** The call pattern of the tracer, with the flag [g]: any number of
    selectors. *)
Definition flowCallPattern : regex :=
  seqs [RGroup 1 (seqs [plus word; RStar (seqs [l "."; plus word])]); RStar space; l "("].

(** The calls of the lines of a function body, from line index [i] on. *)
Fixpoint callsOfBodyLines (lines : list str) (i : nat) : list Call :=
  match lines with
  | [] => []
  | line :: rest =>
      omap (fun callMatch =>
              funcCall ← grp callMatch 1;
              if isBuiltinOrCommonPattern funcCall then None
              else Some {| functionName := funcCall; context := trim line;
                           call_line := i + 1;
                           call_transformation := extractTransformation line |})
           (matchAll flowCallPattern line)
        ++ callsOfBodyLines rest (S i)
  end.

(** The calls of the function whose definition is matched at [index]. *)
Definition callsAt (content : str) (index : nat) : list Call :=
  let functionBody := extractFunctionBody content index in
  callsOfBodyLines (split nl functionBody) 0.

(** [func\s+NAME\s*\([^)]*\)] *)
Definition definitionPattern (functionName : str) : regex :=
  seqs [l "func"; plus space; lit functionName; RStar space; l "(";
        RStar (notchr ")"); l ")"].

Section Tracer.
Context {host : RegExpHost}.

(** [extractFunctionCallsFromFunction]: an exception leaves the calls
    empty. *)
Definition extractFunctionCallsFromFunction (content functionName : str) : list Call :=
  catch
    (funcRegex ← compile definitionPattern functionName;
     match funcRegex content with
     | None => Returned []
     | Some m => Returned (callsAt content (m_index m))
     end)
    [].

Record FunctionDefinition := {
  def_file : str;
  def_line : nat;
  def_content : str
}.

(** The loop of [findFunctionDefinition]: an exception in a file moves on
    to the next file. *)
Fixpoint findInGoFiles (p : project) (functionName : str) (goFiles : list str)
    : option FunctionDefinition :=
  match goFiles with
  | [] => None
  | filePath :: rest =>
      let attempt :=
        content ← or_throw (readFileSync p filePath);
        let relativePath := relativeTo (projectPath p) filePath in
        funcRegex ← compile definitionPattern functionName;
        Returned
          (match funcRegex content with
           | Some m =>
               Some {| def_file := relativePath;
                       def_line := lineNumberAt content (m_index m);
                       def_content := extractFunctionBody content (m_index m) |}
           | None => None
           end) in
      match catch attempt None with
      | Some functionDef => Some functionDef
      | None => findInGoFiles p functionName rest
      end
  end.

Definition findFunctionDefinition (p : project) (functionName : str)
    : option FunctionDefinition :=
  findInGoFiles p functionName (getGoFilesRecursive p).

Definition fallbackNode (call : Call) (nodeType : nodeType) (nodeId : str)
    : DataFlowNode :=
  {| node_id := nodeId; node_type := nodeType; node_name := functionName call;
     node_file := js "unknown"; node_line := None;
     node_content := Some (context call); node_metadata := None |}.

(** [createNodeForFunction]; it never returns [null].  For a database node
    whose query text is undefined the [TypeError] of [extractTableName] is
    caught and the fallback node is returned. *)
Definition createNodeForFunction (p : project) (call : Call) (nodeType : nodeType)
    (nodeId : str) : DataFlowNode :=
  if bool_decide (nodeType = TExternal) || includes (functionName call) (js ".") then
    {| node_id := nodeId; node_type := nodeType; node_name := functionName call;
       node_file := js "external"; node_line := None;
       node_content := Some (context call);
       node_metadata :=
         Some {| parameters := Some (extractParametersFromCall (context call));
                 returnType := None; databaseQuery := None; tableName := None;
                 dtoFields := None |} |}
  else
    match findFunctionDefinition p (functionName call) with
    | Some functionDef =>
        let found (content : str) (metadata : Metadata) :=
          {| node_id := nodeId; node_type := nodeType; node_name := functionName call;
             node_file := def_file functionDef; node_line := Some (def_line functionDef);
             node_content := Some content; node_metadata := Some metadata |} in
        if bool_decide (nodeType = TDto) then
          found (extractDTOFields (def_content functionDef))
            {| parameters := None; returnType := None; databaseQuery := None;
               tableName := None;
               dtoFields := Some (extractDTOFieldNames (def_content functionDef)) |}
        else if bool_decide (nodeType = TDatabase) then
          match extractDatabaseQuery (def_content functionDef) with
          | Some content =>
              found content
                {| parameters := None; returnType := None;
                   databaseQuery := Some content;
                   tableName := extractTableName content; dtoFields := None |}
          | None => fallbackNode call nodeType nodeId
          end
        else
          found (substring 0 150 (def_content functionDef) ++ js "...") noMetadata
    | None => fallbackNode call nodeType nodeId
    end.

(** The patterns of [traceHandlerFunction]. *)
Definition handlerPattern1 (handler : str) : regex :=
  seqs [l "func"; plus space; lit handler; RStar space; l "(";
        RGroup 1 (RStar (notchr ")")); l ")";
        opt (seqs [RStar space; l "("; RGroup 2 (RStar (notchr ")")); l ")"])].

Definition handlerPattern2 (handler : str) : regex :=
  seqs [l "func"; plus space; l "("; RStar (notchr ")"); l ")"; plus space;
        lit handler; RStar space; l "("; RGroup 1 (RStar (notchr ")")); l ")";
        opt (seqs [RStar space; l "("; RGroup 2 (RStar (notchr ")")); l ")"])].

Definition handlerPattern3 (handler : str) : regex :=
  seqs [l "var"; plus space; lit handler; RStar space; l "="].

Definition basicHandlerNode (route : APIRoute) : DataFlowNode :=
  {| node_id := js "handler-" ++ handler route; node_type := THandler;
     node_name := handler route; node_file := handlerFile route;
     node_line := Some (handlerLine route);
     node_content :=
       Some (or_else (Some (codeSnippet route)) (js "Handler: " ++ handler route));
     node_metadata := None |}.

(** The first pattern, in order, that matches. *)
Fixpoint firstExec (patterns : list (str -> option rmatched)) (content : str)
    : option rmatched :=
  match patterns with
  | [] => None
  | pattern :: rest =>
      match pattern content with
      | Some m => Some m
      | None => firstExec rest content
      end
  end.

Definition traceHandlerFunction (p : project) (route : APIRoute) : DataFlowNode :=
  catch
    (let handlerFilePath := path_join (projectPath p) (handlerFile route) in
     content ← or_throw (readFileSync p handlerFilePath);
     p1 ← compile handlerPattern1 (handler route);
     p2 ← compile handlerPattern2 (handler route);
     p3 ← compile handlerPattern3 (handler route);
     match firstExec [p1; p2; p3] content with
     | None => Returned (basicHandlerNode route)
     | Some m =>
         let params := or_else (grp m 1) [] in
         let returns := or_else (grp m 2) [] in
         let lineNumber := lineNumberAt content (m_index m) in
         let functionBody := extractFunctionBody content (m_index m) in
         let codeSnippet :=
           substring 0 300 functionBody
             ++ (if 300 <? length functionBody then js "..." else []) in
         let codeSnippet :=
           if length codeSnippet <? 20 then
             js "func " ++ handler route ++ js "(" ++ params ++ js ") " ++
             (if nonempty returns then js "(" ++ returns ++ js ")" else [])
           else codeSnippet in
         Returned
           {| node_id := js "handler-" ++ handler route; node_type := THandler;
              node_name := handler route; node_file := handlerFile route;
              node_line := Some lineNumber; node_content := Some codeSnippet;
              node_metadata :=
                Some {| parameters := Some (parseParameters params);
                        returnType := Some returns; databaseQuery := None;
                        tableName := None; dtoFields := None |} |}
     end)
    (basicHandlerNode route).

(** *** The recursive trace *)

(** The arrays [nodes] and [edges] and the set [processedFunctions], which
    every call of [traceFunctionCalls] shares and updates in place. *)
Record traceState := {
  nodes : list DataFlowNode;
  edges : list DataFlowEdge;
  processedFunctions : gset str
}.

Definition pushNode (node : DataFlowNode) (st : traceState) : traceState :=
  {| nodes := nodes st ++ [node]; edges := edges st;
     processedFunctions := processedFunctions st |}.

Definition pushEdge (edge : DataFlowEdge) (st : traceState) : traceState :=
  {| nodes := nodes st; edges := edges st ++ [edge];
     processedFunctions := processedFunctions st |}.

Definition markProcessed (funcKey : str) (st : traceState) : traceState :=
  {| nodes := nodes st; edges := edges st;
     processedFunctions := {[funcKey]} ∪ processedFunctions st |}.

Section Loop.
(** The recursive call, on a file, a function name and a source node. *)
Variable recurse : str -> str -> str -> traceState -> option traceState.
Variable p : project.
Variable sourceNodeId : str.

(** The body of the loop on the calls of the current function. *)
Definition traceCall (call : Call) (st : traceState) : option traceState :=
  let nodeType := determineNodeType (functionName call) (context call) in
  let nodeId :=
    typeName nodeType ++ js "-" ++ functionName call ++ js "-"
    ++ of_nat (length (nodes st)) in
  let existingNode :=
    find (fun n => bool_decide (node_name n = functionName call)
                   && bool_decide (node_type n = nodeType)) (nodes st) in
  match existingNode with
  | None =>
      let newNode := createNodeForFunction p call nodeType nodeId in
      let st := pushNode newNode st in
      let st :=
        pushEdge {| source := sourceNodeId; target := nodeId;
                    dataType := Some (inferDataType (context call));
                    transformation := call_transformation call |} st in
      if nonempty (node_file newNode)
         && negb (includes (node_file newNode) (js "external"))
      then recurse (node_file newNode) (node_name newNode) nodeId st
      else Some st
  | Some existingNode =>
      Some (pushEdge {| source := sourceNodeId; target := node_id existingNode;
                        dataType := Some (inferDataType (context call));
                        transformation := None |} st)
  end.

Fixpoint traceCalls (functionCalls : list Call) (st : traceState)
    : option traceState :=
  match functionCalls with
  | [] => Some st
  | call :: rest =>
      st' ← traceCall call st;
      traceCalls rest st'
  end.
End Loop.

(** [traceFunctionCalls]; the recursion is not structural in the source,
    and [fuel] bounds its depth: [None] is a trace cut short by the bound,
    which the source does not have. *)
Fixpoint traceFunctionCalls (fuel : nat) (p : project)
    (currentFile functionName sourceNodeId : str) (st : traceState)
    : option traceState :=
  match fuel with
  | 0 => None
  | S fuel' =>
      let funcKey := currentFile ++ js ":" ++ functionName in
      if bool_decide (funcKey ∈ processedFunctions st) then Some st
      else
        let st := markProcessed funcKey st in
        match readFileSync p (path_join (projectPath p) currentFile) with
        | None => Some st
        | Some content =>
            let functionCalls := extractFunctionCallsFromFunction content functionName in
            traceCalls (traceFunctionCalls fuel' p) p sourceNodeId functionCalls st
        end
  end.

End Tracer.

(** The names a call found anywhere in the project can have: the calls of
    every body that starts at any index of any readable file. *)
Definition callNames (p : project) : list str :=
  flat_map
    (fun file : str * option str =>
       match file.2 with
       | Some content =>
           flat_map (fun index => map functionName (callsAt content index))
                    (seq 0 (S (length content)))
       | None => []
       end)
    (all_files p).

Definition calleeTypes : list nodeType := [TService; TDto; TRepository; TDatabase; TExternal].

(** The (name, kind) pairs a node created by the trace can have. *)
Definition nodeKeys (p : project) : list (str * nodeType) :=
  flat_map (fun name => map (fun t => (name, t)) calleeTypes) (callNames p).

(** A new level of recursion follows a new node; the depth of the recursion
    is at most the number of these pairs. *)
Definition traceBound (p : project) : nat := S (length (nodeKeys p)).

Section Complete.
Context {host : RegExpHost}.

Definition routeNode (targetRoute : APIRoute) : DataFlowNode :=
  {| node_id := js "route-" ++ id targetRoute; node_type := TRoute;
     node_name := method targetRoute ++ js " " ++ path targetRoute;
     node_file := handlerFile targetRoute;
     node_line := Some (handlerLine targetRoute);
     node_content := None;
     node_metadata :=
       Some {| parameters := Some (extractRouteParameters (path targetRoute));
               returnType := None; databaseQuery := None; tableName := None;
               dtoFields := None |} |}.

(** [traceCompleteDataFlow]: the nodes and the edges. *)
Definition traceCompleteDataFlow (p : project) (targetRoute : APIRoute)
    : option (list DataFlowNode * list DataFlowEdge) :=
  let st := {| nodes := []; edges := []; processedFunctions := ∅ |} in
  let st := pushNode (routeNode targetRoute) st in
  let handlerNode := traceHandlerFunction p targetRoute in
  let st := pushNode handlerNode st in
  let st :=
    pushEdge {| source := node_id (routeNode targetRoute);
                target := node_id handlerNode;
                dataType := Some (js "HTTP Request"); transformation := None |} st in
  st ← traceFunctionCalls (traceBound p) p (node_file handlerNode)
         (node_name handlerNode) (node_id handlerNode) st;
  Some (nodes st, edges st).
End Complete.

End Flow.

(** ** File utilities (fileUtils.ts) *)

(** [getAllFiles]: the loop body for one item; every entry that is not a
    directory is listed. *)
Fixpoint allFilesOfItem (dir : str) (item : entry) : list str :=
  match item with
  | Dir name listable items =>
      if listable then flat_map (allFilesOfItem (path_join dir name)) items else []
  | File name _ => [path_join dir name]
  | Other name => [path_join dir name]
  end.

Definition getAllFiles (p : project) : list str :=
  if rootListable p then flat_map (allFilesOfItem (projectPath p)) (rootItems p)
  else [].

(** The first result of a loop that returns as soon as a turn finds one. *)
Definition firstSome {A B} (f : A -> option B) : list A -> option B :=
  fix go (l : list A) : option B :=
    match l with
    | [] => None
    | x :: l' =>
        match f x with
        | Some y => Some y
        | None => go l'
        end
    end.

(** [findFileRecursive]: the loop body for one item. *)
Fixpoint findFileInItem (fileName dir : str) (item : entry) : option str :=
  match item with
  | Dir name listable items =>
      if negb (startsWith name (js ".")) && negb (str_eqb name (js "vendor"))
         && negb (str_eqb name (js "node_modules"))
      then
        if listable then firstSome (findFileInItem fileName (path_join dir name)) items
        else None
      else None
  | File name _ =>
      if str_eqb name fileName then Some (path_join dir name) else None
  | Other _ => None
  end.

Definition findFileRecursive (p : project) (fileName : str) : option str :=
  if rootListable p then firstSome (findFileInItem fileName (projectPath p)) (rootItems p)
  else None.

(** ** The handler of [go:traceAPIFlow] (goHandlers.ts) *)

Record APIFlow := {
  flow_route : APIRoute;
  flow_nodes : list Flow.DataFlowNode;
  flow_edges : list Flow.DataFlowEdge
}.

(** [None] is the error the handler throws: from route discovery, or for a
    route identifier that no discovered route has. *)
Definition traceAPIFlow {host : RegExpHost} (p : project) (routeId : str)
    : option APIFlow :=
  allRoutes ← discoverAPIRoutesInternal p;
  targetRoute ← find (fun r => str_eqb (id r) routeId) allRoutes;
  flowData ← Flow.traceCompleteDataFlow p targetRoute;
  Some {| flow_route := targetRoute; flow_nodes := flowData.1;
          flow_edges := flowData.2 |}.

(** ** The declaration extractor, continued (astParser.ts) *)

Module ASTParser.
Import AST.

(** The dot of a pattern without the flag [s]: any character but a line
    terminator. *)
Definition dot : regex := RChar (fun c => negb (Ascii.eqb c nl || Ascii.eqb c cr)).

(** [line.substring(2).trim()] of a trimmed line. *)
Definition commentBody (line : str) : str := trim (substring_from 2 line).

(** *** Comments *)

(** The inner loop of [extractComments] on the lines from index [j] on:
    the text added to the comment, and the index of the line that closes
    it, if any. *)
Fixpoint blockCommentTail (rest : list str) (j : nat) : str * option nat :=
  match rest with
  | [] => ([], None)
  | line :: rest' =>
      if includes line (js "*/") then
        (nl :: substring 0 (default 0 (indexOf line (js "*/"))) line, Some j)
      else
        let '(text, endIndex) := blockCommentTail rest' (S j) in
        (nl :: line ++ text, endIndex)
  end.

(** The loop of [extractComments] on the lines from index [i] on; [skip]
    counts the lines up to the index the loop variable was set to. *)
Fixpoint commentsFrom (rest : list str) (i skip : nat) : list Comment :=
  match rest with
  | [] => []
  | l0 :: rest' =>
      match skip with
      | S k => commentsFrom rest' (S i) k
      | 0 =>
          let line := trim l0 in
          if startsWith line (js "//") then
            {| comment_text := commentBody line; comment_line := i + 1;
               comment_type := LineComment |} :: commentsFrom rest' (S i) 0
          else if startsWith line (js "/*") then
            let '(text, endIndex) := blockCommentTail rest' (S i) in
            {| comment_text := trim (substring_from 2 line ++ text);
               comment_line := i + 1; comment_type := BlockComment |}
              :: commentsFrom rest' (S i)
                   (match endIndex with Some e => e - i | None => 0 end)
          else commentsFrom rest' (S i) 0
      end
  end.

Definition extractComments (content : str) : list Comment :=
  commentsFrom (split nl content) 0 0.

(** The loop of [extractCommentsForLine] for the indices from 1 on, with
    the line before. *)
Fixpoint commentsBefore (previous : str) (rest : list str) : list str :=
  match rest with
  | [] => []
  | line :: rest' =>
      (if startsWith (trim previous) (js "//") then [commentBody (trim previous)] else [])
        ++ commentsBefore line rest'
  end.

Definition extractCommentsForLine (content : str) : list str :=
  match split nl content with
  | [] => []
  | first :: rest =>
      (if startsWith (trim first) (js "//") then [commentBody (trim first)] else [])
        ++ commentsBefore first rest
  end.

(** *** Blocks *)

(** The [while] loop of [extractImportBlock]. *)
Fixpoint parenLoop (rest : list str) (i : nat) (braceCount : Z) (content : str)
    : str * nat :=
  match rest with
  | [] => (content, i)
  | line :: rest' =>
      if (0 <? braceCount)%Z then
        let braceCount := if includes line (js "(") then (braceCount + 1)%Z else braceCount in
        let braceCount := if includes line (js ")") then (braceCount - 1)%Z else braceCount in
        parenLoop rest' (S i) braceCount (content ++ nl :: line)
      else (content, i)
  end.

Definition extractImportBlock (lines : list str) (startIndex : nat) : option block :=
  content ← lines !! startIndex;
  if includes content (js "(") then
    let '(content, i) := parenLoop (drop (S startIndex) lines) (S startIndex) 1 content in
    Some {| content := content; endIndex := i - 1 |}
  else Some {| content := content; endIndex := startIndex |}.

(** The [while] loop of [extractConstBlock] and [extractVarBlock], with the
    line it stops at added. *)
Fixpoint groupLoop (rest : list str) (i : nat) (content : str) : str * nat :=
  match rest with
  | [] => (content, i)
  | line :: rest' =>
      if startsWith (trim line) (js ")") then (content ++ nl :: line, i)
      else groupLoop rest' (S i) (content ++ nl :: line)
  end.

Definition extractConstBlock (lines : list str) (startIndex : nat) : option block :=
  content ← lines !! startIndex;
  if includes content (js "(") then
    let '(content, i) := groupLoop (drop (S startIndex) lines) (S startIndex) content in
    Some {| content := content; endIndex := i |}
  else Some {| content := content; endIndex := startIndex |}.

(** [extractVarBlock] has the body of [extractConstBlock]. *)
Definition extractVarBlock (lines : list str) (startIndex : nat) : option block :=
  content ← lines !! startIndex;
  if includes content (js "(") then
    let '(content, i) := groupLoop (drop (S startIndex) lines) (S startIndex) content in
    Some {| content := content; endIndex := i |}
  else Some {| content := content; endIndex := startIndex |}.

(** *** Parameters *)

(** [/^(\w+)\s+(\w+)/] *)
Definition twoWords : regex :=
  seqs [RBol false; RGroup 1 (plus word); plus space; RGroup 2 (plus word)].

(** [/^(\w+)$/] *)
Definition oneWord : regex := seqs [RBol false; RGroup 1 (plus word); REol].

Definition parseParameters (paramsStr : str) : list Parameter_ :=
  if negb (nonempty (trim paramsStr)) then []
  else
    omap
      (fun part =>
         let trimmed := trim part in
         if negb (nonempty trimmed) then None
         else
           match exec twoWords trimmed with
           | Some paramMatch =>
               Some {| param_name := default [] (grp paramMatch 1);
                       param_type := default [] (grp paramMatch 2) |}
           | None =>
               match exec oneWord trimmed with
               | Some typeMatch =>
                   Some {| param_name := []; param_type := default [] (grp typeMatch 1) |}
               | None => None
               end
           end)
      (split "," paramsStr).

(** *** Imports *)

(** The pattern of [parseImportBlock]: the word import, then a path in
    double quotes (group 1) or in backquotes (group 2), or an opening
    parenthesis, or an alias (group 3) and a path in double quotes
    (group 4). *)
Definition importPattern : regex :=
  seqs [l "import"; plus space;
        alts [seqs [chr dq; RGroup 1 (plus (notchr dq)); chr dq];
              seqs [chr bquote; RGroup 2 (plus (notchr bquote)); chr bquote];
              l "(";
              seqs [RGroup 3 (plus (RChar (fun c => negb (Ascii.eqb c dq || Ascii.eqb c bquote
                                                         || is_s c))));
                    plus space; chr dq; RGroup 4 (plus (notchr dq)); chr dq]]].

(** A line that is skipped: empty, or one parenthesis. *)
Definition isBlank (trimmedLine : str) : bool :=
  negb (nonempty trimmedLine) || str_eqb trimmedLine (js "(")
  || str_eqb trimmedLine (js ")").

(** The first of the texts that is defined and not empty. *)
Fixpoint firstTruthy (texts : list (option str)) : option str :=
  match texts with
  | [] => None
  | Some (c :: s) :: _ => Some (c :: s)
  | _ :: rest => firstTruthy rest
  end.

Definition parseImportBlock (b : block) (startLine : nat) : list ImportDeclaration :=
  omap
    (fun line =>
       let trimmedLine := trim line in
       if isBlank trimmedLine then None
       else
         importMatch ← exec importPattern trimmedLine;
         path ← firstTruthy [grp importMatch 1; grp importMatch 2; grp importMatch 4];
         Some {| imp_path := path; imp_line := startLine;
                 imp_codeSnippet := trimmedLine |})
    (split nl (content b)).

(** *** Structs and interfaces *)

(** [/type\s+(\w+)\s+KEYWORD/] *)
Definition typeNamePattern (keyword : string) : regex :=
  seqs [l "type"; plus space; RGroup 1 (plus word); plus space; l keyword].

Definition declaredName (keyword : string) (firstLine : str) : str :=
  match exec (typeNamePattern keyword) firstLine with
  | Some nameMatch => default [] (grp nameMatch 1)
  | None => js "unknown"
  end.

(** The pattern of a struct field: a name (group 1), a type that runs up
    to the first backquote (group 2) and, optionally, white space and a tag
    in backquotes (group 3). *)
Definition fieldPattern : regex :=
  seqs [RBol false; RGroup 1 (plus word); plus space; RGroup 2 (plus (notchr bquote));
        opt (seqs [plus space; chr bquote; RGroup 3 (plus (notchr bquote)); chr bquote])].

(** The lines of a block between the first and the last. *)
Definition innerLines (lines : list str) : list str := removelast (tail lines).

(** One turn of the loop of [parseStruct], on the fields and the pending
    comments. *)
Definition structStep (acc : list StructField * list str) (l0 : str)
    : list StructField * list str :=
  let '(fields, fieldComments) := acc in
  let line := trim l0 in
  if negb (nonempty line) || str_eqb line (js "}") then acc
  else if startsWith line (js "//") then (fields, fieldComments ++ [commentBody line])
  else
    match exec fieldPattern line with
    | Some fieldMatch =>
        (fields ++ [{| field_name := default [] (grp fieldMatch 1);
                       field_type := trim (default [] (grp fieldMatch 2));
                       field_tag := or_else (grp fieldMatch 3) [];
                       field_comments := fieldComments |}],
         [])
    | None => acc
    end.

Definition parseStruct (b : block) (startLine : nat) : StructDeclaration :=
  let lines := split nl (content b) in
  let firstLine := trim (default [] (head lines)) in
  {| struct_name := declaredName "struct" firstLine;
     struct_fields := (fold_left structStep (innerLines lines) ([], [])).1;
     struct_line := startLine;
     struct_codeSnippet := content b;
     struct_comments := extractCommentsForLine (content b) |}.

(** The pattern of an interface method: a name (group 1), the text
    between parentheses (group 2), white space and the rest of the line
    (group 3). *)
Definition methodPattern : regex :=
  seqs [RBol false; RGroup 1 (plus word); l "("; RGroup 2 (RStar (notchr ")")); l ")";
        RStar space; RGroup 3 (RStar dot)].

Definition interfaceStep (acc : list InterfaceMethod * list str) (l0 : str)
    : list InterfaceMethod * list str :=
  let '(methods, methodComments) := acc in
  let line := trim l0 in
  if negb (nonempty line) || str_eqb line (js "}") then acc
  else if startsWith line (js "//") then (methods, methodComments ++ [commentBody line])
  else
    match exec methodPattern line with
    | Some methodMatch =>
        let params := parseParameters (default [] (grp methodMatch 2)) in
        let returnType := or_else (grp methodMatch 3) (js "void") in
        (methods ++ [{| meth_name := default [] (grp methodMatch 1);
                        meth_parameters := params;
                        meth_returnType := trim returnType;
                        meth_comments := methodComments |}],
         [])
    | None => acc
    end.

Definition parseInterface (b : block) (startLine : nat) : InterfaceDeclaration :=
  let lines := split nl (content b) in
  let firstLine := trim (default [] (head lines)) in
  {| iface_name := declaredName "interface" firstLine;
     iface_methods := (fold_left interfaceStep (innerLines lines) ([], [])).1;
     iface_line := startLine;
     iface_codeSnippet := content b;
     iface_comments := extractCommentsForLine (content b) |}.

(** *** Types, constants, variables *)

(** [/type\s+(\w+)\s+(\w+)/] *)
Definition typePattern : regex :=
  seqs [l "type"; plus space; RGroup 1 (plus word); plus space; RGroup 2 (plus word)].

Definition parseTypeDeclaration (line : str) (lineNumber : nat) : option TypeDeclaration :=
  typeMatch ← exec typePattern line;
  Some {| ty_name := default [] (grp typeMatch 1);
          ty_type := default [] (grp typeMatch 2);
          ty_line := lineNumber;
          ty_codeSnippet := line;
          ty_comments := extractCommentsForLine line |}.

(** The pattern of a constant: a name (group 1), an equals sign and the
    rest of the line (group 2), which is not empty. *)
Definition constPattern : regex :=
  seqs [RBol false; RGroup 1 (plus word); RStar space; l "="; RStar space;
        RGroup 2 (plus dot)].

Definition parseConstBlock (b : block) (startLine : nat) : list ConstantDeclaration :=
  omap
    (fun line =>
       let trimmedLine := trim line in
       if isBlank trimmedLine then None
       else if startsWith trimmedLine (js "const") then None
       else
         constMatch ← exec constPattern trimmedLine;
         Some {| const_name := default [] (grp constMatch 1);
                 const_value := trim (default [] (grp constMatch 2));
                 const_line := startLine;
                 const_codeSnippet := trimmedLine;
                 const_comments := extractCommentsForLine trimmedLine |})
    (split nl (content b)).

Definition parseVarBlock (b : block) (startLine : nat) : list VariableDeclaration :=
  omap
    (fun line =>
       let trimmedLine := trim line in
       if isBlank trimmedLine then None
       else if startsWith trimmedLine (js "var") then None
       else
         varMatch ← exec twoWords trimmedLine;
         Some {| var_name := default [] (grp varMatch 1);
                 var_type := default [] (grp varMatch 2);
                 var_line := startLine;
                 var_codeSnippet := trimmedLine;
                 var_comments := extractCommentsForLine trimmedLine |})
    (split nl (content b)).

(** *** Functions *)

(** The pattern of a signature: the word func, optionally a receiver
    between parentheses (group 1), a name (group 2), the text between
    parentheses (group 3), white space and the rest of the line
    (group 4). *)
Definition signaturePattern : regex :=
  seqs [l "func"; plus space;
        opt (seqs [l "("; RGroup 1 (plus (notchr ")")); l ")"; plus space]);
        RGroup 2 (plus word); l "("; RGroup 3 (RStar (notchr ")")); l ")";
        RStar space; RGroup 4 (RStar dot)].

Definition parseFunction (b : block) (startLine : nat) : FunctionDeclaration :=
  let lines := split nl (content b) in
  let firstLine := trim (default [] (head lines)) in
  match exec signaturePattern firstLine with
  | None =>
      {| fn_name := js "unknown"; fn_parameters := []; fn_returnType := js "void";
         fn_line := startLine; fn_codeSnippet := content b; fn_comments := [];
         fn_receiver := Some [] |}
  | Some funcMatch =>
      let receiver := or_else (grp funcMatch 1) [] in
      let name := default [] (grp funcMatch 2) in
      let paramsStr := or_else (grp funcMatch 3) [] in
      let returnType := or_else (grp funcMatch 4) (js "void") in
      {| fn_name := name; fn_parameters := parseParameters paramsStr;
         fn_returnType := trim returnType; fn_line := startLine;
         fn_codeSnippet := content b;
         fn_comments := extractCommentsForLine (content b);
         fn_receiver := Some (trim receiver) |}
  end.

(** *** The loop on the lines of a file *)

Definition withPackage (name : str) (s : CodeStructure) : CodeStructure :=
  {| filePath := filePath s; packageName := name; imports := imports s;
     types := types s; constants := constants s; variables := variables s;
     functions := functions s; structs := structs s; interfaces := interfaces s;
     comments := comments s |}.

Definition withComments (cs : list Comment) (s : CodeStructure) : CodeStructure :=
  {| filePath := filePath s; packageName := packageName s; imports := imports s;
     types := types s; constants := constants s; variables := variables s;
     functions := functions s; structs := structs s; interfaces := interfaces s;
     comments := cs |}.

Definition pushImports (xs : list ImportDeclaration) (s : CodeStructure) : CodeStructure :=
  {| filePath := filePath s; packageName := packageName s; imports := imports s ++ xs;
     types := types s; constants := constants s; variables := variables s;
     functions := functions s; structs := structs s; interfaces := interfaces s;
     comments := comments s |}.

Definition pushTypes (xs : list TypeDeclaration) (s : CodeStructure) : CodeStructure :=
  {| filePath := filePath s; packageName := packageName s; imports := imports s;
     types := types s ++ xs; constants := constants s; variables := variables s;
     functions := functions s; structs := structs s; interfaces := interfaces s;
     comments := comments s |}.

Definition pushConstants (xs : list ConstantDeclaration) (s : CodeStructure)
    : CodeStructure :=
  {| filePath := filePath s; packageName := packageName s; imports := imports s;
     types := types s; constants := constants s ++ xs; variables := variables s;
     functions := functions s; structs := structs s; interfaces := interfaces s;
     comments := comments s |}.

Definition pushVariables (xs : list VariableDeclaration) (s : CodeStructure)
    : CodeStructure :=
  {| filePath := filePath s; packageName := packageName s; imports := imports s;
     types := types s; constants := constants s; variables := variables s ++ xs;
     functions := functions s; structs := structs s; interfaces := interfaces s;
     comments := comments s |}.

Definition pushFunctions (xs : list FunctionDeclaration) (s : CodeStructure)
    : CodeStructure :=
  {| filePath := filePath s; packageName := packageName s; imports := imports s;
     types := types s; constants := constants s; variables := variables s;
     functions := functions s ++ xs; structs := structs s; interfaces := interfaces s;
     comments := comments s |}.

Definition pushStructs (xs : list StructDeclaration) (s : CodeStructure) : CodeStructure :=
  {| filePath := filePath s; packageName := packageName s; imports := imports s;
     types := types s; constants := constants s; variables := variables s;
     functions := functions s; structs := structs s ++ xs; interfaces := interfaces s;
     comments := comments s |}.

Definition pushInterfaces (xs : list InterfaceDeclaration) (s : CodeStructure)
    : CodeStructure :=
  {| filePath := filePath s; packageName := packageName s; imports := imports s;
     types := types s; constants := constants s; variables := variables s;
     functions := functions s; structs := structs s; interfaces := interfaces s ++ xs;
     comments := comments s |}.

(** One turn of the [while] loop of [parseGoContent] at index [i]: the
    structure, and the index the loop variable is left at before it is
    incremented. *)
Definition parseLine (lines : list str) (i : nat) (line : str) (s : CodeStructure)
    : CodeStructure * nat :=
  let trimmedLine := trim line in
  let lineNumber := i + 1 in
  if startsWith trimmedLine (js "import") then
    match extractImportBlock lines i with
    | Some importBlock =>
        (pushImports (parseImportBlock importBlock lineNumber) s, endIndex importBlock)
    | None => (s, i)
    end
  else if startsWith trimmedLine (js "type") && includes trimmedLine (js "struct") then
    match extractTypeBlock lines i with
    | Some structBlock =>
        (pushStructs [parseStruct structBlock lineNumber] s, endIndex structBlock)
    | None => (s, i)
    end
  else if startsWith trimmedLine (js "type") && includes trimmedLine (js "interface") then
    match extractTypeBlock lines i with
    | Some interfaceBlock =>
        (pushInterfaces [parseInterface interfaceBlock lineNumber] s,
         endIndex interfaceBlock)
    | None => (s, i)
    end
  else if startsWith trimmedLine (js "type") then
    match parseTypeDeclaration trimmedLine lineNumber with
    | Some typeDef => (pushTypes [typeDef] s, i)
    | None => (s, i)
    end
  else if startsWith trimmedLine (js "const") then
    match extractConstBlock lines i with
    | Some constBlock =>
        (pushConstants (parseConstBlock constBlock lineNumber) s, endIndex constBlock)
    | None => (s, i)
    end
  else if startsWith trimmedLine (js "var") then
    match extractVarBlock lines i with
    | Some varBlock =>
        (pushVariables (parseVarBlock varBlock lineNumber) s, endIndex varBlock)
    | None => (s, i)
    end
  else if startsWith trimmedLine (js "func") then
    match extractFunctionBlock lines i with
    | Some funcBlock =>
        (pushFunctions [parseFunction funcBlock lineNumber] s, endIndex funcBlock)
    | None => (s, i)
    end
  else (s, i).

(** The [while] loop on the lines from index [i] on; [skip] counts the
    lines up to the index a block ended at. *)
Fixpoint parseLines (lines rest : list str) (i skip : nat) (s : CodeStructure)
    : CodeStructure :=
  match rest with
  | [] => s
  | line :: rest' =>
      match skip with
      | S k => parseLines lines rest' (S i) k s
      | 0 =>
          let '(s', endIndex) := parseLine lines i line s in
          parseLines lines rest' (S i) (endIndex - i) s'
      end
  end.

Definition parseGoContent (content : str) (s : CodeStructure) : CodeStructure :=
  let lines := split nl content in
  let s :=
    match exec GoUtils.packagePattern content with
    | Some packageMatch => withPackage (default [] (grp packageMatch 1)) s
    | None => s
    end in
  parseLines lines lines 0 0 s.

(** The [try] block of [parseFile]; nothing in it throws. *)
Definition parseBody (content : str) (s : CodeStructure) : CodeStructure :=
  parseGoContent content (withComments (extractComments content) s).

(** *** Project symbols *)

Inductive symbolType :=
| SFunction | SStruct | SInterface | SType | SConstant | SVariable.

Global Instance symbolType_eq_dec : EqDecision symbolType.
Proof. solve_decision. Defined.

Definition symbolTypeName (t : symbolType) : str :=
  js match t with
     | SFunction => "function" | SStruct => "struct" | SInterface => "interface"
     | SType => "type" | SConstant => "constant" | SVariable => "variable"
     end.

Record ProjectSymbol := {
  ps_name : str;
  ps_type : symbolType;
  ps_file : str;
  ps_line : nat
}.

Definition symbolsOf (s : CodeStructure) : list ProjectSymbol :=
  map (fun f => {| ps_name := fn_name f; ps_type := SFunction; ps_file := filePath s;
                   ps_line := fn_line f |}) (functions s) ++
  map (fun x => {| ps_name := struct_name x; ps_type := SStruct; ps_file := filePath s;
                   ps_line := struct_line x |}) (structs s) ++
  map (fun x => {| ps_name := iface_name x; ps_type := SInterface; ps_file := filePath s;
                   ps_line := iface_line x |}) (interfaces s) ++
  map (fun x => {| ps_name := ty_name x; ps_type := SType; ps_file := filePath s;
                   ps_line := ty_line x |}) (types s) ++
  map (fun x => {| ps_name := const_name x; ps_type := SConstant; ps_file := filePath s;
                   ps_line := const_line x |}) (constants s) ++
  map (fun x => {| ps_name := var_name x; ps_type := SVariable; ps_file := filePath s;
                   ps_line := var_line x |}) (variables s).

Section Project.
Variable relative : str -> str -> str.

(** [analyzeProjectSymbols]; [None] when a [parseFile] throws. *)
Definition analyzeProjectSymbols (p : project) : option (list ProjectSymbol) :=
  structures ← parseAll relative parseBody p (getGoFilesRecursive p);
  Some (flat_map symbolsOf structures).

(** The key of a symbol in the map of the handler. *)
Definition symbolKey (symbol : ProjectSymbol) : str :=
  symbolTypeName (ps_type symbol) ++ js ":" ++ ps_name symbol.

(** [symbolMap.get(key).push(symbol)], after the key is set to an empty
    array when it is new: the entries keep the order of insertion. *)
Fixpoint addSymbol (symbol : ProjectSymbol) (symbolMap : list (str * list ProjectSymbol))
    : list (str * list ProjectSymbol) :=
  match symbolMap with
  | [] => [(symbolKey symbol, [symbol])]
  | (key, symbols) :: rest =>
      if str_eqb key (symbolKey symbol) then (key, symbols ++ [symbol]) :: rest
      else (key, symbols) :: addSymbol symbol rest
  end.

Definition groupSymbols (symbols : list ProjectSymbol) : list (str * list ProjectSymbol) :=
  fold_left (fun symbolMap symbol => addSymbol symbol symbolMap) symbols [].

Inductive duplicatesResult :=
| Duplicates (duplicates : list (str * list ProjectSymbol))
| DuplicatesFailure.

(** The handler of [ast:getDuplicateSymbols]. *)
Definition getDuplicateSymbols (p : project) : duplicatesResult :=
  match analyzeProjectSymbols p with
  | Some symbols =>
      Duplicates
        (filter (fun entry : str * list ProjectSymbol => 1 < length entry.2)
           (groupSymbols symbols))
  | None => DuplicatesFailure
  end.
End Project.

End ASTParser.

(** ** The handler of [go:findSymbolUsage] (goHandlers.ts) *)

Record SymbolReference := {
  ref_file : str;
  ref_line : nat;
  ref_code : str
}.

(** The [for] loop on the lines of one file, from index [i] on. *)
Fixpoint referencesOfLines (symbolName file : str) (lines : list str) (i : nat)
    : list SymbolReference :=
  match lines with
  | [] => []
  | line :: rest =>
      (if includes line symbolName
       then [{| ref_file := file; ref_line := i + 1; ref_code := trim line |}]
       else [])
      ++ referencesOfLines symbolName file rest (S i)
  end.

(** The [for] loop on the files; [None] when a [readFileSync] throws. *)
Fixpoint collectReferences (p : project) (symbolName : str) (goFiles : list str)
    : option (list SymbolReference) :=
  match goFiles with
  | [] => Some []
  | file :: rest =>
      content ← readFileSync p file;
      more ← collectReferences p symbolName rest;
      Some (referencesOfLines symbolName (relativeTo (projectPath p) file)
              (split nl content) 0 ++ more)
  end.

(** The handler: its [catch] returns the empty array. *)
Definition findSymbolUsage (p : project) (symbolName : str) : list SymbolReference :=
  default [] (collectReferences p symbolName (getGoFiles p)).
(** ** Auxiliary definitions used in the statements *)

Definition endpoint (r : APIRoute) : str * str := (method r, path r).

(** The same filter, written as a scan that remembers the endpoints seen. *)
Fixpoint firstSeen (seen : list (str * str)) (routes : list APIRoute)
    : list APIRoute :=
  match routes with
  | [] => []
  | r :: rest =>
      if bool_decide (endpoint r ∈ seen) then firstSeen seen rest
      else r :: firstSeen (endpoint r :: seen) rest
  end.

(** The length of the longest prefix inside a character class. *)
Fixpoint run (p : ascii -> bool) (s : str) : nat :=
  match s with
  | c :: s' => if p c then S (run p s') else 0
  | [] => 0
  end.

(** Runs of a class replaced by one text. *)
Fixpoint collapse (p : ascii -> bool) (by_ : str) (inrun : bool) (s : str) : str :=
  match s with
  | [] => []
  | c :: s' =>
      if p c then (if inrun then collapse p by_ true s' else by_ ++ collapse p by_ true s')
      else c :: collapse p by_ false s'
  end.

Definition is_slash : ascii -> bool := Ascii.eqb "/"%char.

Definition ends_slash (s : str) : bool :=
  match last s with
  | Some c => is_slash c
  | None => false
  end.

(** One trailing slash removed. *)
Definition strip1 (s : str) : str := if ends_slash s then removelast s else s.

Definition is_hyphen : ascii -> bool := Ascii.eqb "-"%char.

(** What [replace(/[^\w]/g, hyphen)] does to one character. *)
Definition hyphenate (c : ascii) : str := if negb (is_w c) then js "-" else [c].

Definition squeeze : bool -> str -> str := collapse is_hyphen (js "-").




(** The directories the discovery of apiFlowUtils.ts does not enter. *)
Definition skipped (name : str) : bool :=
  startsWith name (js ".") || str_eqb name (js "vendor")
  || str_eqb name (js "node_modules").

Definition is_go_source (name : str) : bool :=
  endsWith name (js ".go") && negb (endsWith name (js "_test.go")).

(** [listed_item dir item path]: [path] is a Go source file, not a test
    file, at or below [item] of directory [dir], reached through listable
    directories that are not skipped. *)
Inductive listed_item : str -> entry -> str -> Prop :=
| listed_file dir name content :
    is_go_source name = true ->
    listed_item dir (File name content) (path_join dir name)
| listed_dir dir name items item path :
    skipped name = false ->
    item ∈ items ->
    listed_item (path_join dir name) item path ->
    listed_item dir (Dir name true items) path.

(** Induction on directory entries, with the hypothesis on every item of a
    directory. *)
Fixpoint entry_nested_ind (P : entry -> Prop)
    (Hfile : forall name content, P (File name content))
    (Hdir : forall name listable items, Forall P items -> P (Dir name listable items))
    (Hother : forall name, P (Other name))
    (e : entry) : P e :=
  match e with
  | File name content => Hfile name content
  | Dir name listable items =>
      Hdir name listable items
        ((fix all (l : list entry) : Forall P l :=
            match l with
            | [] => @List.Forall_nil _ P
            | x :: l' => @List.Forall_cons _ P x l' (entry_nested_ind P Hfile Hdir Hother x) (all l')
            end) items)
  | Other name => Hother name
  end.












(** The names [isBuiltinOrKeyword] lists one by one, and the four package
    prefixes it names. *)
Definition listed_deny (name : str) : bool :=
  bool_decide (name ∈ GoUtils.builtins)
  || startsWith name (js "fmt.")
  || startsWith name (js "log.")
  || startsWith name (js "strconv.")
  || startsWith name (js "strings.").

(** The function a line is in, for [extractFunctionCalls]: the name on the
    last line before index [j] that opens a function, or [current] when
    there is none. *)
Definition enclosingFunction (current : str) (lines : list str) (j : nat) : str :=
  fold_left
    (fun current line =>
       match exec GoUtils.funcLine line with
       | Some funcMatch => default [] (grp funcMatch 1)
       | None => current
       end)
    (take j lines) current.

(** The call edge [extractFunctionCalls] builds. *)
Definition callEdge (currentFunction filePath : str) (lineNumber : nat)
    (calledFunc packageName : str) : GoUtils.FunctionCall :=
  {| GoUtils.callerFunc := currentFunction; GoUtils.callerFile := filePath;
     GoUtils.callerLine := lineNumber; GoUtils.calledFunc := calledFunc;
     GoUtils.calledFile := None; GoUtils.calledLine := None;
     GoUtils.package := packageName |}.

(** The name and the kind of a node: what the trace looks a node up by. *)
Definition nodeKey (n : Flow.DataFlowNode) : str * Flow.nodeType :=
  (Flow.node_name n, Flow.node_type n).

(** How many of the keys have no node yet. *)
Definition missing (keys : list (str * Flow.nodeType)) (ns : list Flow.DataFlowNode)
    : nat :=
  length (filter (fun k => k ∉ nodeKey <$> ns) keys).

(** Every edge joins two nodes of the list. *)
Definition closed_edges (ns : list Flow.DataFlowNode) (es : list Flow.DataFlowEdge)
    : Prop :=
  forall e, e ∈ es ->
            Flow.source e ∈ Flow.node_id <$> ns /\ Flow.target e ∈ Flow.node_id <$> ns.


(** The invariant of the trace: the edges join nodes of the list, and no
    two nodes have the same name and kind. *)
Definition well_formed (st : Flow.traceState) : Prop :=
  closed_edges (Flow.nodes st) (Flow.edges st) /\
  NoDup (nodeKey <$> Flow.nodes st).

(** The groups every match of a pattern defines: those outside of
    alternatives and repetitions. *)
Fixpoint sure_groups (r : regex) : list nat :=
  match r with
  | RSeq r1 r2 => sure_groups r1 ++ sure_groups r2
  | RGroup n r1 => n :: sure_groups r1
  | _ => []
  end.
(** ** Concrete projects *)

Module Examples.

(** The registration of the end-to-end scenario, with the router variable
    named [mux]. *)
Definition users_line : str :=
  js "mux.HandleFunc(" ++ quoted (js "/users") ++ js ", GetUsersHandler).Methods(" ++
  quoted (js "GET") ++ js ")".

(** The same registration on a router variable named [router]. *)
Definition router_line : str :=
  js "router.HandleFunc(" ++ quoted (js "/users") ++ js ", GetUsersHandler).Methods(" ++
  quoted (js "GET") ++ js ")".

(** The same endpoint written with another spelling of path and method. *)
Definition users_line_respelt : str :=
  js "mux.HandleFunc(" ++ quoted (js "users/") ++ js ", h.GetUsersHandler).Methods(" ++
  quoted (js "get") ++ js ")".

Definition single_file (content : str) : project :=
  {| projectPath := js "/proj"; rootListable := true;
     rootItems := [File (js "main.go") (Some content)] |}.


(** Two spellings of one endpoint in one file. *)
Definition two_registrations : project :=
  single_file (users_line ++ [nl] ++ users_line_respelt).


(** A project with a dependency directory and a file that cannot be read. *)
Definition with_node_modules : project :=
  {| projectPath := js "/proj"; rootListable := true;
     rootItems :=
       [ Dir (js "node_modules") true
           [ Dir (js "dep") true [File (js "dep.go") (Some (js "package dep"))] ];
         Dir (js "vendor") true [File (js "v.go") (Some (js "package v"))];
         Dir (js ".git") true [File (js "hook.go") (Some (js "package hook"))];
         File (js "main.go") (Some (js "package main"));
         File (js "main_test.go") (Some (js "package main"));
         File (js "README.md") (Some (js "docs")) ] |}.

Definition with_unreadable : project :=
  {| projectPath := js "/proj"; rootListable := true;
     rootItems :=
       [ File (js "a.go") (Some (js "package main"));
         File (js "b.go") None;
         File (js "c.go") (Some (js "package main")) ] |}.






(** A file that declares a variable [Foo] before the struct [Foo]. *)
Definition var_then_struct : project :=
  single_file (js "package m" ++ nl :: js "var Foo = NewFoo()" ++ nl :: nl ::
               js "type Foo struct {" ++ nl :: js "}").

(** The same declarations, the struct first. *)
Definition struct_then_var : project :=
  single_file (js "package m" ++ nl :: js "type Foo struct {" ++ nl :: js "}" ++
               nl :: nl :: js "var Foo = NewFoo()").

(** A handler that calls [A]; [A] and [B] call each other. *)
Definition cycle_project : project :=
  single_file
    (join [nl]
       (map js
          ["package main"; "";
           "func Handle(w http.ResponseWriter, r *http.Request) {"; "  A(r)"; "}"; "";
           "func A(r *http.Request) {"; "  B(r)"; "}"; "";
           "func B(r *http.Request) {"; "  A(r)"; "}"]%string)).





End Examples.

(** ** Further definitions used in the statements *)

(** The characters of an identifier: word characters and the hyphen. *)
Definition id_char (c : ascii) : bool := is_w c || is_hyphen c.

Section ResolutionDefinitions.
Import GoUtils.

(** The key of a function with its package, as [resolveCallTargets] builds
    it. *)
Definition qualifiedName (f : FunctionDef) : str := fd_package f ++ js "." ++ fd_name f.

(** A function is stored under its qualified name and under its name. *)
Definition provides (key : str) (f : FunctionDef) : Prop :=
  qualifiedName f = key \/ fd_name f = key.

Global Instance provides_dec (key : str) (f : FunctionDef) : Decision (provides key f).
Proof. unfold provides. apply _. Defined.

(** A call with the file and the line of a function as its target. *)
Definition withTarget (c : FunctionCall) (f : FunctionDef) : FunctionCall :=
  {| callerFunc := callerFunc c; callerFile := callerFile c;
     callerLine := callerLine c; calledFunc := calledFunc c;
     calledFile := Some (fd_file f); calledLine := Some (fd_line f);
     package := package c |}.

(** A text without a dot. *)
Definition undotted (s : str) : Prop := "."%char ∉ s.

(** What resolution makes of a call: the target is the last function of the
    package and the name of the call, or else the last function of that
    name. *)
Definition resolved (functions : list FunctionDef) (c : FunctionCall) : FunctionCall :=
  match last (filter (fun f => fd_package f = package c /\ fd_name f = calledFunc c)
                functions) with
  | Some f => withTarget c f
  | None =>
      match last (filter (fun f => fd_name f = calledFunc c) functions) with
      | Some f => withTarget c f
      | None => c
      end
  end.
End ResolutionDefinitions.

(** Every character a pattern can consume is in the class [P]. *)
Fixpoint within (P : ascii -> bool) (r : regex) : Prop :=
  match r with
  | RChar q => forall c, q c = true -> P c = true
  | REps | RBol _ | REol => True
  | RSeq r1 r2 | RAlt r1 r2 => within P r1 /\ within P r2
  | RStar r1 | RGroup _ r1 => within P r1
  end.

(** A lower bound on the length of a match. *)
Fixpoint min_len (r : regex) : nat :=
  match r with
  | RChar _ => 1
  | RSeq r1 r2 => min_len r1 + min_len r2
  | RAlt r1 r2 => Nat.min (min_len r1) (min_len r2)
  | RGroup _ r1 => min_len r1
  | _ => 0
  end.

(** What is known of a text matched by [r]. *)
Definition matched_by (r : regex) (t : str) : Prop :=
  (forall P, within P r -> forallb P t = true) /\ min_len r <= length t.

(** [G n] holds of every text group [n] of the pattern can capture. *)
Fixpoint groups_ok (G : nat -> str -> Prop) (r : regex) : Prop :=
  match r with
  | RGroup n r1 => (forall t, matched_by r1 t -> G n t) /\ groups_ok G r1
  | RSeq r1 r2 | RAlt r1 r2 => groups_ok G r1 /\ groups_ok G r2
  | RStar r1 => groups_ok G r1
  | _ => True
  end.

(** [G] holds of every capture of the list. *)
Definition caps_ok (G : nat -> str -> Prop) (caps : captures) : Prop :=
  Forall (fun c : nat * str => G c.1 c.2) caps.

Section CallGraphsDefinitions.
Import GoUtils.

(** A non-empty text of word characters. *)
Definition identifier (s : str) : Prop := s <> [] /\ forallb is_w s = true.

(** The names and the packages of a call graph are identifiers. *)
Definition graph_of_identifiers (g : CallGraph) : Prop :=
  Forall (fun f => identifier (fd_name f) /\ identifier (fd_package f)) (functions g) /\
  Forall (fun c => identifier (calledFunc c) /\ identifier (package c)) (calls g).
End CallGraphsDefinitions.

Section NodeIdentifiersDefinitions.
Import Flow.

(** The identifier the trace gives the node it creates at position [i]. *)
Definition callee_id (i : nat) (id : str) : Prop :=
  exists t name,
    t ∈ calleeTypes /\ id = typeName t ++ js "-" ++ name ++ js "-" ++ of_nat i.

(** From the third node on, the identifier of a node ends in its position. *)
Definition positional (ns : list DataFlowNode) : Prop :=
  forall i n, ns !! i = Some n -> 2 <= i -> callee_id i (node_id n).

(** The node the trace creates for a call when [ns] are the nodes so far. *)
Definition createdNode {host : RegExpHost} (p : project) (ns : list DataFlowNode)
    (call : Call) : DataFlowNode :=
  let nodeType := determineNodeType (functionName call) (context call) in
  createNodeForFunction p call nodeType
    (typeName nodeType ++ js "-" ++ functionName call ++ js "-" ++ of_nat (length ns)).

(** Every run of a tracing function keeps a property of the list of
    nodes. *)
Definition preserves (P : list DataFlowNode -> Prop)
    (recurse : str -> str -> str -> traceState -> option traceState) : Prop :=
  forall file name src st st',
    recurse file name src st = Some st' -> P (nodes st) -> P (nodes st').
End NodeIdentifiersDefinitions.

Section CountsDefinitions.
Import AST.

(** The sum of a measure over the structures. *)
Definition total (f : CodeStructure -> nat) (structures : list CodeStructure) : nat :=
  sum_list (f <$> structures).
End CountsDefinitions.

(** A route path as a sequence of plain texts and parameters in braces. *)
Inductive pathPiece :=
| PText (s : str)
| PParam (name : str).

(** The text of a piece, and of a path. *)
Definition renderPiece (piece : pathPiece) : str :=
  match piece with
  | PText s => s
  | PParam name => js "{" ++ name ++ js "}"
  end.

Definition renderPath (pieces : list pathPiece) : str := flat_map renderPiece pieces.

(** A text holds no opening brace; the name of a parameter is not empty and
    holds no brace. *)
Definition valid_piece (piece : pathPiece) : Prop :=
  match piece with
  | PText s => "{"%char ∉ s
  | PParam name => name <> [] /\ ("{"%char ∉ name) /\ ("}"%char ∉ name)
  end.

(** The names of the parameters of a path, in their order. *)
Definition paramNames (pieces : list pathPiece) : list str :=
  omap (fun piece => match piece with PParam name => Some name | PText _ => None end)
       pieces.

(** The pattern of [extractRouteParameters]: a name in braces. *)
Definition paramPattern : regex :=
  seqs [l "{"; RGroup 1 (plus (notchr "}")); l "}"].

Global Instance valid_piece_dec (piece : pathPiece) : Decision (valid_piece piece).
Proof. destruct piece; apply _. Defined.

(** [found_item fileName dir item path]: [path] is a file named [fileName]
    at or below [item] of directory [dir], reached through listable
    directories that are not skipped. *)
Inductive found_item (fileName : str) : str -> entry -> str -> Prop :=
| found_file dir content :
    found_item fileName dir (File fileName content) (path_join dir fileName)
| found_dir dir name items item path :
    skipped name = false ->
    item ∈ items ->
    found_item fileName (path_join dir name) item path ->
    found_item fileName dir (Dir name true items) path.

Section CommentsDefinitions.
Import AST ASTParser.

(** The comment of a line that starts with two slashes. *)
Definition lineComment (i : nat) (l0 : str) : option Comment :=
  if startsWith (trim l0) (js "//") then
    Some {| comment_text := commentBody (trim l0); comment_line := i + 1;
            comment_type := LineComment |}
  else None.
End CommentsDefinitions.

Section ProjectSymbolsDefinitions.
Import AST ASTParser.

(** The keyword that starts the line of a symbol of each kind. *)
Definition keywordOf (t : symbolType) : str :=
  js match t with
     | SFunction => "func"
     | SStruct | SInterface | SType => "type"
     | SConstant => "const"
     | SVariable => "var"
     end.

(** The kinds that are only declared inside a parenthesised block. *)
Definition isGrouped (t : symbolType) : bool :=
  match t with
  | SConstant | SVariable => true
  | _ => false
  end.

(** [declared_at lines t n]: line [n] of the text starts, after white space,
    with the keyword of the kind [t], and for a constant or a variable it
    holds an opening parenthesis. *)
Definition declared_at (lines : list str) (t : symbolType) (lineNumber : nat) : Prop :=
  exists i line,
    lineNumber = i + 1 /\ lines !! i = Some line /\
    startsWith (trim line) (keywordOf t) = true /\
    (isGrouped t = true -> includes line (js "(") = true).

(** A symbol with a name of word characters on a line of its keyword. *)
Definition sound_symbol (lines : list str) (symbol : ProjectSymbol) : Prop :=
  identifier (ps_name symbol) /\ declared_at lines (ps_type symbol) (ps_line symbol).

(** A line holds no newline. *)
Definition nl_free (l0 : str) : Prop := nl ∉ l0.
End ProjectSymbolsDefinitions.

Section ImportsDefinitions.
Import AST ASTParser.

(** Line [n] of the text starts, after white space, with the word import. *)
Definition import_line (lines : list str) (lineNumber : nat) : Prop :=
  exists i line,
    lineNumber = i + 1 /\ lines !! i = Some line /\
    startsWith (trim line) (js "import") = true.

(** An import with a path, a snippet that holds the word import, and a
    line that starts with it. *)
Definition sound_import (lines : list str) (x : ImportDeclaration) : Prop :=
  imp_path x <> [] /\
  includes (imp_codeSnippet x) (js "import") = true /\
  import_line lines (imp_line x).
End ImportsDefinitions.

Section DuplicateSymbolsDefinitions.
Import AST ASTParser.

(** The symbols of a key, in the order they were reported. *)
Definition symbolsOfKey (key : str) (symbols : list ProjectSymbol) : list ProjectSymbol :=
  filter (fun symbol => symbolKey symbol = key) symbols.
End DuplicateSymbolsDefinitions.

(** *** Words *)

(** A character that is not white space. *)
Definition nonspace (c : ascii) : bool := negb (is_s c).

(** The longest prefix without white space. *)
Definition firstWord (t : str) : str := take (run nonspace t) t.

(** No white space at either end. *)
Definition trimmed (t : str) : Prop := trim t = t.

(** The class of the dot of a pattern: not a line terminator. *)
Definition is_dot (c : ascii) : bool := negb (Ascii.eqb c nl || Ascii.eqb c cr).

(** ** Further concrete inputs *)

Module MoreExamples.

(** Three packages that each declare a function [Run]; [Main] of the
    package [b] calls [Run] and [Stop]. *)
Definition three_packages : project :=
  {| projectPath := js "/proj"; rootListable := true;
     rootItems :=
       [ Dir (js "a") true
           [File (js "a.go")
              (Some (join [nl] (map js ["package a"; "func Run() {"; "}"]%string)))];
         Dir (js "b") true
           [File (js "b.go")
              (Some (join [nl] (map js ["package b"; "func Run() {"; "}";
                                        "func Main() {"; "  Run()"; "  Stop()"; "}"]%string)))];
         Dir (js "c") true
           [File (js "c.go")
              (Some (join [nl] (map js ["package c"; "func Run() {"; "}";
                                        "func Stop() {"; "}"]%string)))] ] |}.

(** A call through two selectors. *)
Definition selector_call : Flow.Call :=
  {| Flow.functionName := js "s.store.Load";
     Flow.context := js "  user := s.store.Load(id)";
     Flow.call_line := 4;
     Flow.call_transformation := None |}.

Definition empty_trace : Flow.traceState :=
  {| Flow.nodes := []; Flow.edges := []; Flow.processedFunctions := ∅ |}.

(** The path /users/{id}/posts/{postId}. *)
Definition user_post_path : list pathPiece :=
  [PText (js "/users/"); PParam (js "id"); PText (js "/posts/"); PParam (js "postId")].

(** A function with its brace on the first line. *)
Definition brace_function : AST.block :=
  {| AST.content := js "func f() string {" ++ nl :: js "}"; AST.endIndex := 1 |}.

End MoreExamples.

(** *** Groups that every match defines *)

Section SureGroups.

Lemma search_unfold (r : regex) (pos : nat) (prev : option ascii) (s : str) :
  search r pos prev s =
  match match_here r prev s with
  | Some (len, caps) =>
      Some {| m_index := pos; m_text := take len s; m_caps := caps |}
  | None =>
      match s with
      | [] => None
      | c :: s' => search r (S pos) (Some c) s'
      end
  end.
Proof. destruct s; reflexivity. Qed.

Lemma group_cons (caps : captures) (n m : nat) (t : str) :
  is_Some (group caps m) \/ m = n -> is_Some (group ((n, t) :: caps) m).
Proof.
  intros Hm. cbn [group]. destruct (Nat.eqb_spec n m) as [->|Hne]; [by eexists|].
  destruct Hm as [Hm | ->]; [assumption | contradiction].
Qed.

(** A successful match has called its continuation, with captures that
    define every group defined before and every sure group of the
    pattern. *)
Lemma rmatch_defines {R} (r : regex) :
  forall (pos : nat) (prev : option ascii) (s : str) (caps : captures)
         (k : @cont R) (x : R),
    rmatch r pos prev s caps k = Some x ->
    exists pos' prev' s' caps',
      k pos' prev' s' caps' = Some x /\
      forall n, is_Some (group caps n) \/ n ∈ sure_groups r ->
                is_Some (group caps' n).
Proof.
  induction r as [c | | r1 IH1 r2 IH2 | r1 IH1 r2 IH2 | r1 IH1 | g r1 IH1 | ml |];
    intros pos prev s caps k x Hx.
  - cbn [rmatch] in Hx. destruct s as [|c0 s]; [discriminate|].
    destruct (c c0); [|discriminate].
    eexists _, _, _, caps. split; [exact Hx|].
    intros n [Hn | Hn]; [assumption | inversion Hn].
  - eexists _, _, _, caps. split; [exact Hx|].
    intros n [Hn | Hn]; [assumption | inversion Hn].
  - cbn [rmatch] in Hx.
    apply IH1 in Hx as (pos1 & prev1 & s1 & caps1 & Hx & Hc1).
    apply IH2 in Hx as (pos2 & prev2 & s2 & caps2 & Hx & Hc2).
    eexists _, _, _, caps2. split; [exact Hx|].
    intros n [Hn | Hn]; apply Hc2.
    + left. apply Hc1. by left.
    + cbn [sure_groups] in Hn. apply elem_of_app in Hn as [Hn | Hn].
      * left. apply Hc1. by right.
      * by right.
  - cbn [rmatch] in Hx. destruct (rmatch r1 pos prev s caps k) as [y|] eqn:H1.
    + injection Hx as ->.
      apply IH1 in H1 as (pos1 & prev1 & s1 & caps1 & Hx & Hc1).
      eexists _, _, _, caps1. split; [exact Hx|].
      intros n [Hn | Hn]; [apply Hc1; by left | inversion Hn].
    + apply IH2 in Hx as (pos2 & prev2 & s2 & caps2 & Hx & Hc2).
      eexists _, _, _, caps2. split; [exact Hx|].
      intros n [Hn | Hn]; [apply Hc2; by left | inversion Hn].
  - cbn [rmatch] in Hx. set (fuel := length s) in Hx. clearbody fuel.
    revert pos prev s caps Hx.
    induction fuel as [|fuel IHf]; intros pos prev s caps Hx.
    + eexists _, _, _, caps. split; [exact Hx|].
      intros n [Hn | Hn]; [assumption | inversion Hn].
    + match type of Hx with
      | match ?inner with Some _ => _ | None => _ end = _ =>
          destruct inner as [y|] eqn:Hinner
      end.
      * injection Hx as ->.
        apply IH1 in Hinner as (pos1 & prev1 & s1 & caps1 & Hx & Hc1).
        destruct (pos1 =? pos); [discriminate|].
        apply IHf in Hx as (pos2 & prev2 & s2 & caps2 & Hx & Hc2).
        eexists _, _, _, caps2. split; [exact Hx|].
        intros n [Hn | Hn]; [|inversion Hn].
        apply Hc2. left. apply Hc1. by left.
      * eexists _, _, _, caps. split; [exact Hx|].
        intros n [Hn | Hn]; [assumption | inversion Hn].
  - cbn [rmatch] in Hx.
    apply IH1 in Hx as (pos1 & prev1 & s1 & caps1 & Hx & Hc1).
    eexists _, _, _, _. split; [exact Hx|].
    intros n [Hn | Hn]; apply group_cons.
    + left. apply Hc1. by left.
    + cbn [sure_groups] in Hn. apply elem_of_cons in Hn as [-> | Hn].
      * by right.
      * left. apply Hc1. by right.
  - cbn [rmatch] in Hx. destruct prev as [c|].
    + destruct (ml && _); [|discriminate].
      eexists _, _, _, caps. split; [exact Hx|].
      intros n [Hn | Hn]; [assumption | inversion Hn].
    + eexists _, _, _, caps. split; [exact Hx|].
      intros n [Hn | Hn]; [assumption | inversion Hn].
  - cbn [rmatch] in Hx. destruct s; [|discriminate].
    eexists _, _, _, caps. split; [exact Hx|].
    intros n [Hn | Hn]; [assumption | inversion Hn].
Qed.

Lemma match_here_defines (r : regex) (prev : option ascii) (s : str) (len : nat)
    (caps : captures) (n : nat) :
  match_here r prev s = Some (len, caps) -> n ∈ sure_groups r ->
  is_Some (group caps n).
Proof.
  unfold match_here. intros Hm Hn.
  apply rmatch_defines in Hm as (pos' & prev' & s' & caps' & Hk & Hc).
  injection Hk as _ <-. apply Hc. by right.
Qed.

Lemma exec_defines (r : regex) (s : str) (m : rmatched) (n : nat) :
  exec r s = Some m -> n ∈ sure_groups r -> is_Some (grp m n).
Proof.
  unfold exec. generalize 0 (@None ascii).
  induction s as [|c s IH]; intros pos prev Hm Hn; rewrite search_unfold in Hm.
  - destruct (match_here r prev []) as [[len caps]|] eqn:Hh; [|discriminate].
    injection Hm as <-. by eapply match_here_defines.
  - destruct (match_here r prev (c :: s)) as [[len caps]|] eqn:Hh.
    + injection Hm as <-. by eapply match_here_defines.
    + by eapply IH.
Qed.

Lemma matchAll_defines (r : regex) (s : str) (m : rmatched) (n : nat) :
  m ∈ matchAll r s -> n ∈ sure_groups r -> is_Some (grp m n).
Proof.
  unfold matchAll. generalize 0 at 1. generalize 0 (@None ascii).
  induction s as [|c s IH]; intros pos prev skip Hm Hn; [inversion Hm|].
  cbn [matches_from] in Hm. destruct skip as [|skip]; [|by eapply IH].
  destruct (match_here r prev (c :: s)) as [[[|len] caps]|] eqn:Hh;
    try by eapply IH.
  apply elem_of_cons in Hm as [-> | Hm]; [|by eapply IH].
  by eapply match_here_defines.
Qed.

End SureGroups.

(** Every host compiles a pattern on a name of word characters to the
    pattern with the name taken literally. *)
Lemma compile_word {host : RegExpHost} (pattern : str -> regex) (name : str) :
  forallb is_w name = true ->
  compile pattern name = Returned (exec (pattern name)).
Proof. intros Hw. unfold compile. rewrite new_RegExp_word by assumption. reflexivity. Qed.
(** *** Deduplication keeps the first route of every endpoint *)

Section Dedup.

Lemma sameEndpoint_spec (a b : APIRoute) :
  sameEndpoint a b = true <-> endpoint b = endpoint a.
Proof.
  unfold sameEndpoint, endpoint, str_eqb.
  rewrite andb_true_iff, !bool_decide_eq_true. split.
  - intros [-> ->]. reflexivity.
  - intros [= -> ->]. split; reflexivity.
Qed.

Lemma firstSeen_ext (seen1 seen2 : list (str * str)) (routes : list APIRoute) :
  (forall k, k ∈ seen1 <-> k ∈ seen2) ->
  firstSeen seen1 routes = firstSeen seen2 routes.
Proof.
  revert seen1 seen2.
  induction routes as [|y routes IH]; intros seen1 seen2 Heq; [reflexivity|]. simpl.
  rewrite (bool_decide_ext _ _ (Heq (endpoint y))).
  destruct (bool_decide (endpoint y ∈ seen2)); [auto|].
  f_equal. apply IH. intros k. rewrite !elem_of_cons, Heq. reflexivity.
Qed.

Lemma findIndex_app_fresh {A} (f : A -> bool) (pre post : list A) :
  Forall (fun x => f x = false) pre ->
  findIndex f (pre ++ post) = (fun i => length pre + i) <$> findIndex f post.
Proof.
  induction 1 as [|x pre Hx _ IH]; simpl.
  - destruct (findIndex f post); reflexivity.
  - rewrite Hx, IH. destruct (findIndex f post); reflexivity.
Qed.

Lemma findIndex_app_hit {A} (f : A -> bool) (pre post : list A) (x : A) :
  x ∈ pre -> f x = true ->
  exists i, findIndex f (pre ++ post) = Some i /\ i < length pre.
Proof.
  induction pre as [|y pre IH]; intros Hin Hf.
  - inversion Hin.
  - simpl. destruct (f y) eqn:Hy.
    + exists 0. split; [reflexivity | lia].
    + apply elem_of_cons in Hin as [-> | Hin]; [congruence|].
      destruct (IH Hin Hf) as (i & -> & Hi). exists (S i). split; [reflexivity | lia].
Qed.

Lemma filter_index_firstSeen (routes pre post : list APIRoute) :
  routes = pre ++ post ->
  filter_index
    (fun route index =>
       bool_decide (Some index = findIndex (sameEndpoint route) routes))
    (length pre) post
  = firstSeen (map endpoint pre) post.
Proof.
  revert pre. induction post as [|r post IH]; intros pre ->; [reflexivity|].
  simpl.
  assert (Hnext : filter_index
    (fun route index =>
       bool_decide (Some index = findIndex (sameEndpoint route) (pre ++ r :: post)))
    (S (length pre)) post = firstSeen (map endpoint (pre ++ [r])) post).
  { specialize (IH (pre ++ [r])). rewrite length_app in IH. simpl in IH.
    replace (length pre + 1) with (S (length pre)) in IH by lia.
    rewrite <- IH; [reflexivity|]. rewrite <- app_assoc. reflexivity. }
  destruct (bool_decide (endpoint r ∈ map endpoint pre)) eqn:Hseen.
  - apply bool_decide_eq_true in Hseen.
    apply list_elem_of_fmap in Hseen as (x & Hx & Hin).
    destruct (findIndex_app_hit (sameEndpoint r) pre (r :: post) x Hin) as (i & Hi & Hlt).
    { apply sameEndpoint_spec. congruence. }
    rewrite Hi. rewrite bool_decide_eq_false_2 by (intros [= Heq]; lia).
    rewrite Hnext. apply firstSeen_ext. intros k. rewrite fmap_app, elem_of_app. simpl.
    rewrite list_elem_of_singleton. split; [|tauto].
    intros [?| ->]; [assumption|].
    apply list_elem_of_fmap. eauto.
  - apply bool_decide_eq_false in Hseen.
    rewrite findIndex_app_fresh.
    + simpl. replace (sameEndpoint r r) with true
        by (symmetry; apply sameEndpoint_spec; reflexivity).
      simpl. rewrite Nat.add_0_r, bool_decide_eq_true_2 by reflexivity.
      f_equal. rewrite Hnext. apply firstSeen_ext. intros k. rewrite fmap_app, elem_of_app, elem_of_cons. simpl.
      rewrite list_elem_of_singleton. tauto.
    + apply Forall_forall. intros x Hin.
      destruct (sameEndpoint r x) eqn:Hs; [|reflexivity].
      apply sameEndpoint_spec in Hs. exfalso. apply Hseen.
      apply list_elem_of_fmap. eauto.
Qed.

Lemma uniqueRoutes_firstSeen (routes : list APIRoute) :
  uniqueRoutes routes = firstSeen [] routes.
Proof. exact (filter_index_firstSeen routes [] routes eq_refl). Qed.

Lemma firstSeen_elem (seen : list (str * str)) (routes : list APIRoute) (r : APIRoute) :
  r ∈ firstSeen seen routes <->
  exists pre post, routes = pre ++ (r :: post) /\ (endpoint r ∉ seen) /\
                   forall x, x ∈ pre -> endpoint x <> endpoint r.
Proof.
  revert seen. induction routes as [|y routes IH]; intros seen; simpl.
  - split; [intros H; inversion H|].
    intros (pre & post & Heq & _). destruct pre; discriminate.
  - case_bool_decide as Hy.
    + rewrite IH. split.
      * intros (pre & post & -> & Hr & Hpre). exists (y :: pre), post.
        split; [reflexivity|]. split; [assumption|].
        intros x [-> | Hx]%elem_of_cons; [congruence | auto].
      * intros (pre & post & Heq & Hr & Hpre). destruct pre as [|z pre].
        -- injection Heq as -> ->. contradiction.
        -- injection Heq as <- ->. exists pre, post. split; [reflexivity|].
           split; [assumption|]. intros x Hx. apply Hpre. by right.
    + rewrite elem_of_cons, IH. split.
      * intros [-> | (pre & post & -> & Hr & Hpre)].
        -- exists [], routes. split; [reflexivity|]. split; [assumption|].
           intros x Hx. inversion Hx.
        -- exists (y :: pre), post. split; [reflexivity|].
           apply not_elem_of_cons in Hr as [Hne Hr]. split; [assumption|].
           intros x [-> | Hx]%elem_of_cons; [congruence | auto].
      * intros (pre & post & Heq & Hr & Hpre). destruct pre as [|z pre].
        -- injection Heq as -> ->. by left.
        -- injection Heq as <- ->. right. exists pre, post. split; [reflexivity|].
           split.
           ++ apply not_elem_of_cons. split; [|assumption].
              intros Heq. apply (Hpre y); [by left | by symmetry].
           ++ intros x Hx. apply Hpre. by right.
Qed.

Lemma firstSeen_NoDup (seen : list (str * str)) (routes : list APIRoute) :
  NoDup (endpoint <$> firstSeen seen routes).
Proof.
  revert seen. induction routes as [|y routes IH]; intros seen; simpl.
  - constructor.
  - case_bool_decide as Hy; [apply IH|].
    rewrite fmap_cons. constructor; [|apply IH].
    intros (r & Hr & Hin)%list_elem_of_fmap.
    apply firstSeen_elem in Hin as (_ & _ & _ & Hnot & _).
    apply Hnot. rewrite Hr. by left.
Qed.

Lemma firstSeen_covers (seen : list (str * str)) (routes : list APIRoute) (x : APIRoute) :
  x ∈ routes -> endpoint x ∉ seen ->
  exists r, r ∈ firstSeen seen routes /\ endpoint r = endpoint x.
Proof.
  revert seen. induction routes as [|y routes IH]; intros seen Hin Hx.
  - inversion Hin.
  - simpl. destruct (decide (endpoint y = endpoint x)) as [Heq | Hne].
    + rewrite bool_decide_eq_false_2 by congruence.
      exists y. split; [by left | assumption].
    + apply elem_of_cons in Hin as [-> | Hin]; [congruence|].
      case_bool_decide.
      * apply IH; assumption.
      * destruct (IH (endpoint y :: seen) Hin) as (r & Hr & Hk).
        { apply not_elem_of_cons. split; [congruence | assumption]. }
        exists r. split; [by right | assumption].
Qed.

End Dedup.

(** *** The patterns of [generateStableRouteId] and [cleanPath] *)

Section RouteIdPatterns.

Lemma run_le (p : ascii -> bool) (s : str) : run p s <= length s.
Proof. induction s as [|c s IH]; simpl; [lia|]. destruct (p c); simpl; lia. Qed.

Lemma succ_eqb_self (q : nat) :
  match q with 0 => false | S m' => q =? m' end = false.
Proof.
  destruct q as [|m]; [reflexivity|]. apply Nat.eqb_neq. lia.
Qed.

Lemma star_class_final (p : ascii -> bool) (s : str) (pos : nat)
    (prev : option ascii) (caps : captures) :
  rmatch (RStar (RChar p)) pos prev s caps (fun len _ _ caps' => Some (len, caps'))
  = Some (pos + run p s, caps).
Proof.
  simpl. pose proof (run_le p s) as Hle. revert Hle.
  generalize (length s). intros n. revert s pos prev.
  induction n as [|n IH]; intros s pos prev Hle.
  - destruct s as [|c s]; simpl in *.
    + f_equal. f_equal. lia.
    + destruct (p c); simpl in *; [lia|]. f_equal. f_equal. lia.
  - destruct s as [|c s]; simpl.
    + f_equal. f_equal. lia.
    + simpl in Hle. destruct (p c) eqn:Hc.
      * rewrite succ_eqb_self, IH by lia. f_equal. f_equal. lia.
      * f_equal. f_equal. lia.
Qed.

Lemma match_here_class (p : ascii -> bool) (prev : option ascii) (c : ascii) (s : str) :
  match_here (RChar p) prev (c :: s) = if p c then Some (1, []) else None.
Proof. reflexivity. Qed.

Lemma match_here_plus_class (p : ascii -> bool) (prev : option ascii) (s : str) :
  match_here (plus (RChar p)) prev s
  = match run p s with 0 => None | S n => Some (S n, []) end.
Proof.
  unfold match_here, plus.
  change (rmatch (RSeq ?a ?b) ?pos ?pv ?t ?cs ?k)
    with (rmatch a pos pv t cs (fun pos' prev' s' caps' => rmatch b pos' prev' s' caps' k)).
  destruct s as [|c s]; [reflexivity|].
  change (rmatch (RChar p) 0 prev (c :: s) [] ?k)
    with (if p c then k 1 (Some c) s [] else None).
  simpl run. destruct (p c); [|reflexivity].
  rewrite star_class_final. reflexivity.
Qed.

(** A one-character class replaced everywhere: a character-wise map. *)
Lemma replace_all_class (p : ascii -> bool) (by_ s : str) :
  replace_all (RChar p) by_ s = flat_map (fun c => if p c then by_ else [c]) s.
Proof.
  unfold replace_all. generalize (@None ascii).
  induction s as [|c s IH]; intros prev; [reflexivity|].
  simpl replace_from. rewrite match_here_class.
  simpl. destruct (p c); rewrite IH; reflexivity.
Qed.

Lemma replace_from_plus_class (p : ascii -> bool) (by_ s : str) (prev : option ascii) :
  replace_from (plus (RChar p)) by_ (run p s) prev s = collapse p by_ true s /\
  replace_from (plus (RChar p)) by_ 0 prev s = collapse p by_ false s.
Proof.
  revert prev. induction s as [|c s IH]; intros prev; [split; reflexivity|].
  simpl replace_from. rewrite match_here_plus_class. simpl.
  destruct (IH (Some c)) as [IH1 IH0].
  destruct (p c) eqn:Hc.
  - rewrite IH1. split; reflexivity.
  - rewrite IH0. split; reflexivity.
Qed.

Lemma replace_all_plus_class (p : ascii -> bool) (by_ s : str) :
  replace_all (plus (RChar p)) by_ s = collapse p by_ false s.
Proof. apply replace_from_plus_class. Qed.

(** [path.replace(/^\/*/, slash)] *)
Lemma replace_leading_slashes (s : str) :
  replace_first (RSeq (RBol false) (RStar (chr "/"))) (js "/") s
  = "/"%char :: drop (run is_slash s) s.
Proof.
  unfold replace_first, exec. rewrite search_unfold.
  unfold match_here.
  change (rmatch (RSeq (RBol false) ?b) 0 None s [] ?k)
    with (rmatch b 0 None s [] k).
  unfold chr. rewrite star_class_final. simpl m_index. simpl m_text.
  rewrite length_take, Nat.min_l by apply run_le. reflexivity.
Qed.

Lemma search_trailing_slash (s : str) (pos : nat) (prev : option ascii) :
  search (RSeq (chr "/") REol) pos prev s =
  if ends_slash s
  then Some {| m_index := pos + (length s - 1); m_text := js "/"; m_caps := [] |}
  else None.
Proof.
  revert pos prev. induction s as [|c s IH]; intros pos prev; [reflexivity|].
  rewrite search_unfold.
  assert (Hm : match_here (RSeq (chr "/") REol) prev (c :: s) =
               if is_slash c then match s with [] => Some (1, []) | _ => None end
               else None) by reflexivity.
  rewrite Hm. destruct s as [|d s].
  - unfold ends_slash. simpl. destruct (is_slash c) eqn:Hc.
    + unfold is_slash in Hc. apply Ascii.eqb_eq in Hc as <-. do 2 f_equal. lia.
    + reflexivity.
  - replace (if is_slash c then None else None) with (@None (nat * captures))
      by (destruct (is_slash c); reflexivity).
    rewrite IH. unfold ends_slash. simpl last.
    change (last (c :: d :: s)) with (last (d :: s)).
    destruct (last (d :: s)) as [e|]; [|reflexivity].
    destruct (is_slash e); [|reflexivity].
    do 2 f_equal. simpl. lia.
Qed.

(** [path.replace(/\/$/, empty)] *)
Lemma replace_trailing_slash (s : str) :
  replace_first (RSeq (chr "/") REol) [] s = strip1 s.
Proof.
  unfold replace_first, exec, strip1. rewrite search_trailing_slash.
  destruct (ends_slash s) eqn:He; [|reflexivity].
  simpl. destruct s as [|c s]; [discriminate|].
  rewrite drop_ge by (simpl; lia). rewrite app_nil_r.
  rewrite removelast_firstn_len. simpl. rewrite Nat.sub_0_r. reflexivity.
Qed.

Lemma cleanPath_spec (p : str) :
  cleanPath p = "/"%char :: strip1 (drop (run is_slash p) p).
Proof.
  unfold cleanPath. rewrite replace_leading_slashes, replace_trailing_slash.
  set (q := drop (run is_slash p) p).
  destruct q as [|c q]; [reflexivity|].
  unfold strip1 at 1. unfold ends_slash.
  change (last ("/"%char :: c :: q)) with (last (c :: q)).
  fold (ends_slash (c :: q)). unfold strip1.
  destruct (ends_slash (c :: q)); [|reflexivity].
  change (removelast ("/"%char :: c :: q)) with ("/"%char :: removelast (c :: q)).
  reflexivity.
Qed.









End RouteIdPatterns.

(** *** Route identifiers *)

Section RouteIds.




Lemma uniqueRoutes_subseteq (routes : list APIRoute) (r : APIRoute) :
  r ∈ uniqueRoutes routes -> r ∈ routes.
Proof.
  rewrite uniqueRoutes_firstSeen, firstSeen_elem.
  intros (pre & post & -> & _). apply elem_of_app. right. by left.
Qed.


End RouteIds.

(** *** The claims on route discovery *)

Section RouteClaims.

Import Examples.






(** C4: the list returned by route discovery holds no two routes with the
    same (method, path); a route is in the list exactly when it is the
    first one of its (method, path) among the routes scanned, file after
    file, and every scanned (method, path) is represented. *)
Theorem discovered_routes_unique (p : project) (routes : list APIRoute) :
  discoverAPIRoutesInternal p = Some routes ->
  exists scanned,
    collectRoutes p (getGoFilesRecursive p) = Some scanned /\
    NoDup (endpoint <$> routes) /\
    (forall r, r ∈ routes <->
               exists pre post, scanned = pre ++ (r :: post) /\
                                forall x, x ∈ pre -> endpoint x <> endpoint r) /\
    (forall x, x ∈ scanned -> exists r, r ∈ routes /\ endpoint r = endpoint x).
Proof.
  unfold discoverAPIRoutesInternal.
  destruct (collectRoutes p (getGoFilesRecursive p)) as [scanned|]; [|discriminate].
  intros [= <-]. exists scanned. rewrite uniqueRoutes_firstSeen.
  split; [reflexivity|]. split; [apply firstSeen_NoDup|]. split.
  - intros r. rewrite firstSeen_elem. split.
    + intros (pre & post & Heq & _ & Hpre). eauto.
    + intros (pre & post & Heq & Hpre). exists pre, post.
      split; [assumption|]. split; [|assumption]. intros H. inversion H.
  - intros x Hx. apply firstSeen_covers; [assumption|]. intros H. inversion H.
Qed.

(** C4 on a file with two spellings of one registration: four routes are
    scanned and two are returned. *)
Lemma discovered_routes_unique_witness :
  exists routes scanned,
    discoverAPIRoutesInternal two_registrations = Some routes /\
    collectRoutes two_registrations (getGoFilesRecursive two_registrations)
    = Some scanned /\
    length scanned = 4 /\ length routes = 2 /\ NoDup (endpoint <$> routes).
Proof.
  eexists. eexists.
  assert (H : discoverAPIRoutesInternal two_registrations
              = Some (uniqueRoutes
                        (discoverRoutesInFile (users_line ++ [nl] ++ users_line_respelt)
                           (js "main.go") ++ []))) by reflexivity.
  split; [exact H|].
  destruct (discovered_routes_unique _ _ H) as (scanned & Hs & Hnd & _).
  split; [reflexivity|]. split; [reflexivity|]. split; [reflexivity|]. exact Hnd.
Defined.



End RouteClaims.

(** *** File discovery *)

Section FileDiscovery.

Import Examples.

Lemma skipped_spec (name : str) :
  negb (startsWith name (js ".")) && negb (str_eqb name (js "vendor"))
  && negb (str_eqb name (js "node_modules")) = negb (skipped name).
Proof.
  unfold skipped.
  destruct (startsWith name (js ".")), (str_eqb name (js "vendor")),
    (str_eqb name (js "node_modules")); reflexivity.
Qed.

Lemma goFilesOfItem_spec (item : entry) :
  forall dir path, path ∈ goFilesOfItem dir item <-> listed_item dir item path.
Proof.
  induction item as [name content | name listable items IH | name]
    using entry_nested_ind; intros dir path.
  - cbn [goFilesOfItem]. fold (is_go_source name). destruct (is_go_source name) eqn:Hgo.
    + rewrite list_elem_of_singleton. split.
      * intros ->. by constructor.
      * inversion 1. reflexivity.
    + split; [intros H; inversion H|]. inversion 1. congruence.
  - cbn [goFilesOfItem]. rewrite skipped_spec. destruct (skipped name) eqn:Hskip; cbn [negb].
    + split; [intros H; inversion H|]. inversion 1. congruence.
    + destruct listable.
      * rewrite list_elem_of_In, in_flat_map. split.
        -- intros (item & Hin & Hpath). apply list_elem_of_In in Hin, Hpath.
           rewrite Forall_forall in IH.
           econstructor; [assumption | exact Hin |]. by apply IH.
        -- inversion 1 as [|? ? ? item ? _ Hin Hitem]; subst.
           exists item. rewrite <- !list_elem_of_In. split; [assumption|].
           rewrite Forall_forall in IH. by apply IH.
      * split; [intros H; inversion H|]. inversion 1.
  - split; [intros H; inversion H|]. inversion 1.
Qed.

(** What the discovery of apiFlowUtils.ts returns. *)
Lemma getGoFilesRecursive_spec (p : project) (path : str) :
  path ∈ getGoFilesRecursive p <->
  rootListable p = true /\
  exists item, item ∈ rootItems p /\ listed_item (projectPath p) item path.
Proof.
  unfold getGoFilesRecursive. destruct (rootListable p).
  - rewrite list_elem_of_In, in_flat_map. split.
    + intros (item & Hin & Hpath). apply list_elem_of_In in Hin, Hpath.
      split; [reflexivity|]. exists item. split; [assumption|].
      by apply goFilesOfItem_spec.
    + intros (_ & item & Hin & Hitem). exists item.
      rewrite <- !list_elem_of_In. split; [assumption|]. by apply goFilesOfItem_spec.
  - split; [intros H; inversion H | intros [? _]; discriminate].
Qed.

(** C9: the discovery of goUtils.ts enters [node_modules]: on a project
    with a Go file under [node_modules], [getGoFiles] returns that file,
    where [getGoFilesRecursive] of apiFlowUtils.ts returns the one source
    file of the project. *)
Theorem getGoFiles_enters_node_modules :
  getGoFiles with_node_modules
  = [js "/proj/node_modules/dep/dep.go"; js "/proj/main.go"] /\
  getGoFilesRecursive with_node_modules = [js "/proj/main.go"].
Proof. split; vm_compute; reflexivity. Qed.

End FileDiscovery.

(** *** Files that cannot be read *)

Section Unreadable.

Import AST Examples.

Variable relative : str -> str -> str.
Variable parseBody : str -> CodeStructure -> CodeStructure.

Lemma parseFile_unreadable (p : project) (filePath : str) :
  readFileSync p filePath = None ->
  parseFile relative parseBody p filePath = None.
Proof. unfold parseFile. intros ->. reflexivity. Qed.

Lemma parseAll_unreadable (p : project) (goFiles : list str) (filePath : str) :
  filePath ∈ goFiles -> readFileSync p filePath = None ->
  parseAll relative parseBody p goFiles = None.
Proof.
  intros Hin Hread. induction goFiles as [|f goFiles IH]; [inversion Hin|].
  simpl. apply elem_of_cons in Hin as [<- | Hin].
  - rewrite parseFile_unreadable by assumption. reflexivity.
  - rewrite (IH Hin). destruct (parseFile relative parseBody p f); reflexivity.
Qed.

(** One unreadable file among the discovered ones fails the whole scan. *)
Lemma analyzeProject_unreadable (p : project) (filePath : str) :
  filePath ∈ getGoFilesRecursive p -> readFileSync p filePath = None ->
  analyzeProject relative parseBody p = Failure.
Proof.
  intros Hin Hread. unfold analyzeProject.
  rewrite (parseAll_unreadable p _ filePath Hin Hread). reflexivity.
Qed.

(** C1: on a project whose file [b.go] cannot be read, [parseFile] throws
    for that file instead of returning an empty structure, and the
    project-wide handler returns its failure value with no structure at
    all, although [a.go] and [c.go] can be read and parsed. *)
Theorem unreadable_file_aborts_scan :
  getGoFilesRecursive with_unreadable
  = [js "/proj/a.go"; js "/proj/b.go"; js "/proj/c.go"] /\
  parseFile relative parseBody with_unreadable (js "/proj/b.go") = None /\
  analyzeProject relative parseBody with_unreadable = Failure /\
  is_Some (parseFile relative parseBody with_unreadable (js "/proj/a.go")) /\
  is_Some (parseFile relative parseBody with_unreadable (js "/proj/c.go")).
Proof.
  split; [vm_compute; reflexivity|].
  split; [reflexivity|].
  split.
  - apply (analyzeProject_unreadable _ (js "/proj/b.go")); [|reflexivity].
    vm_compute. do 1 right. left.
  - split; eexists; reflexivity.
Qed.

End Unreadable.

(** *** Brace-balanced extraction *)

Section Scanner.


















End Scanner.

Section BlockClaims.

Import AST Examples.




End BlockClaims.

(** *** Call extraction and resolution *)

Section Calls.

Import GoUtils Examples.

Lemma callsOfLine_elem (line : str) (lineNumber : nat)
    (currentFunction filePath packageName : str) (c : FunctionCall) :
  c ∈ callsOfLine line lineNumber currentFunction filePath packageName <->
  exists m name,
    m ∈ matchAll callPattern line /\ grp m 1 = Some name /\
    isBuiltinOrKeyword name = false /\
    c = callEdge currentFunction filePath lineNumber name packageName.
Proof.
  unfold callsOfLine. rewrite list_elem_of_omap. split.
  - intros (m & Hm & Hc). destruct (grp m 1) as [name|] eqn:Hg; [|discriminate].
    simpl in Hc. destruct (isBuiltinOrKeyword name) eqn:Hb; [discriminate|].
    injection Hc as <-. exists m, name. auto.
  - intros (m & name & Hm & Hg & Hb & ->). exists m. split; [assumption|].
    rewrite Hg. simpl. rewrite Hb. reflexivity.
Qed.

Lemma callsOfLines_elem (lines : list str) (i : nat)
    (currentFunction filePath packageName : str) (c : FunctionCall) :
  c ∈ callsOfLines lines i currentFunction filePath packageName ->
  exists j line m name,
    lines !! j = Some line /\ exec funcLine line = None /\
    m ∈ matchAll callPattern line /\ grp m 1 = Some name /\
    isBuiltinOrKeyword name = false /\
    c = callEdge (enclosingFunction currentFunction lines j) filePath (i + j + 1)
          name packageName.
Proof.
  revert i currentFunction. induction lines as [|line rest IH]; intros i cur Hc.
  - inversion Hc.
  - cbn [callsOfLines] in Hc. destruct (exec funcLine line) as [fm|] eqn:Hf.
    + apply IH in Hc as (j & l0 & m & name & Hj & Hl & Hm & Hg & Hb & ->).
      exists (S j), l0, m, name. repeat split; try assumption.
      unfold enclosingFunction. cbn [take fold_left]. rewrite Hf.
      f_equal. lia.
    + apply elem_of_app in Hc as [Hc | Hc].
      * apply callsOfLine_elem in Hc as (m & name & Hm & Hg & Hb & ->).
        exists 0, line, m, name. repeat split; try assumption.
        f_equal. lia.
      * apply IH in Hc as (j & l0 & m & name & Hj & Hl & Hm & Hg & Hb & ->).
        exists (S j), l0, m, name. repeat split; try assumption.
        unfold enclosingFunction. cbn [take fold_left]. rewrite Hf.
        f_equal. lia.
Qed.

Lemma callsOfLines_complete (lines : list str) (i j : nat)
    (currentFunction filePath packageName line name : str) (m : rmatched) :
  lines !! j = Some line -> exec funcLine line = None ->
  m ∈ matchAll callPattern line -> grp m 1 = Some name ->
  isBuiltinOrKeyword name = false ->
  callEdge (enclosingFunction currentFunction lines j) filePath (i + j + 1) name
    packageName
  ∈ callsOfLines lines i currentFunction filePath packageName.
Proof.
  revert i j currentFunction.
  induction lines as [|l0 rest IH]; intros i j cur Hj Hl Hm Hg Hb; [discriminate|].
  cbn [callsOfLines]. destruct j as [|j].
  - injection Hj as ->. rewrite Hl. apply elem_of_app. left.
    apply callsOfLine_elem. exists m, name. repeat split; try assumption.
    f_equal. lia.
  - simpl in Hj. unfold enclosingFunction. cbn [take fold_left].
    replace (i + S j + 1) with (S i + j + 1) by lia.
    destruct (exec funcLine l0) as [fm|].
    + exact (IH (S i) j _ Hj Hl Hm Hg Hb).
    + apply elem_of_app. right. exact (IH (S i) j _ Hj Hl Hm Hg Hb).
Qed.

(** A key the functions do not provide is not in the lookup map. *)
Lemma buildFunctionMap_None (functions : list FunctionDef) (key : str) :
  (forall f, f ∈ functions ->
             fd_name f <> key /\ fd_package f ++ js "." ++ fd_name f <> key) ->
  buildFunctionMap functions !! key = None.
Proof.
  unfold buildFunctionMap.
  assert (Hgen : forall (m0 : gmap str FunctionDef),
             m0 !! key = None ->
             (forall f, f ∈ functions ->
                        fd_name f <> key /\ fd_package f ++ js "." ++ fd_name f <> key) ->
             fold_left
               (fun functionMap func =>
                  <[fd_name func := func]>
                    (<[fd_package func ++ js "." ++ fd_name func := func]> functionMap))
               functions m0 !! key = None).
  { induction functions as [|f fs IH]; intros m0 Hm0 Hfs; [exact Hm0|].
    simpl. apply IH.
    - destruct (Hfs f) as [Hn Hq]; [by left|].
      rewrite lookup_insert_ne by assumption.
      rewrite lookup_insert_ne by assumption. exact Hm0.
    - intros g Hg. apply Hfs. by right. }
  intros Hfs. apply Hgen; [apply lookup_empty | assumption].
Qed.

Lemma resolveCall_fields (functionMap : gmap str FunctionDef) (c : FunctionCall) :
  callerFunc (resolveCall functionMap c) = callerFunc c /\
  callerFile (resolveCall functionMap c) = callerFile c /\
  callerLine (resolveCall functionMap c) = callerLine c /\
  calledFunc (resolveCall functionMap c) = calledFunc c /\
  package (resolveCall functionMap c) = package c.
Proof.
  unfold resolveCall.
  destruct (functionMap !! (package c ++ js "." ++ calledFunc c));
    [|destruct (functionMap !! calledFunc c)]; repeat split; reflexivity.
Qed.

(** C8, as stated, fails: a call on a selector, [repo.Save(user)], has the
    shape identifier.identifier( and a callee that is neither a listed
    name nor under a listed package prefix, and yet no edge is recorded for
    it, because every callee with a dot is denied; and the call [boot()]
    on the line that opens the function [main] is not recorded either. *)
Lemma dotted_call_not_recorded :
  (fun m => grp m 1) <$> matchAll callPattern (js "repo.Save(user)")
  = [Some (js "repo.Save")] /\
  listed_deny (js "repo.Save") = false /\
  extractFunctionCalls (js "repo.Save(user)") (js "a.go") (js "main") = [] /\
  (fun m => grp m 1) <$> matchAll callPattern (js "func main() { boot() }")
  = [Some (js "main"); Some (js "boot")] /\
  listed_deny (js "boot") = false /\
  extractFunctionCalls (js "func main() { boot() }") (js "a.go") (js "main") = [].
Proof. repeat split; vm_compute; reflexivity. Qed.

(** C8, amended: on every line that does not open a function, call
    extraction records an edge, with the enclosing function, the file, the
    line number and the package, for each match of the call pattern whose callee
    [isBuiltinOrKeyword] does not deny, and records nothing else; that
    function denies the listed names and every name with a dot.
    Resolution keeps the number and the order of the edges and their
    caller, callee and package; an edge whose callee no function provides,
    by qualified or by bare name, is left as it was, without target file
    and line. *)
Theorem call_edges_recorded_and_kept (content filePath packageName : str)
    (callGraph : CallGraph) :
  (forall j line m name,
      split nl content !! j = Some line -> exec funcLine line = None ->
      m ∈ matchAll callPattern line -> grp m 1 = Some name ->
      isBuiltinOrKeyword name = false ->
      callEdge (enclosingFunction [] (split nl content) j) filePath (j + 1) name
        packageName
      ∈ extractFunctionCalls content filePath packageName) /\
  (forall c,
      c ∈ extractFunctionCalls content filePath packageName ->
      exists j line m name,
        split nl content !! j = Some line /\ exec funcLine line = None /\
        m ∈ matchAll callPattern line /\ grp m 1 = Some name /\
        isBuiltinOrKeyword name = false /\ includes name (js ".") = false /\
        c = callEdge (enclosingFunction [] (split nl content) j) filePath (j + 1)
              name packageName) /\
  length (calls (resolveCallTargets callGraph)) = length (calls callGraph) /\
  (forall j c,
      calls callGraph !! j = Some c ->
      exists c',
        calls (resolveCallTargets callGraph) !! j = Some c' /\
        callerFunc c' = callerFunc c /\ callerFile c' = callerFile c /\
        callerLine c' = callerLine c /\ calledFunc c' = calledFunc c /\
        package c' = package c /\
        ((forall f, f ∈ functions callGraph ->
                    fd_name f <> calledFunc c /\
                    fd_package f ++ js "." ++ fd_name f <> calledFunc c /\
                    fd_name f <> package c ++ js "." ++ calledFunc c /\
                    fd_package f ++ js "." ++ fd_name f
                    <> package c ++ js "." ++ calledFunc c) ->
         c' = c)).
Proof.
  split; [|split; [|split]].
  - intros j line m name Hj Hl Hm Hg Hb.
    exact (callsOfLines_complete _ 0 j [] filePath packageName line name m Hj Hl Hm Hg Hb).
  - intros c Hc. apply callsOfLines_elem in Hc
        as (j & line & m & name & Hj & Hl & Hm & Hg & Hb & ->).
    exists j, line, m, name. repeat split; try assumption.
    unfold isBuiltinOrKeyword in Hb. apply orb_false_iff in Hb as [_ Hb]. exact Hb.
  - unfold resolveCallTargets. cbn [calls]. apply length_map.
  - intros j c Hj. unfold resolveCallTargets. cbn [calls functions].
    exists (resolveCall (buildFunctionMap (functions callGraph)) c).
    split; [rewrite list_lookup_fmap, Hj; reflexivity|].
    destruct (resolveCall_fields (buildFunctionMap (functions callGraph)) c)
      as (H1 & H2 & H3 & H4 & H5).
    repeat split; try assumption.
    intros Hfs. unfold resolveCall.
    rewrite !buildFunctionMap_None; [reflexivity| |];
      intros f Hf; destruct (Hfs f Hf) as (? & ? & ? & ?); auto.
Qed.

End Calls.

(** Group 1 is defined in every match of the call pattern and of the
    pattern that opens a function. *)
Lemma callPattern_callee (line : str) (m : rmatched) :
  m ∈ matchAll GoUtils.callPattern line -> is_Some (grp m 1).
Proof. intros Hm. eapply matchAll_defines; [exact Hm|]. by left. Qed.

Lemma funcLine_name (line : str) (m : rmatched) :
  exec GoUtils.funcLine line = Some m -> is_Some (grp m 1).
Proof.
  intros Hm. eapply exec_defines; [exact Hm|]. vm_compute. do 1 left.
Qed.

(** *** Symbol lookup *)

Section Symbols.

Import GoUtils Examples.

Context {host : RegExpHost}.

Lemma findInLines_first (symbol file : str) (lines : list str) (i k : nat)
    (line : str) (kind : symbolKind) :
  lines !! k = Some line ->
  (forall j l, j < k -> lines !! j = Some l -> classifyLine symbol l = Returned None) ->
  classifyLine symbol line = Returned (Some kind) ->
  findInLines symbol file lines i
  = Returned (Some {| sym_name := symbol; sym_type := kind; sym_file := file;
                      sym_line := i + k + 1; signature := trim line |}).
Proof.
  revert i k. induction lines as [|l0 rest IH]; intros i k Hk Hbefore Hline;
    [discriminate|].
  cbn [findInLines]. destruct k as [|k].
  - injection Hk as ->. rewrite Hline. cbn. do 3 f_equal. lia.
  - rewrite (Hbefore 0 l0) by (reflexivity || lia). cbn.
    rewrite (IH (S i) k); [do 3 f_equal; lia | exact Hk | | exact Hline].
    intros j l1 Hj Hl1. apply (Hbefore (S j) l1); [lia | exact Hl1].
Qed.

Lemma findInLines_none (symbol file : str) (lines : list str) (i : nat) :
  (forall l, l ∈ lines -> classifyLine symbol l = Returned None) ->
  findInLines symbol file lines i = Returned None.
Proof.
  revert i. induction lines as [|l0 rest IH]; intros i Hall; [reflexivity|].
  cbn [findInLines]. rewrite (Hall l0) by (by left). cbn.
  apply IH. intros l1 Hl1. apply Hall. by right.
Qed.

Lemma findInFiles_first (p : project) (symbol : str) (pre post : list str)
    (file content : str) (info : SymbolInfo) :
  (forall f, f ∈ pre ->
             exists c, readFileSync p f = Some c /\
                       forall l, l ∈ split nl c -> classifyLine symbol l = Returned None) ->
  readFileSync p file = Some content ->
  findInLines symbol file (split nl content) 0 = Returned (Some info) ->
  findInFiles p symbol (pre ++ file :: post) = Returned (Some info).
Proof.
  intros Hpre Hread Hfound. induction pre as [|f pre IH].
  - cbn [app findInFiles]. rewrite Hread. cbn. rewrite Hfound. reflexivity.
  - cbn [app findInFiles]. destruct (Hpre f) as (c & Hc & Hnone); [by left|].
    rewrite Hc. cbn. rewrite (findInLines_none _ _ _ _ Hnone). cbn.
    apply IH. intros g Hg. apply Hpre. by right.
Qed.

(** C6, amended: [findSymbolInProject] returns the declaration of the first
    line, file after file and line after line, that matches a pattern of
    the battery; the priority of the patterns decides the kind on that
    line only.  A struct is returned when its line comes first, a variable
    when the line of the variable comes first. *)
Theorem symbol_found_on_first_matching_line (p : project) (symbol : str)
    (pre post : list str) (file content line : str) (k : nat) (kind : symbolKind) :
  getGoFiles p = pre ++ file :: post ->
  (forall f, f ∈ pre ->
             exists c, readFileSync p f = Some c /\
                       forall l, l ∈ split nl c -> classifyLine symbol l = Returned None) ->
  readFileSync p file = Some content ->
  split nl content !! k = Some line ->
  (forall j l, j < k -> split nl content !! j = Some l ->
               classifyLine symbol l = Returned None) ->
  classifyLine symbol line = Returned (Some kind) ->
  findSymbolInProject p symbol
  = Some {| sym_name := symbol; sym_type := kind; sym_file := file;
            sym_line := k + 1; signature := trim line |}.
Proof.
  intros Hfiles Hpre Hread Hk Hbefore Hline. unfold findSymbolInProject.
  rewrite Hfiles.
  rewrite (findInFiles_first p symbol pre post file content _ Hpre Hread
             (findInLines_first symbol file _ 0 k line kind Hk Hbefore Hline)).
  reflexivity.
Qed.

End Symbols.

Section SymbolExamples.

Import GoUtils Examples.

(** C6, as stated, fails: in a file that declares [var Foo] on line 2 and
    [type Foo struct] on line 4, the lookup of [Foo] returns the variable. *)
Lemma variable_before_struct_wins :
  findSymbolInProject (host := literal_host) var_then_struct (js "Foo")
  = Some {| sym_name := js "Foo"; sym_type := KVariable; sym_file := js "/proj/main.go";
            sym_line := 2; signature := js "var Foo = NewFoo()" |}.
Proof. vm_compute. reflexivity. Qed.

(** C6 on the file that declares the struct first: the struct is found. *)
Lemma symbol_found_on_first_matching_line_witness :
  findSymbolInProject (host := literal_host) struct_then_var (js "Foo")
  = Some {| sym_name := js "Foo"; sym_type := KStruct; sym_file := js "/proj/main.go";
            sym_line := 1 + 1; signature := trim (js "type Foo struct {") |}.
Proof.
  apply (symbol_found_on_first_matching_line (host := literal_host) struct_then_var
           (js "Foo") []
           [] (js "/proj/main.go")
           (js "package m" ++ nl :: js "type Foo struct {" ++ nl :: js "}" ++
            nl :: nl :: js "var Foo = NewFoo()")
           (js "type Foo struct {") 1 KStruct).
  - vm_compute. reflexivity.
  - intros f Hf. inversion Hf.
  - vm_compute. reflexivity.
  - vm_compute. reflexivity.
  - intros j l0 Hj Hl0. destruct j as [|j]; [|lia].
    vm_compute in Hl0. injection Hl0 as <-. vm_compute. reflexivity.
  - vm_compute. reflexivity.
Defined.

End SymbolExamples.

(** *** The data-flow trace *)

Lemma flowCallPattern_callee (line : str) (m : rmatched) :
  m ∈ matchAll Flow.flowCallPattern line -> is_Some (grp m 1).
Proof. intros Hm. eapply matchAll_defines; [exact Hm|]. by left. Qed.

Section TraceTermination.

Import Flow.

Context {host : RegExpHost}.
Variable p : project.

Lemma filter_length_le {A} (P Q : A -> Prop) `{!forall x, Decision (P x)}
    `{!forall x, Decision (Q x)} (xs : list A) :
  (forall x, Q x -> P x) ->
  length (filter Q xs) <= length (filter P xs).
Proof.
  intros HQP. induction xs as [|x xs IH]; [reflexivity|].
  rewrite !filter_cons. destruct (decide (Q x)) as [HQ|HQ].
  - rewrite decide_True by auto. simpl. lia.
  - destruct (decide (P x)); simpl; lia.
Qed.

Lemma filter_length_lt {A} (P Q : A -> Prop) `{!forall x, Decision (P x)}
    `{!forall x, Decision (Q x)} (xs : list A) (k : A) :
  (forall x, Q x -> P x) -> k ∈ xs -> P k -> ~ Q k ->
  length (filter Q xs) < length (filter P xs).
Proof.
  intros HQP Hin HP HQ. induction xs as [|x xs IH]; [inversion Hin|].
  rewrite !filter_cons. apply elem_of_cons in Hin as [<- | Hin].
  - destruct (decide (Q k)); [contradiction|].
    destruct (decide (P k)); [|contradiction].
    simpl. pose proof (filter_length_le P Q xs HQP). lia.
  - specialize (IH Hin). destruct (decide (Q x)) as [HQx|HQx].
    + rewrite decide_True by auto. simpl. lia.
    + destruct (decide (P x)); simpl; lia.
Qed.

Lemma missing_le (keys : list (str * nodeType)) (ns ns' : list DataFlowNode) :
  ns `prefix_of` ns' -> missing keys ns' <= missing keys ns.
Proof.
  intros [more ->]. unfold missing. apply filter_length_le.
  intros k Hk Hin. apply Hk. rewrite fmap_app. apply elem_of_app. by left.
Qed.

Lemma missing_push (keys : list (str * nodeType)) (ns : list DataFlowNode)
    (n : DataFlowNode) :
  nodeKey n ∈ keys -> nodeKey n ∉ nodeKey <$> ns ->
  missing keys (ns ++ [n]) < missing keys ns.
Proof.
  intros Hin Hnew. unfold missing. apply (filter_length_lt _ _ _ (nodeKey n)).
  - intros k Hk Hin'. apply Hk. rewrite fmap_app. apply elem_of_app. by left.
  - assumption.
  - assumption.
  - intros Hk. apply Hk. rewrite fmap_app. apply elem_of_app. right. by left.
Qed.

Lemma missing_bound (keys : list (str * nodeType)) (ns : list DataFlowNode) :
  missing keys ns <= length keys.
Proof. unfold missing. apply length_filter. Qed.

Lemma assoc_elem {A} (k : str) (l : list (str * A)) (v : A) :
  assoc k l = Some v -> (k, v) ∈ l.
Proof.
  induction l as [|[k' v'] l IH]; [discriminate|].
  cbn [assoc]. unfold str_eqb. case_bool_decide as Hk.
  - intros [= ->]. subst. by left.
  - intros Hl. right. by apply IH.
Qed.

Lemma readFileSync_all_files (path content : str) :
  readFileSync p path = Some content -> (path, Some content) ∈ all_files p.
Proof.
  unfold readFileSync. destruct (assoc path (all_files p)) as [[c|]|] eqn:Ha;
    try discriminate.
  intros [= ->]. by apply assoc_elem.
Qed.

Lemma callsAt_out_of_range (content : str) (index : nat) :
  length content <= index -> callsAt content index = [].
Proof.
  intros Hle. unfold callsAt, extractFunctionBody.
  rewrite drop_ge by assumption. reflexivity.
Qed.

Lemma callsAt_names (path content : str) (index : nat) (c : Call) :
  (path, Some content) ∈ all_files p -> c ∈ callsAt content index ->
  functionName c ∈ callNames p.
Proof.
  intros Hfile Hc. destruct (decide (index <= length content)) as [Hle|Hgt].
  - unfold callNames. apply list_elem_of_In, in_flat_map.
    exists (path, Some content). split; [by apply list_elem_of_In|].
    cbv beta. cbn [snd]. apply in_flat_map. exists index. split.
    + apply in_seq. lia.
    + apply list_elem_of_In, list_elem_of_fmap. eauto.
  - rewrite callsAt_out_of_range in Hc by lia. inversion Hc.
Qed.

Lemma extracted_call_names (path content functionName0 : str) (c : Call) :
  (path, Some content) ∈ all_files p ->
  c ∈ extractFunctionCallsFromFunction content functionName0 ->
  functionName c ∈ callNames p.
Proof.
  intros Hfile. unfold extractFunctionCallsFromFunction, compile.
  destruct (new_RegExp definitionPattern functionName0) as [|run_exec]; cbn.
  - intros Hc. inversion Hc.
  - destruct (run_exec content) as [m|]; cbn.
    + by apply callsAt_names with path.
    + intros Hc. inversion Hc.
Qed.

Lemma determineNodeType_callee (name context0 : str) :
  determineNodeType name context0 ∈ calleeTypes.
Proof.
  unfold determineNodeType, calleeTypes.
  repeat match goal with
         | |- context [if ?b then _ else _] => destruct b
         end; set_solver.
Qed.

Lemma createNodeForFunction_fields (call : Call) (t : nodeType) (nodeId : str) :
  node_id (createNodeForFunction p call t nodeId) = nodeId /\
  node_name (createNodeForFunction p call t nodeId) = functionName call /\
  node_type (createNodeForFunction p call t nodeId) = t.
Proof.
  unfold createNodeForFunction, fallbackNode.
  repeat match goal with
         | |- context [if ?b then _ else _] => destruct b
         | |- context [match ?o with Some _ => _ | None => _ end] => destruct o
         end; repeat split; reflexivity.
Qed.

Lemma find_key_None (call : Call) (t : nodeType) (ns : list DataFlowNode) :
  find (fun n => bool_decide (node_name n = functionName call)
                 && bool_decide (node_type n = t)) ns = None ->
  (functionName call, t) ∉ nodeKey <$> ns.
Proof.
  intros Hfind (n & Hk & Hn)%list_elem_of_fmap.
  apply list_elem_of_In in Hn. pose proof (find_none _ _ Hfind n Hn) as Hf.
  cbn in Hf. injection Hk as Hname Htype.
  rewrite !bool_decide_eq_true_2 in Hf by congruence. discriminate.
Qed.

(** The recursive calls of a function that returns with enough fuel. *)
Definition returns_below (fuel : nat)
    (recurse : str -> str -> str -> traceState -> option traceState) : Prop :=
  forall file name src st,
    missing (nodeKeys p) (nodes st) < fuel ->
    exists st', recurse file name src st = Some st' /\
                nodes st `prefix_of` nodes st'.

Lemma traceCalls_returns (fuel : nat)
    (recurse : str -> str -> str -> traceState -> option traceState)
    (src : str) (functionCalls : list Call) (st : traceState) :
  returns_below fuel recurse ->
  (forall c, c ∈ functionCalls -> functionName c ∈ callNames p) ->
  missing (nodeKeys p) (nodes st) <= fuel ->
  exists st', traceCalls recurse p src functionCalls st = Some st' /\
              nodes st `prefix_of` nodes st'.
Proof.
  intros Hrec. revert st.
  induction functionCalls as [|call rest IH]; intros st Hnames Hfuel.
  - exists st. split; reflexivity.
  - assert (Hstep : exists st1, traceCall recurse p src call st = Some st1 /\
                                nodes st `prefix_of` nodes st1).
    { unfold traceCall.
      set (t := determineNodeType (functionName call) (context call)).
      set (nodeId := typeName t ++ _).
      destruct (find _ (nodes st)) as [existing|] eqn:Hfind.
      - eexists. split; reflexivity.
      - set (newNode := createNodeForFunction p call t nodeId).
        destruct (createNodeForFunction_fields call t nodeId) as (_ & Hname & Htype).
        assert (Hless : missing (nodeKeys p) (nodes st ++ [newNode]) < fuel).
        { eapply Nat.lt_le_trans; [|exact Hfuel]. apply missing_push.
          - unfold nodeKey. fold newNode in Hname, Htype. rewrite Hname, Htype.
            unfold nodeKeys. apply list_elem_of_In, in_flat_map.
            exists (functionName call). split.
            + apply list_elem_of_In, Hnames. by left.
            + apply list_elem_of_In, list_elem_of_fmap.
              exists t. split; [reflexivity | apply determineNodeType_callee].
          - unfold nodeKey. fold newNode in Hname, Htype. rewrite Hname, Htype.
            by apply find_key_None. }
        destruct (nonempty (node_file newNode) && _).
        + edestruct Hrec as (st1 & -> & Hpre); [exact Hless|].
          exists st1. split; [reflexivity|].
          etransitivity; [|exact Hpre]. cbn. by apply prefix_app_r.
        + eexists. split; [reflexivity|]. cbn. by apply prefix_app_r. }
    destruct Hstep as (st1 & Hst1 & Hpre1).
    destruct (IH st1) as (st' & Hst' & Hpre').
    + intros c Hc. apply Hnames. by right.
    + pose proof (missing_le (nodeKeys p) _ _ Hpre1). lia.
    + exists st'. cbn [traceCalls]. rewrite Hst1. cbn. split; [exact Hst'|].
      by etransitivity.
Qed.

Lemma traceFunctionCalls_returns (fuel : nat) :
  returns_below fuel (traceFunctionCalls fuel p).
Proof.
  induction fuel as [|fuel IH]; intros file name src st Hfuel; [lia|].
  cbn [traceFunctionCalls]. case_bool_decide.
  - exists st. split; reflexivity.
  - destruct (readFileSync p (path_join (projectPath p) file)) as [content|] eqn:Hread.
    + destruct (traceCalls_returns fuel (traceFunctionCalls fuel p) src
                  (extractFunctionCallsFromFunction content name)
                  (markProcessed (file ++ js ":" ++ name) st) IH)
        as (st' & Hst' & Hpre).
      * intros c Hc. eapply extracted_call_names; [|exact Hc].
        apply readFileSync_all_files. exact Hread.
      * cbn [markProcessed nodes]. lia.
      * exists st'. split; assumption.
    + eexists. split; reflexivity.
Qed.

(** The trace of a route returns: the bound on the depth is never reached. *)
Lemma traceCompleteDataFlow_returns (targetRoute : APIRoute) :
  is_Some (traceCompleteDataFlow p targetRoute).
Proof.
  unfold traceCompleteDataFlow.
  edestruct (traceFunctionCalls_returns (traceBound p)) as (st' & -> & _).
  - unfold traceBound. apply Nat.lt_succ_r, missing_bound.
  - eexists. reflexivity.
Qed.

End TraceTermination.

Section TraceInvariant.

Import Flow.

Context {host : RegExpHost}.
Variable p : project.

Lemma closed_edges_more (ns more : list DataFlowNode) (es : list DataFlowEdge) :
  closed_edges ns es -> closed_edges (ns ++ more) es.
Proof.
  intros Hc e He. destruct (Hc e He) as [Hs Ht].
  rewrite fmap_app, !elem_of_app. auto.
Qed.

Lemma closed_edges_push (ns : list DataFlowNode) (es : list DataFlowEdge)
    (e : DataFlowEdge) :
  closed_edges ns es -> source e ∈ node_id <$> ns -> target e ∈ node_id <$> ns ->
  closed_edges ns (es ++ [e]).
Proof.
  intros Hc Hs Ht e' [He' | ->%list_elem_of_singleton]%elem_of_app; auto.
Qed.

(** A function that keeps the invariant and only appends nodes. *)
Definition keeps_invariant
    (recurse : str -> str -> str -> traceState -> option traceState) : Prop :=
  forall file name src st st',
    recurse file name src st = Some st' ->
    src ∈ node_id <$> nodes st -> well_formed st ->
    well_formed st' /\ nodes st `prefix_of` nodes st'.

Lemma traceCall_invariant
    (recurse : str -> str -> str -> traceState -> option traceState)
    (src : str) (call : Call) (st st' : traceState) :
  keeps_invariant recurse ->
  traceCall recurse p src call st = Some st' ->
  src ∈ node_id <$> nodes st -> well_formed st ->
  well_formed st' /\ nodes st `prefix_of` nodes st'.
Proof.
  intros Hrec Hcall Hsrc [Hclosed Hnodup]. unfold traceCall in Hcall.
  set (t := determineNodeType (functionName call) (context call)) in *.
  set (nodeId := typeName t ++ _) in *.
  destruct (find _ (nodes st)) as [existing|] eqn:Hfind.
  - injection Hcall as <-. split; [|reflexivity]. split; [|exact Hnodup].
    cbn. apply closed_edges_push; [assumption | exact Hsrc |].
    cbn. apply find_some in Hfind as [Hin _].
    apply list_elem_of_fmap. exists existing. split; [reflexivity|].
    by apply list_elem_of_In.
  - set (newNode := createNodeForFunction p call t nodeId) in *.
    destruct (createNodeForFunction_fields p call t nodeId) as (Hid & Hname & Htype).
    fold newNode in Hid, Hname, Htype.
    set (st1 := pushEdge _ (pushNode newNode st)) in *.
    assert (Hnew : nodeId ∈ node_id <$> nodes st1).
    { cbn. rewrite fmap_app, elem_of_app. right. cbn. rewrite Hid. by left. }
    assert (Hgood1 : well_formed st1).
    { split.
      - cbn. apply closed_edges_push.
        + by apply closed_edges_more.
        + cbn. rewrite fmap_app, elem_of_app. by left.
        + exact Hnew.
      - cbn. rewrite fmap_app. apply NoDup_app. split; [exact Hnodup|]. split.
        + intros k Hk [->|Hnil]%elem_of_cons; [|inversion Hnil].
          apply (find_key_None call t (nodes st) Hfind).
          unfold nodeKey in Hk. rewrite Hname, Htype in Hk. exact Hk.
        + apply NoDup_singleton. }
    assert (Hpre1 : nodes st `prefix_of` nodes st1) by (cbn; by apply prefix_app_r).
    destruct (nonempty (node_file newNode) && _).
    + destruct (Hrec _ _ _ _ _ Hcall Hnew Hgood1) as [Hgood' Hpre'].
      split; [exact Hgood' | by etransitivity].
    + injection Hcall as <-. split; assumption.
Qed.

Lemma traceCalls_invariant
    (recurse : str -> str -> str -> traceState -> option traceState)
    (src : str) (functionCalls : list Call) (st st' : traceState) :
  keeps_invariant recurse ->
  traceCalls recurse p src functionCalls st = Some st' ->
  src ∈ node_id <$> nodes st -> well_formed st ->
  well_formed st' /\ nodes st `prefix_of` nodes st'.
Proof.
  intros Hrec. revert st.
  induction functionCalls as [|call rest IH]; intros st Hcalls Hsrc Hgood.
  - injection Hcalls as <-. split; [assumption | reflexivity].
  - cbn [traceCalls] in Hcalls.
    destruct (traceCall recurse p src call st) as [st1|] eqn:Hcall; [|discriminate].
    cbn in Hcalls.
    destruct (traceCall_invariant _ _ _ _ _ Hrec Hcall Hsrc Hgood) as [Hgood1 Hpre1].
    destruct (IH st1 Hcalls) as [Hgood' Hpre']; [|assumption|].
    + destruct Hpre1 as [more ->]. rewrite fmap_app, elem_of_app. by left.
    + split; [assumption | by etransitivity].
Qed.

Lemma traceFunctionCalls_invariant (fuel : nat) :
  keeps_invariant (traceFunctionCalls fuel p).
Proof.
  induction fuel as [|fuel IH]; intros file name src st st' Htrace Hsrc Hgood;
    [discriminate|].
  cbn [traceFunctionCalls] in Htrace. case_bool_decide.
  - injection Htrace as <-. split; [assumption | reflexivity].
  - destruct (readFileSync p (path_join (projectPath p) file)) as [content|].
    + apply (traceCalls_invariant _ _ _ _ _ IH Htrace); assumption.
    + injection Htrace as <-. split; [assumption | reflexivity].
Qed.

Lemma traceHandlerFunction_fields (route : APIRoute) :
  node_id (traceHandlerFunction p route) = js "handler-" ++ handler route /\
  node_name (traceHandlerFunction p route) = handler route /\
  node_type (traceHandlerFunction p route) = THandler.
Proof.
  unfold traceHandlerFunction, compile.
  destruct (readFileSync p _) as [content|]; [|repeat split; reflexivity].
  destruct (new_RegExp handlerPattern1 _) as [|p1]; [repeat split; reflexivity|].
  destruct (new_RegExp handlerPattern2 _) as [|p2]; [repeat split; reflexivity|].
  destruct (new_RegExp handlerPattern3 _) as [|p3]; [repeat split; reflexivity|].
  cbn [mbind js_result_bind or_throw].
  destruct (firstExec [p1; p2; p3] content); repeat split; reflexivity.
Qed.

(** The graph of a trace: the route node comes first, the edges join nodes
    of the graph, and no two nodes have the same name and kind. *)
Lemma traceCompleteDataFlow_graph (targetRoute : APIRoute)
    (ns : list DataFlowNode) (es : list DataFlowEdge) :
  traceCompleteDataFlow p targetRoute = Some (ns, es) ->
  head ns = Some (routeNode targetRoute) /\ closed_edges ns es /\
  NoDup (nodeKey <$> ns).
Proof.
  unfold traceCompleteDataFlow.
  destruct (traceHandlerFunction_fields targetRoute) as (Hid & Hname & Htype).
  set (handlerNode := traceHandlerFunction p targetRoute) in *.
  set (st0 := pushEdge _ (pushNode handlerNode (pushNode (routeNode targetRoute) _))).
  destruct (traceFunctionCalls _ p _ _ _ st0) as [st'|] eqn:Htrace; [|discriminate].
  cbn. intros [= <- <-].
  destruct (traceFunctionCalls_invariant _ _ _ _ _ _ Htrace) as [[Hclosed Hnodup] Hpre].
  - cbn. right. by left.
  - split.
    + intros e [He | ->%list_elem_of_singleton]%elem_of_app; [inversion He|].
      cbn. split; [by left | right; by left].
    + cbn. unfold nodeKey. rewrite Htype. cbn.
      apply NoDup_cons. split; [|apply NoDup_singleton].
      intros [= _ ?]%list_elem_of_singleton.
  - split; [|split; assumption].
    destruct Hpre as [more ->]. reflexivity.
Qed.

End TraceInvariant.

(** Two hosts that agree on every source trace alike. *)
Section HostAgreement.

Import Flow.

Variables h1 h2 : RegExpHost.
Hypothesis agree :
  forall pattern name, @new_RegExp h1 pattern name = @new_RegExp h2 pattern name.
Variable p : project.









End HostAgreement.


Section TraceClaims.

Import Flow Examples.

(** C10: for every route, [traceCompleteDataFlow] returns a graph whose
    first node is the route node, with the identifier route- followed by
    the identifier of the route, and whose edges all start and end at the
    identifier of a node of the graph. *)
Theorem trace_graph_closed (host : RegExpHost) (p : project) (targetRoute : APIRoute) :
  exists ns es,
    traceCompleteDataFlow p targetRoute = Some (ns, es) /\
    head ns = Some (routeNode targetRoute) /\
    node_id (routeNode targetRoute) = js "route-" ++ id targetRoute /\
    forall e, e ∈ es -> source e ∈ node_id <$> ns /\ target e ∈ node_id <$> ns.
Proof.
  destruct (traceCompleteDataFlow_returns p targetRoute) as [[ns es] Hg].
  exists ns, es. split; [exact Hg|].
  destruct (traceCompleteDataFlow_graph p targetRoute ns es Hg) as (Hhead & Hclosed & _).
  split; [exact Hhead|]. split; [reflexivity | exact Hclosed].
Qed.



End TraceClaims.

(** *** Soundness of the matcher *)

Section MatcherSoundness.

Lemma matched_by_nil (r : regex) : min_len r = 0 -> matched_by r [].
Proof. intros H. split; [reflexivity | simpl; lia]. Qed.

Lemma rmatch_sound {R} (r : regex) :
  forall (pos : nat) (prev : option ascii) (s : str) (caps : captures)
         (k : @cont R) (x : R),
    rmatch r pos prev s caps k = Some x ->
    exists t s' prev' caps',
      s = t ++ s' /\ k (pos + length t) prev' s' caps' = Some x /\
      matched_by r t /\
      forall G, groups_ok G r -> caps_ok G caps -> caps_ok G caps'.
Proof.
  induction r as [c | | r1 IH1 r2 IH2 | r1 IH1 r2 IH2 | r1 IH1 | g r1 IH1 | ml |];
    intros pos prev s caps k x Hx.
  - cbn [rmatch] in Hx. destruct s as [|c0 s]; [discriminate|].
    destruct (c c0) eqn:Hc; [|discriminate].
    exists [c0], s, (Some c0), caps. split; [reflexivity|].
    split; [by replace (pos + length [c0]) with (S pos) by (simpl; lia)|].
    split; [|auto]. split; [|simpl; lia].
    intros P HP. simpl. by rewrite (HP c0 Hc).
  - exists [], s, prev, caps. split; [reflexivity|].
    split; [by rewrite Nat.add_0_r|]. split; [by apply matched_by_nil | auto].
  - cbn [rmatch] in Hx.
    apply IH1 in Hx as (t1 & s1 & prev1 & caps1 & -> & Hx & [Hw1 Hl1] & Hc1).
    apply IH2 in Hx as (t2 & s2 & prev2 & caps2 & -> & Hx & [Hw2 Hl2] & Hc2).
    exists (t1 ++ t2), s2, prev2, caps2. split; [by rewrite app_assoc|].
    split; [by rewrite length_app, Nat.add_assoc|]. split.
    + split.
      * intros P [HP1 HP2]. rewrite forallb_app, Hw1, Hw2 by assumption. done.
      * rewrite length_app. simpl. lia.
    + intros G [HG1 HG2] Hcaps. auto.
  - cbn [rmatch] in Hx. destruct (rmatch r1 pos prev s caps k) as [y|] eqn:H1.
    + injection Hx as ->.
      apply IH1 in H1 as (t1 & s1 & prev1 & caps1 & -> & Hx & [Hw1 Hl1] & Hc1).
      exists t1, s1, prev1, caps1. split; [reflexivity|]. split; [assumption|]. split.
      * split; [intros P [HP _]; auto | simpl; lia].
      * intros G [HG _]. auto.
    + apply IH2 in Hx as (t2 & s2 & prev2 & caps2 & -> & Hx & [Hw2 Hl2] & Hc2).
      exists t2, s2, prev2, caps2. split; [reflexivity|]. split; [assumption|]. split.
      * split; [intros P [_ HP]; auto | simpl; lia].
      * intros G [_ HG]. auto.
  - cbn [rmatch] in Hx. set (fuel := length s) in Hx. clearbody fuel.
    revert pos prev s caps Hx.
    induction fuel as [|fuel IHf]; intros pos prev s caps Hx.
    + exists [], s, prev, caps. split; [reflexivity|].
      split; [by rewrite Nat.add_0_r|]. split; [by apply matched_by_nil | auto].
    + match type of Hx with
      | match ?inner with Some _ => _ | None => _ end = _ =>
          destruct inner as [y|] eqn:Hinner
      end.
      * injection Hx as ->.
        apply IH1 in Hinner as (t1 & s1 & prev1 & caps1 & -> & Hx & [Hw1 Hl1] & Hc1).
        destruct (pos + length t1 =? pos); [discriminate|].
        apply IHf in Hx as (t2 & s2 & prev2 & caps2 & -> & Hx & [Hw2 Hl2] & Hc2).
        exists (t1 ++ t2), s2, prev2, caps2. split; [by rewrite app_assoc|].
        split; [by rewrite length_app, Nat.add_assoc|]. split.
        -- split; [|simpl; lia].
           intros P HP. rewrite forallb_app, Hw1, Hw2 by assumption. done.
        -- intros G HG Hcaps. auto.
      * exists [], s, prev, caps. split; [reflexivity|].
        split; [by rewrite Nat.add_0_r|]. split; [by apply matched_by_nil | auto].
  - cbn [rmatch] in Hx.
    apply IH1 in Hx as (t1 & s1 & prev1 & caps1 & -> & Hx & Hm1 & Hc1).
    replace (pos + length t1 - pos) with (length t1) in Hx by lia.
    rewrite take_app_length in Hx.
    exists t1, s1, prev1, ((g, t1) :: caps1). split; [reflexivity|].
    split; [assumption|]. split; [exact Hm1|].
    intros G [HG HG1] Hcaps. apply Forall_cons.
    split; [exact (HG t1 Hm1) | exact (Hc1 G HG1 Hcaps)].
  - cbn [rmatch] in Hx. exists [], s, prev, caps. split; [reflexivity|].
    rewrite Nat.add_0_r. split; [|split; [by apply matched_by_nil | auto]].
    destruct prev as [c|]; [|assumption].
    destruct (ml && _); [assumption | discriminate].
  - cbn [rmatch] in Hx. destruct s; [|discriminate].
    exists [], [], prev, caps. split; [reflexivity|].
    rewrite Nat.add_0_r. split; [assumption|]. split; [by apply matched_by_nil | auto].
Qed.

Lemma group_ok (G : nat -> str -> Prop) (caps : captures) (n : nat) (g : str) :
  caps_ok G caps -> group caps n = Some g -> G n g.
Proof.
  induction 1 as [|[m t] caps Hc _ IH]; [discriminate|].
  cbn [group]. destruct (Nat.eqb_spec m n) as [<- | Hne]; [|exact IH].
  intros [= <-]. exact Hc.
Qed.

(** A match at the current position: its length is the length of a text
    the pattern matches, which starts the input, and its groups are
    texts their sub-patterns match. *)
Lemma match_here_sound (r : regex) (prev : option ascii) (s : str) (len : nat)
    (caps : captures) :
  match_here r prev s = Some (len, caps) ->
  len <= length s /\ matched_by r (take len s) /\
  forall G, groups_ok G r -> forall n g, group caps n = Some g -> G n g.
Proof.
  unfold match_here. intros Hm.
  apply rmatch_sound in Hm as (t & s' & prev' & caps' & -> & Hk & Hm & Hc).
  injection Hk as <- <-. cbn [Nat.add]. rewrite take_app_length, length_app.
  split; [lia|]. split; [assumption|].
  intros G HG n g Hg. eapply group_ok; [|exact Hg]. apply Hc; [assumption | constructor].
Qed.

Lemma exec_sound (r : regex) (s : str) (m : rmatched) :
  exec r s = Some m ->
  m_text m = take (length (m_text m)) (drop (m_index m) s) /\
  m_index m + length (m_text m) <= length s /\
  matched_by r (m_text m) /\
  forall G, groups_ok G r -> forall n g, grp m n = Some g -> G n g.
Proof.
  unfold exec.
  assert (Hgen : forall pos prev pre,
             pos = length pre ->
             search r pos prev s = Some m ->
             m_text m = take (length (m_text m)) (drop (m_index m) (pre ++ s)) /\
             m_index m + length (m_text m) <= length (pre ++ s) /\
             matched_by r (m_text m) /\
             forall G, groups_ok G r -> forall n g, grp m n = Some g -> G n g).
  { induction s as [|c s IH]; intros pos prev pre Hpos Hs; rewrite search_unfold in Hs.
    - destruct (match_here r prev []) as [[len caps]|] eqn:Hh; [|discriminate].
      injection Hs as <-. cbn [m_text m_index grp m_caps].
      apply match_here_sound in Hh as (Hlen & Hm & Hg).
      rewrite Hpos, drop_app_length, length_take, length_app.
      rewrite Nat.min_l by exact Hlen.
      split; [reflexivity|]. split; [simpl in *; lia|].
      split; assumption.
    - destruct (match_here r prev (c :: s)) as [[len caps]|] eqn:Hh.
      + injection Hs as <-. cbn [m_text m_index grp m_caps].
        apply match_here_sound in Hh as (Hlen & Hm & Hg).
        rewrite Hpos, drop_app_length, length_take, length_app.
        rewrite Nat.min_l by exact Hlen.
        split; [reflexivity|]. split; [lia|].
        split; assumption.
      + specialize (IH (S pos) (Some c) (pre ++ [c])).
        rewrite <- app_assoc in IH. apply IH; [|assumption].
        rewrite length_app. simpl. lia. }
  intros Hs. exact (Hgen 0 None [] eq_refl Hs).
Qed.

Lemma matchAll_sound (r : regex) (s : str) (m : rmatched) :
  m ∈ matchAll r s ->
  m_text m = take (length (m_text m)) (drop (m_index m) s) /\
  m_index m + length (m_text m) <= length s /\
  matched_by r (m_text m) /\
  forall G, groups_ok G r -> forall n g, grp m n = Some g -> G n g.
Proof.
  unfold matchAll.
  assert (Hgen : forall skip pos prev pre,
             pos = length pre ->
             m ∈ matches_from r skip pos prev s ->
             m_text m = take (length (m_text m)) (drop (m_index m) (pre ++ s)) /\
             m_index m + length (m_text m) <= length (pre ++ s) /\
             matched_by r (m_text m) /\
             forall G, groups_ok G r -> forall n g, grp m n = Some g -> G n g).
  { induction s as [|c s IH]; intros skip pos prev pre Hpos Hs; [inversion Hs|].
    assert (Hnext : forall skip',
               m ∈ matches_from r skip' (S pos) (Some c) s ->
               m_text m = take (length (m_text m)) (drop (m_index m) (pre ++ c :: s)) /\
               m_index m + length (m_text m) <= length (pre ++ c :: s) /\
               matched_by r (m_text m) /\
               forall G, groups_ok G r -> forall n g, grp m n = Some g -> G n g).
    { intros skip' Hs'. specialize (IH skip' (S pos) (Some c) (pre ++ [c])).
      rewrite <- app_assoc in IH. apply IH; [|assumption].
      rewrite length_app. simpl. lia. }
    cbn [matches_from] in Hs. destruct skip as [|skip]; [|by eapply Hnext].
    destruct (match_here r prev (c :: s)) as [[[|len] caps]|] eqn:Hh;
      try by eapply Hnext.
    apply elem_of_cons in Hs as [-> | Hs]; [|by eapply Hnext].
    cbn [m_text m_index grp m_caps].
    apply match_here_sound in Hh as (Hlen & Hm & Hg).
    rewrite Hpos, drop_app_length, length_take, length_app.
    rewrite Nat.min_l by exact Hlen.
    split; [reflexivity|]. split; [lia|].
    split; assumption. }
  intros Hs. exact (Hgen 0 0 None [] eq_refl Hs).
Qed.

End MatcherSoundness.

(** *** Equations of the matcher *)

Section MatcherEquations.

Lemma rmatch_seq {R} (r1 r2 : regex) (pos : nat) (prev : option ascii) (s : str)
    (caps : captures) (k : @cont R) :
  rmatch (RSeq r1 r2) pos prev s caps k
  = rmatch r1 pos prev s caps
      (fun pos' prev' s' caps' => rmatch r2 pos' prev' s' caps' k).
Proof. reflexivity. Qed.

Lemma rmatch_char {R} (p : ascii -> bool) (pos : nat) (prev : option ascii) (c : ascii)
    (s : str) (caps : captures) (k : @cont R) :
  rmatch (RChar p) pos prev (c :: s) caps k
  = if p c then k (S pos) (Some c) s caps else None.
Proof. reflexivity. Qed.

Lemma rmatch_char_nil {R} (p : ascii -> bool) (pos : nat) (prev : option ascii)
    (caps : captures) (k : @cont R) :
  rmatch (RChar p) pos prev [] caps k = None.
Proof. reflexivity. Qed.

Lemma rmatch_group {R} (n : nat) (r : regex) (pos : nat) (prev : option ascii) (s : str)
    (caps : captures) (k : @cont R) :
  rmatch (RGroup n r) pos prev s caps k
  = rmatch r pos prev s caps
      (fun pos' prev' s' caps' => k pos' prev' s' ((n, take (pos' - pos) s) :: caps')).
Proof. reflexivity. Qed.

Lemma rmatch_alt {R} (r1 r2 : regex) (pos : nat) (prev : option ascii) (s : str)
    (caps : captures) (k : @cont R) :
  rmatch (RAlt r1 r2) pos prev s caps k
  = match rmatch r1 pos prev s caps k with
    | Some x => Some x
    | None => rmatch r2 pos prev s caps k
    end.
Proof. reflexivity. Qed.

Lemma rmatch_eps {R} (pos : nat) (prev : option ascii) (s : str)
    (caps : captures) (k : @cont R) :
  rmatch REps pos prev s caps k = k pos prev s caps.
Proof. reflexivity. Qed.

(** A greedy repetition of a class that meets its end: the characters of
    the class are consumed and the continuation is tried there first. *)
Lemma star_class_cont {R} (p : ascii -> bool) (t s' : str) (pos : nat)
    (prev : option ascii) (caps : captures) (k : @cont R) (x : R) :
  forallb p t = true ->
  (forall d, head s' = Some d -> p d = false) ->
  (forall prev', k (pos + length t) prev' s' caps = Some x) ->
  rmatch (RStar (RChar p)) pos prev (t ++ s') caps k = Some x.
Proof.
  intros Ht Hs' Hk. simpl.
  assert (Hn : length t <= length (t ++ s')) by (rewrite length_app; lia).
  revert Hn. generalize (length (t ++ s')). intros n. revert pos prev n Hk.
  induction t as [|c t IH]; intros pos prev n Hk Hn.
  - rewrite Nat.add_0_r in Hk. destruct n as [|n]; [apply Hk|].
    cbn [app]. destruct s' as [|d s']; [apply Hk|].
    rewrite (Hs' d eq_refl). apply Hk.
  - destruct n as [|n]; [simpl in Hn; lia|].
    cbn [app]. apply andb_true_iff in Ht as [Hc Ht]. rewrite Hc.
    rewrite succ_eqb_self. rewrite IH; [reflexivity | assumption | | simpl in Hn; lia].
    intros prev'. rewrite <- (Hk prev'). f_equal. simpl. lia.
Qed.

End MatcherEquations.

(** Splits the conjunctions of a statement on the groups of a pattern. *)
Ltac split_groups :=
  repeat match goal with
         | |- _ /\ _ => split
         | |- True => exact I
         end.


(** *** File lists *)

Section FileLists.

Lemma startsWith_spec (s p : str) :
  startsWith s p = true <-> exists t, s = p ++ t.
Proof.
  revert s. induction p as [|a p IH]; intros s.
  - destruct s; simpl; split; eauto.
  - destruct s as [|b s]; simpl.
    + split; [discriminate | intros [t [=]]].
    + rewrite andb_true_iff, Ascii.eqb_eq, IH. split.
      * intros [-> [t ->]]. eauto.
      * intros [t [= -> ->]]. eauto.
Qed.

Lemma includes_spec (s sub : str) :
  includes s sub = true <-> exists pre post, s = pre ++ sub ++ post.
Proof.
  induction s as [|c s IH].
  - cbn [includes]. rewrite orb_false_r, startsWith_spec. split.
    + intros [t Ht]. exists [], t. exact Ht.
    + intros (pre & post & H). destruct pre; [|discriminate]. eauto.
  - cbn [includes]. rewrite orb_true_iff, startsWith_spec, IH. split.
    + intros [[t Ht] | (pre & post & ->)].
      * exists [], t. exact Ht.
      * exists (c :: pre), post. reflexivity.
    + intros ([|d pre] & post & H).
      * left. eauto.
      * injection H as -> ->. right. eauto.
Qed.


(** File discovery *)

Lemma flat_map_sublist {A B} (f g : A -> list B) (l : list A) :
  Forall (fun x => f x `sublist_of` g x) l ->
  flat_map f l `sublist_of` flat_map g l.
Proof.
  induction 1 as [|x l Hx _ IH]; [constructor|].
  simpl. by apply sublist_app.
Qed.

Lemma goFilesOfItem_sublist (item : entry) :
  forall dir, goFilesOfItem dir item `sublist_of` goFilesOfItem' dir item.
Proof.
  induction item as [name content | name listable items IH | name]
    using entry_nested_ind; intros dir.
  - reflexivity.
  - cbn [goFilesOfItem goFilesOfItem'].
    destruct (negb (startsWith name (js ".")) && negb (str_eqb name (js "vendor")));
      cbn [andb]; [|constructor].
    destruct (negb (str_eqb name (js "node_modules"))); [|apply sublist_nil_l].
    destruct listable; [|constructor].
    apply flat_map_sublist. eapply Forall_impl; [exact IH|]. intros x Hx. apply Hx.
  - constructor.
Qed.

Lemma goFilesOfItem'_below (item : entry) :
  forall dir path, path ∈ goFilesOfItem' dir item -> exists t, path = dir ++ js "/" ++ t.
Proof.
  induction item as [name content | name listable items IH | name]
    using entry_nested_ind; intros dir path.
  - cbn [goFilesOfItem']. destruct (_ && _); [|intros H; inversion H].
    intros ->%list_elem_of_singleton. exists name. reflexivity.
  - cbn [goFilesOfItem']. destruct (_ && _); [|intros H; inversion H].
    destruct listable; [|intros H; inversion H].
    intros (item & Hpath & Hin)%list_elem_of_In%in_flat_map.
    rewrite Forall_forall in IH. apply list_elem_of_In in Hpath, Hin.
    destruct (IH item Hpath _ _ Hin) as [t ->].
    unfold path_join. exists (name ++ js "/" ++ t). rewrite <- !app_assoc. reflexivity.
  - intros H; inversion H.
Qed.

Lemma goFilesOfItem'_extra (item : entry) :
  forall dir path,
    path ∈ goFilesOfItem' dir item ->
    path ∈ goFilesOfItem dir item \/ includes path (js "/node_modules/") = true.
Proof.
  induction item as [name content | name listable items IH | name]
    using entry_nested_ind; intros dir path.
  - auto.
  - cbn [goFilesOfItem goFilesOfItem'].
    destruct (negb (startsWith name (js ".")) && negb (str_eqb name (js "vendor")));
      cbn [andb]; [|auto].
    destruct listable; [|destruct (negb _); auto].
    intros (item & Hitem & Hin)%list_elem_of_In%in_flat_map.
    apply list_elem_of_In in Hitem, Hin.
    destruct (str_eqb name (js "node_modules")) eqn:Hnm; cbn [negb].
    + right. unfold str_eqb in Hnm. apply bool_decide_eq_true in Hnm as ->.
      destruct (goFilesOfItem'_below item _ _ Hin) as [t ->].
      apply includes_spec. exists dir, t. unfold path_join.
      rewrite <- !app_assoc. reflexivity.
    + rewrite Forall_forall in IH. destruct (IH item Hitem _ _ Hin) as [H | H]; [|by right].
      left. apply list_elem_of_In, in_flat_map. exists item.
      split; by apply list_elem_of_In.
  - auto.
Qed.

(** X2: the files route discovery scans ([getGoFilesRecursive]) are, in the
    same order, among the files the call-graph analysis scans
    ([getGoFiles]); and a file that only the second one lists lies below a
    directory node_modules. *)
Theorem route_scan_files_among_symbol_files (p : project) :
  getGoFilesRecursive p `sublist_of` getGoFiles p /\
  forall path, path ∈ getGoFiles p ->
               path ∈ getGoFilesRecursive p \/ includes path (js "/node_modules/") = true.
Proof.
  unfold getGoFilesRecursive, getGoFiles. destruct (rootListable p).
  - split.
    + apply flat_map_sublist, Forall_forall. intros item _. apply goFilesOfItem_sublist.
    + intros path (item & Hitem & Hin)%list_elem_of_In%in_flat_map.
      apply list_elem_of_In in Hitem, Hin.
      destruct (goFilesOfItem'_extra item _ _ Hin) as [H | H]; [|by right].
      left. apply list_elem_of_In, in_flat_map. exists item.
      split; by apply list_elem_of_In.
  - split; [constructor | intros path H; inversion H].
Qed.

Lemma listed_item_on_disk (dir : str) (item : entry) (path : str) :
  listed_item dir item path ->
  exists name content,
    (path, content) ∈ files_of dir item /\ is_go_source name = true /\
    exists parent, path = path_join parent name /\ startsWith parent dir = true.
Proof.
  induction 1 as [dir name content Hgo | dir name items item path Hskip Hin _ IH].
  - exists name, content. split; [by left|]. split; [assumption|].
    exists dir. split; [reflexivity|]. apply startsWith_spec. exists []. by rewrite app_nil_r.
  - destruct IH as (n & c & Hf & Hgo & parent & -> & Hp). exists n, c.
    split.
    + cbn [files_of]. apply list_elem_of_In, in_flat_map. exists item.
      split; by apply list_elem_of_In.
    + split; [assumption|]. exists parent. split; [reflexivity|].
      apply startsWith_spec in Hp as [t ->]. apply startsWith_spec.
      unfold path_join. exists (js "/" ++ name ++ t). rewrite <- !app_assoc. reflexivity.
Qed.

(** X1: [getGoFilesRecursive] returns exactly the paths of the Go source
    files that are not test files and are reached from the project
    directory through listable directories whose names do not start with a
    dot and are not vendor or node_modules.  Every path returned is a file
    of the disk below the project directory, with a name that ends in .go
    and not in _test.go. *)
Theorem discovered_files_are_go_sources (p : project) (path : str) :
  (path ∈ getGoFilesRecursive p <->
   rootListable p = true /\
   exists item, item ∈ rootItems p /\ listed_item (projectPath p) item path) /\
  (path ∈ getGoFilesRecursive p ->
   exists parent name content,
     path = path_join parent name /\ startsWith parent (projectPath p) = true /\
     endsWith name (js ".go") = true /\ endsWith name (js "_test.go") = false /\
     (path, content) ∈ all_files p).
Proof.
  split; [apply getGoFilesRecursive_spec|].
  intros (_ & item & Hitem & Hl)%getGoFilesRecursive_spec.
  destruct (listed_item_on_disk _ _ _ Hl) as (name & content & Hf & Hgo & parent & -> & Hp).
  exists parent, name, content. split; [reflexivity|]. split; [assumption|].
  unfold is_go_source in Hgo. apply andb_true_iff in Hgo as [H1 H2].
  split; [assumption|]. split; [by apply negb_true_iff|].
  unfold all_files. apply list_elem_of_In, in_flat_map. exists item.
  split; by apply list_elem_of_In.
Qed.

End FileLists.

(** *** Unreadable files *)

Section Unreadables.

Lemma collectRoutes_None (p : project) (goFiles : list str) :
  collectRoutes p goFiles = None <->
  exists f, f ∈ goFiles /\ readFileSync p f = None.
Proof.
  induction goFiles as [|f goFiles IH]; simpl.
  - split; [discriminate | intros (f & H & _); inversion H].
  - destruct (readFileSync p f) as [content|] eqn:Hread; simpl.
    + destruct (collectRoutes p goFiles) as [more|]; simpl.
      * split; [discriminate|]. intros (g & [-> | Hg]%elem_of_cons & Hnone); [congruence|].
        destruct IH as [_ IH]. discriminate IH. eauto.
      * split; [|reflexivity]. intros _.
        destruct IH as [IH _]. destruct (IH eq_refl) as (g & Hg & Hnone).
        exists g. split; [by right | assumption].
    + split; [|reflexivity]. intros _. exists f. split; [by left | assumption].
Qed.

Lemma collectGraph_Thrown (p : project) (goFiles : list str) (g : GoUtils.CallGraph) :
  GoUtils.collectGraph p goFiles g = Thrown <->
  exists f, f ∈ goFiles /\ readFileSync p f = None.
Proof.
  revert g. induction goFiles as [|f goFiles IH]; intros g; cbn [GoUtils.collectGraph].
  - split; [discriminate | intros (f & H & _); inversion H].
  - destruct (readFileSync p f) as [content|] eqn:Hread; cbn.
    + rewrite IH. split.
      * intros (x & Hx & Hnone). exists x. split; [by right | assumption].
      * intros (x & [-> | Hx]%elem_of_cons & Hnone); [congruence | eauto].
    + split; [|reflexivity]. intros _. exists f. split; [by left | assumption].
Qed.

(** X7: the project-wide scans that read every discovered file without a
    [try]: route discovery throws exactly when one of the files it
    discovers cannot be read, and the call-graph analysis throws exactly
    when one of the files [getGoFiles] lists cannot be read. *)
Theorem scans_throw_on_unreadable_file (p : project) :
  (discoverAPIRoutesInternal p = None <->
   exists f, f ∈ getGoFilesRecursive p /\ readFileSync p f = None) /\
  (GoUtils.analyzeCallGraph p = Thrown <->
   exists f, f ∈ getGoFiles p /\ readFileSync p f = None).
Proof.
  split.
  - unfold discoverAPIRoutesInternal. rewrite <- collectRoutes_None.
    destruct (collectRoutes p (getGoFilesRecursive p)); cbn; split; intros H;
      solve [inversion H | reflexivity].
  - unfold GoUtils.analyzeCallGraph.
    rewrite <- (collectGraph_Thrown p _ {| GoUtils.functions := []; GoUtils.calls := [] |}).
    destruct (GoUtils.collectGraph p (getGoFiles p) _); cbn; split; intros H;
      solve [inversion H | reflexivity].
Qed.

Section Definitions.
Context {host : RegExpHost}.
Import Flow.

Lemma findInGoFiles_readable (p : project) (name : str) (goFiles : list str) :
  findInGoFiles p name goFiles
  = findInGoFiles p name (filter (fun f => is_Some (readFileSync p f)) goFiles).
Proof.
  induction goFiles as [|f goFiles IH]; [reflexivity|].
  rewrite filter_cons. destruct (decide (is_Some (readFileSync p f))) as [Hs | Hn].
  - cbn [findInGoFiles]. rewrite IH. reflexivity.
  - cbn [findInGoFiles]. destruct (readFileSync p f); [exfalso; apply Hn; eauto|].
    cbn. exact IH.
Qed.

(** X8: [findFunctionDefinition] passes over the files that cannot be read:
    it finds what it would find if only the readable files had been
    discovered. *)
Theorem definition_lookup_skips_unreadable (p : project) (functionName : str) :
  findFunctionDefinition p functionName
  = findInGoFiles p functionName
      (filter (fun f => is_Some (readFileSync p f)) (getGoFilesRecursive p)).
Proof. apply findInGoFiles_readable. Qed.

End Definitions.

End Unreadables.

(** *** Searching a file by name *)

Section FileSearch.

Lemma firstSome_Some {A B} (f : A -> option B) (l : list A) (y : B) :
  firstSome f l = Some y -> exists x, x ∈ l /\ f x = Some y.
Proof.
  induction l as [|x l IH]; [discriminate|]. cbn.
  destruct (f x) as [y'|] eqn:Hx.
  - intros [= <-]. exists x. split; [by left | assumption].
  - intros (x' & Hin & Hy)%IH. exists x'. split; [by right | assumption].
Qed.

Lemma firstSome_None {A B} (f : A -> option B) (l : list A) :
  firstSome f l = None <-> forall x, x ∈ l -> f x = None.
Proof.
  induction l as [|x l IH]; cbn.
  - split; [intros _ x H; inversion H | reflexivity].
  - destruct (f x) as [y|] eqn:Hx.
    + split; [discriminate|]. intros H. rewrite <- Hx. apply H. by left.
    + rewrite IH. split.
      * intros H x' [-> | Hin]%elem_of_cons; auto.
      * intros H x' Hin. apply H. by right.
Qed.

Lemma findFileInItem_sound (fileName : str) (item : entry) :
  forall dir path,
    findFileInItem fileName dir item = Some path -> found_item fileName dir item path.
Proof.
  induction item as [name content | name listable items IH | name]
    using entry_nested_ind; intros dir path.
  - cbn [findFileInItem]. unfold str_eqb. case_bool_decide as Hn; [|discriminate].
    intros [= <-]. subst. constructor.
  - cbn [findFileInItem]. rewrite skipped_spec.
    destruct (skipped name) eqn:Hskip; cbn [negb]; [discriminate|].
    destruct listable; [|discriminate].
    intros (item & Hin & Hitem)%firstSome_Some.
    rewrite Forall_forall in IH. econstructor; [assumption | exact Hin | by apply IH].
  - discriminate.
Qed.

Lemma findFileInItem_complete (fileName : str) (dir : str) (item : entry) (path : str) :
  found_item fileName dir item path -> is_Some (findFileInItem fileName dir item).
Proof.
  induction 1 as [dir content | dir name items item path Hskip Hin _ IH].
  - cbn [findFileInItem]. unfold str_eqb. rewrite bool_decide_eq_true_2 by reflexivity.
    by eexists.
  - cbn [findFileInItem]. rewrite skipped_spec, Hskip. cbn [negb].
    destruct (firstSome _ items) as [y|] eqn:Hf; [by eexists|].
    rewrite firstSome_None in Hf. rewrite (Hf item Hin) in IH. by destruct IH.
Qed.

Lemma found_item_listed (fileName dir : str) (item : entry) (path : str) :
  found_item fileName dir item path ->
  path ∈ allFilesOfItem dir item /\
  (exists parent, path = path_join parent fileName) /\
  (is_go_source fileName = true -> path ∈ goFilesOfItem dir item).
Proof.
  induction 1 as [dir content | dir name items item path Hskip Hin _ (IH1 & IH2 & IH3)].
  - split; [by left|]. split; [by eexists|]. intros Hgo.
    cbn [goFilesOfItem]. fold (is_go_source fileName). rewrite Hgo. by left.
  - split; [|split; [assumption|]].
    + cbn [allFilesOfItem]. apply list_elem_of_In, in_flat_map. exists item.
      split; by apply list_elem_of_In.
    + intros Hgo. cbn [goFilesOfItem]. rewrite skipped_spec, Hskip. cbn [negb].
      apply list_elem_of_In, in_flat_map. exists item.
      split; apply list_elem_of_In; auto.
Qed.

(** X13: [findFileRecursive] returns only the path of a file of the name
    asked for that is reached through listable directories that are not
    skipped, and it returns nothing exactly when the directory cannot be
    listed or holds no such file; the path found is among the files
    [getAllFiles] lists, and for the name of a Go source file it is among
    the files route discovery scans. *)
Theorem file_search_finds_listed_file (p : project) (fileName : str) :
  (forall path,
      findFileRecursive p fileName = Some path ->
      (exists item, item ∈ rootItems p /\
                    found_item fileName (projectPath p) item path) /\
      (exists parent, path = path_join parent fileName) /\
      path ∈ getAllFiles p /\
      (is_go_source fileName = true -> path ∈ getGoFilesRecursive p)) /\
  (findFileRecursive p fileName = None <->
   rootListable p = false \/
   forall item path, item ∈ rootItems p ->
                     ~ found_item fileName (projectPath p) item path).
Proof.
  unfold findFileRecursive, getAllFiles, getGoFilesRecursive.
  destruct (rootListable p); [|split; [discriminate | split; auto]].
  split.
  - intros path (item & Hin & Hitem)%firstSome_Some.
    apply findFileInItem_sound in Hitem.
    destruct (found_item_listed _ _ _ _ Hitem) as (H1 & H2 & H3).
    split; [eauto|]. split; [assumption|]. split.
    + apply list_elem_of_In, in_flat_map. exists item. split; by apply list_elem_of_In.
    + intros Hgo. apply list_elem_of_In, in_flat_map. exists item.
      split; apply list_elem_of_In; auto.
  - rewrite firstSome_None. split.
    + intros Hnone. right. intros item path Hin Hfound.
      apply findFileInItem_complete in Hfound. rewrite (Hnone item Hin) in Hfound.
      by destruct Hfound.
    + intros [? | Hnone]; [discriminate|]. intros item Hin.
      destruct (findFileInItem fileName (projectPath p) item) as [path|] eqn:Hf;
        [|reflexivity].
      exfalso. apply findFileInItem_sound in Hf. by apply (Hnone item path).
Qed.

End FileSearch.

(** *** Clean paths *)

Section CleanPath.

(** cleanPath *)

Lemma run_drop_head (P : ascii -> bool) (s : str) (c : ascii) :
  head (drop (run P s) s) = Some c -> P c = false.
Proof.
  induction s as [|d s IH]; [discriminate|].
  simpl run. destruct (P d) eqn:Hd; [exact IH|].
  simpl. intros [= <-]. exact Hd.
Qed.


Lemma head_removelast {A} (x y : A) (l : list A) :
  head (removelast (x :: y :: l)) = Some x.
Proof. reflexivity. Qed.



Lemma ends_slash_cons (c d : ascii) (q : str) :
  ends_slash (c :: d :: q) = ends_slash (d :: q).
Proof. reflexivity. Qed.

Lemma ends_slash_drop (n : nat) (s : str) :
  drop n s <> [] -> ends_slash (drop n s) = ends_slash s.
Proof.
  revert s. induction n as [|n IH]; intros s; [reflexivity|].
  destruct s as [|c s]; [done|]. simpl drop. intros Hne.
  rewrite IH by assumption. destruct s as [|d s].
  - rewrite drop_nil in Hne. done.
  - symmetry. apply ends_slash_cons.
Qed.





End CleanPath.

(** *** The alphabet of route identifiers *)

Section RouteIdAlphabet.

(** of_nat *)

Lemma string_of_uint_digits (d : Decimal.uint) :
  forallb is_digit (js (NilEmpty.string_of_uint d)) = true.
Proof. induction d; simpl; try reflexivity; exact IHd. Qed.

Lemma of_nat_digits (n : nat) : forallb is_digit (of_nat n) = true.
Proof. apply string_of_uint_digits. Qed.

Lemma of_nat_inj (n m : nat) : of_nat n = of_nat m -> n = m.
Proof.
  unfold of_nat, js. intros H.
  apply (f_equal string_of_list_ascii) in H.
  rewrite !string_of_list_ascii_of_string in H.
  apply (f_equal NilEmpty.uint_of_string) in H.
  rewrite !NilEmpty.usu in H. injection H as H.
  apply (f_equal Nat.of_uint) in H. by rewrite !DecimalNat.Unsigned.of_to in H.
Qed.

Lemma is_digit_w (c : ascii) : is_digit c = true -> is_w c = true.
Proof. unfold is_w. intros ->. by rewrite !orb_true_r. Qed.

(** squeeze *)

Lemma squeeze_true_head (s : str) : head (squeeze true s) <> Some "-"%char.
Proof.
  unfold squeeze. induction s as [|c s IH]; [done|].
  simpl. destruct (is_hyphen c) eqn:Hc; [exact IH|].
  simpl. intros [= ->]. discriminate.
Qed.

Lemma startsWith_hyphens (s : str) :
  startsWith s (js "--") =
  match s with
  | x :: d :: _ => Ascii.eqb "-" x && Ascii.eqb "-" d
  | _ => false
  end.
Proof.
  destruct s as [|x [|d t]]; cbn [startsWith js list_ascii_of_string];
    rewrite ?andb_true_r, ?andb_false_r; try reflexivity.
  destruct t; cbn [startsWith]; by rewrite andb_true_r.
Qed.

Lemma squeeze_no_double (b : bool) (s : str) :
  includes (squeeze b s) (js "--") = false.
Proof.
  revert b. unfold squeeze. induction s as [|c s IH]; intros b; [reflexivity|].
  cbn [collapse]. destruct (is_hyphen c) eqn:Hc.
  - destruct b; [apply IH|].
    change (js "-" ++ ?x) with ("-"%char :: x).
    cbn [includes]. rewrite IH, orb_false_r, startsWith_hyphens.
    pose proof (squeeze_true_head s) as Hh. unfold squeeze in Hh.
    destruct (collapse is_hyphen (js "-") true s) as [|d t]; [reflexivity|].
    destruct (Ascii.eqb_spec "-"%char d) as [<-|]; [by destruct Hh|].
    apply andb_false_r.
  - cbn [includes]. rewrite IH, orb_false_r, startsWith_hyphens.
    unfold is_hyphen in Hc. rewrite Hc.
    destruct (collapse _ _ _ _); reflexivity.
Qed.

Lemma squeeze_Forall (P : ascii -> bool) (b : bool) (s : str) :
  forallb P s = true -> forallb P (squeeze b s) = true.
Proof.
  revert b. unfold squeeze. induction s as [|c s IH]; intros b; [reflexivity|].
  simpl. intros [Hc Hs]%andb_true_iff. destruct (is_hyphen c) eqn:Hh.
  - destruct b; [by apply IH|]. simpl.
    unfold is_hyphen in Hh. apply Ascii.eqb_eq in Hh as <-. rewrite Hc. by apply IH.
  - simpl. rewrite Hc. by apply IH.
Qed.

Lemma hyphenate_id_chars (s : str) : forallb id_char (flat_map hyphenate s) = true.
Proof.
  induction s as [|c s IH]; [reflexivity|].
  simpl. rewrite forallb_app, IH, andb_true_r. unfold hyphenate.
  destruct (is_w c) eqn:Hc; simpl; [|reflexivity]. unfold id_char. by rewrite Hc.
Qed.

Lemma lower_char_w (c : ascii) : is_w c = true -> is_w (lower_char c) = true.
Proof. destruct c as [[] [] [] [] [] [] [] []]; simpl; intros H; try reflexivity; discriminate. Qed.

Lemma forallb_weaken {A} (P Q : A -> bool) (l : list A) :
  (forall x, P x = true -> Q x = true) -> forallb P l = true -> forallb Q l = true.
Proof.
  intros HPQ. induction l as [|x l IH]; [reflexivity|].
  simpl. intros [Hx Hl]%andb_true_iff. by rewrite (HPQ x Hx), IH.
Qed.

Lemma routeId_squeeze (m p h f : str) (line : nat) :
  generateStableRouteId m p h f line
  = squeeze false (toLowerCase m ++ js "-" ++ flat_map hyphenate p ++ js "-" ++
                   flat_map hyphenate h ++ js "-" ++ flat_map hyphenate f ++ js "-" ++
                   of_nat line).
Proof.
  unfold generateStableRouteId, re_hyphens, re_nonword, chr.
  rewrite !replace_all_plus_class, !replace_all_class. reflexivity.
Qed.

(** X4: an identifier built by [generateStableRouteId] never holds two
    hyphens in a row, and for a method made of word characters it is made
    of word characters and hyphens only, whatever the path, the handler and
    the file. *)
Theorem route_id_alphabet (method path handler file : str) (line : nat) :
  includes (generateStableRouteId method path handler file line) (js "--") = false /\
  (forallb is_w method = true ->
   forallb (fun c => is_w c || Ascii.eqb "-" c)
     (generateStableRouteId method path handler file line) = true).
Proof.
  rewrite routeId_squeeze. split; [apply squeeze_no_double|].
  intros Hm. apply (squeeze_Forall id_char).
  rewrite !forallb_app, !hyphenate_id_chars.
  change (forallb id_char (js "-")) with true. cbn [andb].
  apply andb_true_iff. split.
  - unfold toLowerCase. rewrite forallb_forall in Hm.
    apply forallb_forall. intros c (d & <- & Hd)%in_map_iff.
    unfold id_char. rewrite lower_char_w; [reflexivity | by apply Hm].
  - apply (forallb_weaken is_digit); [|apply of_nat_digits].
    intros c Hc. unfold id_char. by rewrite is_digit_w.
Qed.

(** X4: an example. *)
Lemma route_id_alphabet_witness :
  forallb is_w (js "GET") = true /\
  forallb (fun c => is_w c || Ascii.eqb "-" c)
    (generateStableRouteId (js "GET") (js "/api/v1/users/{id}") (js "h.GetUser")
       (js "internal/http/router.go") 42) = true.
Proof.
  split; [reflexivity|].
  apply (route_id_alphabet (js "GET") (js "/api/v1/users/{id}") (js "h.GetUser")
           (js "internal/http/router.go") 42).
  reflexivity.
Defined.

End RouteIdAlphabet.

(** *** The fields of a discovered route *)

Section RouteFields.

Lemma split_cons_length (sep c : ascii) (s : str) :
  length (split sep (c :: s)) =
  if Ascii.eqb c sep then S (length (split sep s)) else length (split sep s).
Proof.
  cbn [split]. destruct (Ascii.eqb c sep); [reflexivity|].
  destruct s as [|d s]; [reflexivity|].
  destruct (split sep (d :: s)) eqn:Hs; [|reflexivity].
  exfalso. cbn [split] in Hs. destruct (Ascii.eqb d sep); [discriminate|].
  destruct (split sep s); discriminate.
Qed.

Lemma split_length_pos (sep : ascii) (s : str) : 1 <= length (split sep s).
Proof.
  induction s as [|c s IH]; [reflexivity|].
  rewrite split_cons_length. destruct (Ascii.eqb c sep); lia.
Qed.

Lemma split_take_length (sep : ascii) (n : nat) (s : str) :
  length (split sep (take n s)) <= length (split sep s).
Proof.
  revert n. induction s as [|c s IH]; intros n.
  - by rewrite take_nil.
  - destruct n as [|n]; [apply split_length_pos|].
    cbn [take]. rewrite !split_cons_length. specialize (IH n).
    destruct (Ascii.eqb c sep); lia.
Qed.

Lemma lineNumberAt_range (content : str) (index : nat) :
  1 <= lineNumberAt content index <= length (split nl content).
Proof.
  unfold lineNumberAt, substring. rewrite Nat.min_0_l, Nat.max_0_l, Nat.sub_0_r, drop_0.
  split; [apply split_length_pos | apply split_take_length].
Qed.

Lemma upper_upper_char (c : ascii) : upper_char (upper_char c) = upper_char c.
Proof. destruct c as [[] [] [] [] [] [] [] []]; reflexivity. Qed.

Lemma upper_upper (s : str) : toUpperCase (toUpperCase s) = toUpperCase s.
Proof.
  unfold toUpperCase. rewrite <- list_fmap_compose.
  apply list_fmap_ext. intros _ c _. apply upper_upper_char.
Qed.

Lemma parseRouteMatch_fields (m : rmatched) (ft : framework) (content rel : str)
    (lines : list str) (r : APIRoute) :
  parseRouteMatch m ft content rel lines = Some r ->
  handlerFile r = rel /\ handlerLine r = lineNumberAt content (m_index m) /\
  toUpperCase (method r) = method r /\ head (path r) = Some "/"%char.
Proof.
  unfold parseRouteMatch.
  destruct (match ft with Mux => _ | _ => _ end) as [[m0 p0] h0].
  destruct m0 as [m0|], h0 as [h0|], p0 as [p0|]; simpl; try discriminate.
  intros [= <-]. cbn [handlerFile handlerLine method path].
  split; [reflexivity|]. split; [reflexivity|]. split; [apply upper_upper|].
  rewrite cleanPath_spec. reflexivity.
Qed.

Lemma collectRoutes_elem (p : project) (goFiles : list str) (scanned : list APIRoute)
    (r : APIRoute) :
  collectRoutes p goFiles = Some scanned -> r ∈ scanned ->
  exists filePath content,
    filePath ∈ goFiles /\ readFileSync p filePath = Some content /\
    r ∈ discoverRoutesInFile content (relativeTo (projectPath p) filePath).
Proof.
  revert scanned. induction goFiles as [|f goFiles IH]; intros scanned; simpl.
  - intros [= <-] H. inversion H.
  - destruct (readFileSync p f) as [content|] eqn:Hread; [|discriminate]. simpl.
    destruct (collectRoutes p goFiles) as [more|]; [|discriminate]. simpl.
    intros [= <-] [Hr | Hr]%elem_of_app.
    + exists f, content. split; [by left|]. split; assumption.
    + destruct (IH more eq_refl Hr) as (f' & c' & Hin & Hread' & Hr').
      exists f', c'. split; [by right|]. split; assumption.
Qed.

(** X5: every route that route discovery returns comes from a discovered
    file that was read: its file is the path of that file relative to the
    project, its line is the number of a line of that file, its method
    holds no lower-case letter and its path starts with a slash. *)
Theorem discovered_routes_well_formed (p : project) (routes : list APIRoute)
    (r : APIRoute) :
  discoverAPIRoutesInternal p = Some routes -> r ∈ routes ->
  exists filePath content,
    filePath ∈ getGoFilesRecursive p /\ readFileSync p filePath = Some content /\
    handlerFile r = relativeTo (projectPath p) filePath /\
    1 <= handlerLine r <= length (split nl content) /\
    toUpperCase (method r) = method r /\
    head (path r) = Some "/"%char.
Proof.
  unfold discoverAPIRoutesInternal.
  destruct (collectRoutes p (getGoFilesRecursive p)) as [scanned|] eqn:Hs; [|discriminate].
  intros [= <-] Hr. apply uniqueRoutes_subseteq in Hr.
  destruct (collectRoutes_elem _ _ _ _ Hs Hr) as (f & content & Hf & Hread & Hin).
  exists f, content. split; [assumption|]. split; [assumption|].
  unfold discoverRoutesInFile in Hin.
  apply list_elem_of_In, in_flat_map in Hin as ([re ft] & _ & Hin).
  apply list_elem_of_In, list_elem_of_omap in Hin as (m & _ & Hm).
  apply parseRouteMatch_fields in Hm as (H1 & H2 & H3 & H4).
  split; [assumption|]. split; [rewrite H2; apply lineNumberAt_range|].
  split; assumption.
Qed.

Import Examples.

(** X5: an example. *)
Lemma discovered_routes_well_formed_witness :
  exists filePath content,
    filePath ∈ getGoFilesRecursive (single_file router_line) /\
    readFileSync (single_file router_line) filePath = Some content /\
    js "main.go" = relativeTo (js "/proj") filePath /\
    1 <= 1 <= length (split nl content) /\
    toUpperCase (js "GET") = js "GET" /\
    head (js "/users") = Some "/"%char.
Proof.
  refine (discovered_routes_well_formed (single_file router_line) _
            {| id := js "get-users-GetUsersHandler-main-go-1";
               method := js "GET"; path := js "/users";
               handler := js "GetUsersHandler"; handlerFile := js "main.go";
               handlerLine := 1; codeSnippet := router_line |} _ _).
  - vm_compute. reflexivity.
  - left.
Defined.

End RouteFields.

(** *** Deduplication *)

Section DedupAlgebra.

Lemma firstSeen_again (seen : list (str * str)) (routes : list APIRoute) :
  firstSeen seen (firstSeen seen routes) = firstSeen seen routes.
Proof.
  revert seen. induction routes as [|r routes IH]; intros seen; [reflexivity|].
  cbn [firstSeen]. case_bool_decide as Hr; [apply IH|].
  cbn [firstSeen]. rewrite bool_decide_eq_false_2 by assumption.
  f_equal. apply IH.
Qed.

Lemma firstSeen_sublist (seen : list (str * str)) (routes : list APIRoute) :
  firstSeen seen routes `sublist_of` routes.
Proof.
  revert seen. induction routes as [|r routes IH]; intros seen; [constructor|].
  cbn [firstSeen]. case_bool_decide.
  - apply sublist_cons, IH.
  - apply sublist_skip, IH.
Qed.

Lemma firstSeen_all (seen : list (str * str)) (routes : list APIRoute) :
  NoDup (endpoint <$> routes) -> (forall r, r ∈ routes -> endpoint r ∉ seen) ->
  firstSeen seen routes = routes.
Proof.
  revert seen. induction routes as [|r routes IH]; intros seen Hnd Hseen; [reflexivity|].
  cbn [firstSeen]. rewrite bool_decide_eq_false_2 by (apply Hseen; by left).
  f_equal. rewrite fmap_cons in Hnd. apply NoDup_cons in Hnd as [Hr Hnd].
  apply IH; [assumption|]. intros x Hx [Heq | Hin]%elem_of_cons.
  - apply Hr. rewrite <- Heq. apply list_elem_of_fmap. eauto.
  - apply (Hseen x); [by right | assumption].
Qed.

Lemma firstSeen_app (seen : list (str * str)) (xs ys : list APIRoute) :
  firstSeen seen (xs ++ ys)
  = firstSeen seen xs ++ firstSeen ((endpoint <$> xs) ++ seen) ys.
Proof.
  revert seen. induction xs as [|r xs IH]; intros seen; [reflexivity|].
  rewrite fmap_cons. cbn [app firstSeen]. case_bool_decide as Hr.
  - rewrite IH. f_equal. apply firstSeen_ext. intros k.
    rewrite elem_of_cons, !elem_of_app. split; [tauto|].
    intros [-> | H]; [by right | assumption].
  - cbn [app]. f_equal. rewrite IH. f_equal. apply firstSeen_ext. intros k.
    rewrite elem_of_cons, !elem_of_app, elem_of_cons. tauto.
Qed.

Lemma firstSeen_endpoints (seen : list (str * str)) (xs : list APIRoute) (k : str * str) :
  k ∈ (endpoint <$> firstSeen seen xs) ++ seen <-> k ∈ (endpoint <$> xs) ++ seen.
Proof.
  rewrite !elem_of_app. split.
  - intros [(r & -> & Hr)%list_elem_of_fmap | H]; [|by right].
    left. apply list_elem_of_fmap. exists r. split; [reflexivity|].
    eapply elem_of_sublist; [exact Hr | apply firstSeen_sublist].
  - intros [(r & -> & Hr)%list_elem_of_fmap | H]; [|by right].
    destruct (decide (endpoint r ∈ seen)) as [Hin | Hnot]; [by right|].
    destruct (firstSeen_covers seen xs r Hr Hnot) as (r' & Hr' & <-).
    left. apply list_elem_of_fmap. eauto.
Qed.

(** X6: the filter of [discoverAPIRoutesInternal] keeps the order of the
    routes; filtering a second time changes nothing; a list is returned
    unchanged exactly when its (method, path) pairs are distinct; and
    filtering the routes of two scans together gives what filtering the
    second scan after the filtered first gives. *)
Theorem dedup_idempotent (routes more : list APIRoute) :
  uniqueRoutes routes `sublist_of` routes /\
  uniqueRoutes (uniqueRoutes routes) = uniqueRoutes routes /\
  (NoDup (endpoint <$> routes) <-> uniqueRoutes routes = routes) /\
  uniqueRoutes (uniqueRoutes routes ++ more) = uniqueRoutes (routes ++ more).
Proof.
  rewrite !uniqueRoutes_firstSeen.
  split; [apply firstSeen_sublist|]. split; [apply firstSeen_again|]. split.
  - split.
    + intros Hnd. apply firstSeen_all; [assumption|]. intros r _ H. inversion H.
    + intros <-. apply firstSeen_NoDup.
  - rewrite !firstSeen_app, firstSeen_again. f_equal.
    apply firstSeen_ext, firstSeen_endpoints.
Qed.

End DedupAlgebra.

(** *** Call resolution *)

Section Resolution.
Import GoUtils.

Lemma last_cons_or {A} (x : A) (l : list A) :
  last (x :: l) = match last l with Some y => Some y | None => Some x end.
Proof. destruct l as [|y l]; [reflexivity|]. rewrite last_cons. by destruct (last (y :: l)). Qed.

Lemma buildFunctionMap_lookup_from (fs : list FunctionDef) (m0 : gmap str FunctionDef)
    (key : str) :
  fold_left
    (fun functionMap func =>
       <[fd_name func := func]>
         (<[fd_package func ++ js "." ++ fd_name func := func]> functionMap))
    fs m0 !! key
  = match last (filter (provides key) fs) with
    | Some f => Some f
    | None => m0 !! key
    end.
Proof.
  revert m0. induction fs as [|f fs IH]; intros m0; [reflexivity|].
  cbn [fold_left]. rewrite IH, filter_cons.
  destruct (decide (provides key f)) as [Hp | Hn].
  - rewrite last_cons_or. destruct (last (filter (provides key) fs)); [reflexivity|].
    destruct (decide (fd_name f = key)) as [<- | Hne].
    + by rewrite lookup_insert_eq.
    + rewrite lookup_insert_ne by assumption.
      destruct Hp as [Hq | Hq]; [|contradiction].
      unfold qualifiedName in Hq. rewrite <- Hq. by rewrite lookup_insert_eq.
  - destruct (last (filter (provides key) fs)); [reflexivity|].
    rewrite !lookup_insert_ne; [reflexivity| |];
      intros Heq; apply Hn; [left | right]; assumption.
Qed.

Lemma buildFunctionMap_lookup (fs : list FunctionDef) (key : str) :
  buildFunctionMap fs !! key = last (filter (provides key) fs).
Proof.
  unfold buildFunctionMap. rewrite buildFunctionMap_lookup_from, lookup_empty.
  by destruct (last _).
Qed.

Lemma dotted_inj (a b a' b' : str) :
  undotted a -> undotted a' ->
  a ++ js "." ++ b = a' ++ js "." ++ b' -> a = a' /\ b = b'.
Proof.
  unfold undotted. revert a'. induction a as [|x a IH]; intros [|y a'] Ha Ha'; cbn.
  - intros [= ->]. done.
  - intros [= <- _]. exfalso. apply Ha'. by left.
  - intros [= -> _]. exfalso. apply Ha. by left.
  - intros [= -> H]. apply IH in H as [-> ->]; [done| |].
    + intros Hin. apply Ha. by right.
    + intros Hin. apply Ha'. by right.
Qed.

Lemma dotted_not_undotted (a b s : str) :
  undotted s -> a ++ js "." ++ b <> s.
Proof.
  intros Hs <-. apply Hs. apply elem_of_app. right. by left.
Qed.

Lemma filter_provides_qualified (fs : list FunctionDef) (pkg name : str) :
  Forall (fun f => undotted (fd_name f) /\ undotted (fd_package f)) fs ->
  undotted pkg ->
  filter (provides (pkg ++ js "." ++ name)) fs
  = filter (fun f => fd_package f = pkg /\ fd_name f = name) fs.
Proof.
  intros Hfs Hpkg. induction Hfs as [|f fs [Hn Hp] _ IH]; [reflexivity|].
  rewrite !filter_cons, IH.
  destruct (decide (provides (pkg ++ js "." ++ name) f)) as [Hy | Hno];
    destruct (decide (fd_package f = pkg /\ fd_name f = name)) as [Hy' | Hno'];
    try reflexivity; exfalso.
  - destruct Hy as [Hq | Hq].
    + apply dotted_inj in Hq; [auto | assumption | assumption].
    + symmetry in Hq. by apply dotted_not_undotted in Hq.
  - apply Hno. left. unfold qualifiedName. destruct Hy' as [-> ->]. reflexivity.
Qed.

Lemma filter_provides_bare (fs : list FunctionDef) (name : str) :
  undotted name ->
  filter (provides name) fs = filter (fun f => fd_name f = name) fs.
Proof.
  intros Hname. induction fs as [|f fs IH]; [reflexivity|].
  rewrite !filter_cons, IH.
  destruct (decide (provides name f)) as [Hy | Hno];
    destruct (decide (fd_name f = name)) as [Hy' | Hno'];
    try reflexivity; exfalso.
  - destruct Hy as [Hq | Hq]; [|contradiction].
    by apply dotted_not_undotted in Hq.
  - apply Hno. by right.
Qed.

(** [resolveCallTargets] on names without a dot, as call extraction and
    function extraction produce them: a call gets the file and the line of
    the last function scanned that has its package and its callee name,
    or else of the last function scanned that has its callee name in any
    package; with no such function it is left as it was. *)
Lemma calls_resolve_to_last_definition (callGraph : CallGraph) :
  Forall (fun f => undotted (fd_name f) /\ undotted (fd_package f))
    (functions callGraph) ->
  Forall (fun c => undotted (calledFunc c) /\ undotted (package c)) (calls callGraph) ->
  functions (resolveCallTargets callGraph) = functions callGraph /\
  calls (resolveCallTargets callGraph)
  = map (resolved (functions callGraph)) (calls callGraph).
Proof.
  intros Hfs Hcs. split; [reflexivity|].
  unfold resolveCallTargets. cbn [calls].
  apply map_ext_Forall. eapply Forall_impl; [exact Hcs|].
  intros c [Hc Hp]. unfold resolveCall, resolved.
  rewrite !buildFunctionMap_lookup.
  rewrite filter_provides_qualified by assumption.
  rewrite filter_provides_bare by assumption.
  destruct (last (filter _ (functions callGraph))) as [f|]; [reflexivity|].
  destruct (last (filter _ (functions callGraph))) as [f|]; reflexivity.
Qed.

End Resolution.

(** *** The call graph of a project *)

Section CallGraphs.
Import GoUtils.

Lemma matched_plus_class (P : ascii -> bool) (t : str) :
  matched_by (plus (RChar P)) t -> t <> [] /\ forallb P t = true.
Proof.
  intros [Hw Hl]. split.
  - intros ->. simpl in Hl. lia.
  - apply Hw. unfold plus. cbn [within]. split; intros c Hc; exact Hc.
Qed.

Lemma identifier_undotted (s : str) : identifier s -> undotted s.
Proof.
  intros [_ Hw] Hin. rewrite forallb_forall in Hw.
  apply list_elem_of_In, Hw in Hin. discriminate.
Qed.

Lemma funcRegex_name (content : str) (m : rmatched) :
  m ∈ matchAll funcRegex content -> exists name, grp m 1 = Some name /\ identifier name.
Proof.
  intros Hm.
  destruct (matchAll_defines funcRegex content m 1 Hm) as [name Hname];
    [cbn; set_solver|].
  exists name. split; [assumption|].
  apply matchAll_sound in Hm as (_ & _ & _ & Hg).
  apply (Hg (fun n t => n = 1 -> identifier t)) with (n := 1); [|assumption | reflexivity].
  cbn. split_groups; intros t Ht Hn; first [discriminate Hn | by apply matched_plus_class].
Qed.

Lemma extractFunctions_elem (content filePath packageName : str) (f : FunctionDef) :
  f ∈ extractFunctions content filePath packageName ->
  identifier (fd_name f) /\ fd_file f = filePath /\ fd_package f = packageName /\
  1 <= fd_line f <= length (split nl content).
Proof.
  unfold extractFunctions. intros (m & -> & Hm)%list_elem_of_fmap.
  destruct (funcRegex_name content m Hm) as (name & Hname & Hid).
  cbn [fd_name fd_file fd_package fd_line]. rewrite Hname.
  split; [exact Hid|]. split; [reflexivity|]. split; [reflexivity|].
  apply lineNumberAt_range.
Qed.

Lemma includes_char_false (s : str) (c : ascii) :
  includes s [c] = false -> c ∉ s.
Proof.
  intros Hinc Hin. apply list_elem_of_split in Hin as (pre & post & ->).
  assert (H : includes (pre ++ c :: post) [c] = true); [|congruence].
  apply includes_spec. exists pre, post. reflexivity.
Qed.

Lemma callPattern_name (line : str) (m : rmatched) (name : str) :
  m ∈ matchAll callPattern line -> grp m 1 = Some name ->
  isBuiltinOrKeyword name = false -> identifier name.
Proof.
  intros Hm Hname Hb.
  apply matchAll_sound in Hm as (_ & _ & _ & Hg).
  assert (Hn : name <> [] /\
               forallb (fun c => is_w c || Ascii.eqb "." c) name = true).
  { apply (Hg (fun n t => t <> [] /\
                          forallb (fun c => is_w c || Ascii.eqb "." c) t = true))
      with (n := 1); [|assumption].
    cbn. split_groups. intros t [Hw Hl]. split.
    - intros ->. simpl in Hl. lia.
    - apply Hw. cbn. split_groups; intros c Hc;
        rewrite ?Hc, ?orb_true_r; reflexivity. }
  destruct Hn as [Hne Hw]. split; [assumption|].
  unfold isBuiltinOrKeyword in Hb. apply orb_false_iff in Hb as [_ Hb].
  apply includes_char_false in Hb.
  apply forallb_forall. intros c Hc. rewrite forallb_forall in Hw.
  specialize (Hw c Hc). apply orb_true_iff in Hw as [Hw | Hw]; [assumption|].
  apply Ascii.eqb_eq in Hw as <-. exfalso. apply Hb. by apply list_elem_of_In.
Qed.

Lemma extractFunctionCalls_elem (content filePath packageName : str) (c : FunctionCall) :
  c ∈ extractFunctionCalls content filePath packageName ->
  identifier (calledFunc c) /\ callerFile c = filePath /\ package c = packageName /\
  calledFile c = None /\ calledLine c = None /\
  1 <= callerLine c <= length (split nl content).
Proof.
  unfold extractFunctionCalls.
  intros (j & line & m & name & Hj & _ & Hm & Hg & Hb & ->)%callsOfLines_elem.
  cbn. split; [by eapply callPattern_name|]. repeat split; try lia.
  apply lookup_lt_Some in Hj. lia.
Qed.

Lemma packageOf_identifier (content : str) : identifier (packageOf content).
Proof.
  unfold packageOf. destruct (exec packagePattern content) as [m|] eqn:Hm.
  - destruct (exec_defines packagePattern content m 1 Hm) as [name Hname];
      [cbn; set_solver|].
    rewrite Hname. apply exec_sound in Hm as (_ & _ & _ & Hg).
    apply (Hg (fun n t => identifier t)) with (n := 1); [|assumption].
    cbn. split_groups. intros t Ht. by apply matched_plus_class.
  - split; [discriminate | reflexivity].
Qed.

Lemma collectGraph_identifiers (p : project) (goFiles : list str) (g g' : CallGraph) :
  collectGraph p goFiles g = Returned g' ->
  graph_of_identifiers g -> graph_of_identifiers g'.
Proof.
  revert g. induction goFiles as [|f goFiles IH]; intros g; cbn [collectGraph].
  - intros [= <-]. auto.
  - destruct (readFileSync p f) as [content|]; cbn; [|discriminate].
    intros Hg [Hfs Hcs]. apply (IH _ Hg). split; cbn [functions calls].
    + apply Forall_app. split; [assumption|]. apply Forall_forall.
      intros x (Hn & _ & -> & _)%extractFunctions_elem.
      split; [assumption | apply packageOf_identifier].
    + apply Forall_app. split; [assumption|]. apply Forall_forall.
      intros x (Hn & _ & -> & _)%extractFunctionCalls_elem.
      split; [assumption | apply packageOf_identifier].
Qed.

(** X14: in the call graph [analyzeCallGraph] returns, every function and
    every callee has a non-empty name of word characters, the functions are
    those scanned, and a call has the file and the line of the last
    function scanned that has its package and its callee name, or else of
    the last function scanned that has its callee name in any package, and
    has no target when there is none. *)
Theorem call_graph_resolution (p : project) (g : CallGraph) :
  analyzeCallGraph p = Returned g ->
  exists scanned,
    collectGraph p (getGoFiles p) {| functions := []; calls := [] |} = Returned scanned /\
    functions g = functions scanned /\
    calls g = map (resolved (functions scanned)) (calls scanned) /\
    Forall (fun f => identifier (fd_name f)) (functions g) /\
    Forall (fun c => identifier (calledFunc c)) (calls g).
Proof.
  unfold analyzeCallGraph.
  destruct (collectGraph p (getGoFiles p) _) as [scanned|] eqn:Hs; cbn; [|discriminate].
  intros [= <-]. exists scanned. split; [reflexivity|].
  destruct (collectGraph_identifiers _ _ _ _ Hs) as [Hfs Hcs].
  { split; constructor. }
  destruct (calls_resolve_to_last_definition scanned) as [Hf Hc].
  { eapply Forall_impl; [exact Hfs|]. intros f [H1 H2].
    split; by apply identifier_undotted. }
  { eapply Forall_impl; [exact Hcs|]. intros c [H1 H2].
    split; by apply identifier_undotted. }
  split; [exact Hf|]. split; [exact Hc|]. split.
  - rewrite Hf. eapply Forall_impl; [exact Hfs|]. intros f [H1 _]. exact H1.
  - rewrite Hc. apply Forall_fmap. eapply Forall_impl; [exact Hcs|].
    intros c [H1 _]. unfold resolved. cbn.
    repeat match goal with |- context [last ?l] => destruct (last l) end; exact H1.
Qed.

Import MoreExamples.

(** X14: an example: the call graph of three packages that each declare
    [Run]. *)
Lemma call_graph_resolution_witness :
  exists g,
    analyzeCallGraph three_packages = Returned g /\
    exists scanned,
      collectGraph three_packages (getGoFiles three_packages)
        {| functions := []; calls := [] |} = Returned scanned /\
      functions g = functions scanned /\
      calls g = map (resolved (functions scanned)) (calls scanned) /\
      Forall (fun f => identifier (fd_name f)) (functions g) /\
      Forall (fun c => identifier (calledFunc c)) (calls g).
Proof.
  eexists. split; [vm_compute; reflexivity|].
  apply (call_graph_resolution three_packages). vm_compute. reflexivity.
Defined.

End CallGraphs.

(** *** Calls the trace does not follow *)

Section Leaves.
Context {host : RegExpHost}.
Import Flow.

(** X10: a call through a selector, or a call classified as external, that
    has no node yet is a leaf of the trace: [traceCall] gives it one node
    of the file [external] and one edge from the current node, and does not
    go into the callee, whatever the project holds. *)
Theorem selector_calls_are_leaves
    (recurse : str -> str -> str -> traceState -> option traceState)
    (p : project) (sourceNodeId : str) (call : Call) (st : traceState) :
  determineNodeType (functionName call) (context call) = TExternal \/
  includes (functionName call) (js ".") = true ->
  (forall n, n ∈ nodes st ->
             ~ (node_name n = functionName call /\
                node_type n = determineNodeType (functionName call) (context call))) ->
  exists node edge,
    traceCall recurse p sourceNodeId call st
    = Some {| nodes := nodes st ++ [node]; edges := edges st ++ [edge];
              processedFunctions := processedFunctions st |} /\
    node_file node = js "external" /\ node_name node = functionName call /\
    source edge = sourceNodeId /\ target edge = node_id node.
Proof.
  intros Hleaf Hnew. unfold traceCall.
  set (t := determineNodeType (functionName call) (context call)) in *.
  set (nodeId := typeName t ++ _).
  assert (Hfind : find (fun n => bool_decide (node_name n = functionName call)
                                 && bool_decide (node_type n = t)) (nodes st) = None).
  { destruct (find _ (nodes st)) as [n|] eqn:Hf; [|reflexivity].
    apply find_some in Hf as [Hin Hn]. apply andb_true_iff in Hn as [H1 H2].
    apply bool_decide_eq_true in H1, H2. exfalso.
    apply (Hnew n); [by apply list_elem_of_In | by split]. }
  rewrite Hfind.
  assert (Hext : createNodeForFunction p call t nodeId
                 = {| node_id := nodeId; node_type := t; node_name := functionName call;
                      node_file := js "external"; node_line := None;
                      node_content := Some (context call);
                      node_metadata :=
                        Some {| parameters := Some (extractParametersFromCall (context call));
                                returnType := None; databaseQuery := None;
                                tableName := None; dtoFields := None |} |}).
  { unfold createNodeForFunction.
    destruct Hleaf as [-> | ->]; [|rewrite orb_true_r]; reflexivity. }
  rewrite Hext. cbn [node_file node_name].
  eexists _, _. split; [reflexivity|]. repeat split; reflexivity.
Qed.

End Leaves.

Section LeafExample.
Import Flow MoreExamples.

(** X10: an example: a call of [s.store.Load] met first by a trace,
    whatever the trace would do inside of a callee. *)
Lemma selector_calls_are_leaves_witness :
  exists node edge,
    traceCall (fun _ _ _ st => Some st) three_packages (js "handler-Main")
      selector_call empty_trace
    = Some {| nodes := nodes empty_trace ++ [node];
              edges := edges empty_trace ++ [edge];
              processedFunctions := processedFunctions empty_trace |} /\
    node_file node = js "external" /\ node_name node = functionName selector_call /\
    source edge = js "handler-Main" /\ target edge = node_id node.
Proof.
  apply (selector_calls_are_leaves (fun _ _ _ st => Some st) three_packages
           (js "handler-Main") selector_call empty_trace).
  - right. reflexivity.
  - intros n Hn. inversion Hn.
Defined.

End LeafExample.

(** *** Node identifiers *)

Section NodeIdentifiers.
Import Flow.

Lemma digits_then_hyphen (a b X Y : str) :
  forallb is_digit a = true -> forallb is_digit b = true ->
  a ++ "-"%char :: X = b ++ "-"%char :: Y -> a = b.
Proof.
  revert b. induction a as [|x a IH]; intros [|y b] Ha Hb H; cbn in *.
  - reflexivity.
  - injection H as <- _. discriminate.
  - injection H as -> _. discriminate.
  - injection H as -> H. f_equal.
    apply andb_true_iff in Ha as [_ Ha]. apply andb_true_iff in Hb as [_ Hb]. eauto.
Qed.

Lemma forallb_rev' {A} (P : A -> bool) (l : list A) :
  forallb P l = true -> forallb P (rev l) = true.
Proof.
  rewrite !forallb_forall. intros H x Hx. apply H. by apply in_rev.
Qed.

Lemma rev_callee_id (T name D : str) :
  rev (T ++ js "-" ++ name ++ js "-" ++ D) = rev D ++ "-"%char :: rev (T ++ js "-" ++ name).
Proof.
  rewrite (app_assoc T), (app_assoc (T ++ js "-")), (app_assoc _ (js "-")).
  rewrite rev_app_distr, (rev_app_distr _ (js "-")).
  rewrite <- (app_assoc T). reflexivity.
Qed.

Lemma callee_id_position (i j : nat) (id : str) :
  callee_id i id -> callee_id j id -> i = j.
Proof.
  intros (t & name & _ & ->) (t' & name' & _ & H).
  apply of_nat_inj. apply (f_equal (@rev ascii)) in H.
  rewrite !rev_callee_id in H.
  apply digits_then_hyphen in H.
  - apply (f_equal (@rev ascii)) in H. by rewrite !rev_involutive in H.
  - apply forallb_rev', of_nat_digits.
  - apply forallb_rev', of_nat_digits.
Qed.

Section TraceNodes.
Context {host : RegExpHost}.
Variable p : project.
Variable P : list DataFlowNode -> Prop.

Hypothesis P_step : forall ns call, P ns -> P (ns ++ [createdNode p ns call]).

Lemma traceCall_preserves
    (recurse : str -> str -> str -> traceState -> option traceState)
    (src : str) (call : Call) (st st' : traceState) :
  preserves P recurse ->
  traceCall recurse p src call st = Some st' -> P (nodes st) -> P (nodes st').
Proof.
  intros Hrec Hcall HP. unfold traceCall in Hcall.
  destruct (find _ (nodes st)) as [existing|].
  - injection Hcall as <-. exact HP.
  - fold (createdNode p (nodes st) call) in Hcall.
    destruct (nonempty _ && _).
    + eapply Hrec; [exact Hcall|]. cbn. by apply P_step.
    + injection Hcall as <-. cbn. by apply P_step.
Qed.

Lemma traceCalls_preserves
    (recurse : str -> str -> str -> traceState -> option traceState)
    (src : str) (functionCalls : list Call) (st st' : traceState) :
  preserves P recurse ->
  traceCalls recurse p src functionCalls st = Some st' -> P (nodes st) -> P (nodes st').
Proof.
  intros Hrec. revert st.
  induction functionCalls as [|call rest IH]; intros st Hcalls HP.
  - by injection Hcalls as <-.
  - cbn [traceCalls] in Hcalls.
    destruct (traceCall recurse p src call st) as [st1|] eqn:Hcall; [|discriminate].
    cbn in Hcalls. apply (IH st1 Hcalls). by eapply traceCall_preserves.
Qed.

Lemma traceFunctionCalls_preserves (fuel : nat) :
  preserves P (traceFunctionCalls fuel p).
Proof.
  induction fuel as [|fuel IH]; intros file name src st st' Htrace HP; [discriminate|].
  cbn [traceFunctionCalls] in Htrace. case_bool_decide.
  - by injection Htrace as <-.
  - destruct (readFileSync p (path_join (projectPath p) file)) as [content|].
    + by apply (traceCalls_preserves _ _ _ _ _ IH Htrace).
    + by injection Htrace as <-.
Qed.

End TraceNodes.

Section NodeIds.
Context {host : RegExpHost}.
Variable p : project.

Lemma createdNode_id (ns : list DataFlowNode) (call : Call) :
  callee_id (length ns) (node_id (createdNode p ns call)).
Proof.
  unfold createdNode.
  destruct (createNodeForFunction_fields p call
              (determineNodeType (functionName call) (context call))
              (typeName (determineNodeType (functionName call) (context call)) ++
               js "-" ++ functionName call ++ js "-" ++ of_nat (length ns)))
    as (-> & _ & _).
  eexists _, _. split; [apply determineNodeType_callee | reflexivity].
Qed.

Lemma positional_step (ns : list DataFlowNode) (call : Call) :
  positional ns -> positional (ns ++ [createdNode p ns call]).
Proof.
  intros Hpos i n Hi Hle. apply lookup_app_Some in Hi as [Hi | [Hlen Hi]].
  - by apply Hpos.
  - apply list_lookup_singleton_Some in Hi as [Hi <-].
    replace i with (length ns) by lia. apply createdNode_id.
Qed.

Lemma callee_id_head (i : nat) (id : str) :
  callee_id i id -> forall c, head id = Some c -> c <> "h"%char /\
  (c = "r"%char -> id !! 1 = Some "e"%char).
Proof.
  intros (t & name & Ht & ->) c.
  unfold calleeTypes in Ht.
  repeat (apply elem_of_cons in Ht as [-> | Ht]); [..|inversion Ht];
    cbn; intros [= <-]; split; first [discriminate | reflexivity | done].
Qed.

(** X11: [traceCompleteDataFlow] returns a graph whose nodes have pairwise
    distinct identifiers: the route node and the handler node have theirs,
    and the identifier of every other node ends in the position of the node
    in the list. *)
Theorem trace_node_ids_unique (targetRoute : APIRoute) :
  exists ns es,
    traceCompleteDataFlow p targetRoute = Some (ns, es) /\
    NoDup (node_id <$> ns) /\
    (forall i n, ns !! i = Some n -> 2 <= i ->
                 exists t name,
                   node_id n = typeName t ++ js "-" ++ name ++ js "-" ++ of_nat i).
Proof.
  destruct (traceCompleteDataFlow_returns p targetRoute) as [[ns es] Hg].
  exists ns, es. split; [exact Hg|].
  unfold traceCompleteDataFlow in Hg.
  destruct (traceHandlerFunction_fields p targetRoute) as (Hid & _ & _).
  set (handlerNode := traceHandlerFunction p targetRoute) in *.
  set (st0 := pushEdge _ (pushNode handlerNode (pushNode (routeNode targetRoute) _))) in Hg.
  destruct (traceFunctionCalls _ p _ _ _ st0) as [st'|] eqn:Htrace; [|discriminate].
  cbn in Hg. injection Hg as <- <-.
  assert (Hpos : positional (nodes st')).
  { eapply (traceFunctionCalls_preserves p positional); [|exact Htrace|].
    - intros ns call. apply positional_step.
    - intros i n Hi Hle. cbn in Hi. destruct i as [|[|i]]; [lia | lia | discriminate]. }
  destruct (traceFunctionCalls_invariant p _ _ _ _ _ _ Htrace) as [_ [more Hmore]].
  { cbn. right. by left. }
  { split.
    - intros e [He | ->%list_elem_of_singleton]%elem_of_app; [inversion He|].
      cbn. split; [by left | right; by left].
    - cbn. apply NoDup_cons. split; [|apply NoDup_singleton].
      intros [= ]%list_elem_of_singleton.
      destruct (traceHandlerFunction_fields p targetRoute) as (_ & _ & Ht).
      fold handlerNode in Ht. congruence. }
  cbn in Hmore. split.
  - apply NoDup_alt. intros i j x Hi Hj.
    rewrite list_lookup_fmap in Hi, Hj.
    destruct (nodes st' !! i) as [n|] eqn:Hn; [|discriminate].
    destruct (nodes st' !! j) as [m|] eqn:Hm; [|discriminate].
    injection Hi as Hi. injection Hj as Hj.
    assert (Hlow : forall k y, nodes st' !! k = Some y -> k < 2 ->
                               (k = 0 /\ node_id y = js "route-" ++ id targetRoute) \/
                               (k = 1 /\ node_id y = js "handler-" ++ handler targetRoute)).
    { intros k y Hk Hlt. rewrite Hmore in Hk. destruct k as [|[|k]]; [| |lia].
      - left. injection Hk as <-. split; reflexivity.
      - right. injection Hk as <-. split; [reflexivity | exact Hid]. }
    assert (Hmix : forall k l y z,
               nodes st' !! k = Some y -> nodes st' !! l = Some z ->
               k < 2 -> 2 <= l -> node_id y <> node_id z).
    { intros k l y z Hk Hl Hlt Hle Heq.
      pose proof (callee_id_head l (node_id z) (Hpos l z Hl Hle)) as Hhead.
      rewrite <- Heq in Hhead.
      destruct (Hlow k y Hk Hlt) as [[_ Hy] | [_ Hy]]; rewrite Hy in Hhead.
      - destruct (Hhead "r"%char eq_refl) as [_ H]. specialize (H eq_refl). discriminate.
      - destruct (Hhead "h"%char eq_refl) as [H _]. by apply H. }
    destruct (decide (i < 2)) as [Hi2 | Hi2]; destruct (decide (j < 2)) as [Hj2 | Hj2].
    + destruct (Hlow i n Hn Hi2) as [[-> Hy] | [-> Hy]];
        destruct (Hlow j m Hm Hj2) as [[-> Hz] | [-> Hz]]; try reflexivity;
        exfalso; rewrite <- Hj, Hz in Hi; rewrite Hy in Hi; discriminate.
    + exfalso. apply (Hmix i j n m Hn Hm Hi2); [lia | congruence].
    + exfalso. apply (Hmix j i m n Hm Hn Hj2); [lia | congruence].
    + apply (callee_id_position i j x).
      * rewrite <- Hi. apply (Hpos i n Hn). lia.
      * rewrite <- Hj. apply (Hpos j m Hm). lia.
  - intros i n Hi Hle. destruct (Hpos i n Hi Hle) as (t & name & _ & Heq). eauto.
Qed.

End NodeIds.

End NodeIdentifiers.

(** *** Route parameters *)

Section RouteParameters.

Lemma paramPattern_miss (prev : option ascii) (c : ascii) (s : str) :
  c <> "{"%char -> match_here paramPattern prev (c :: s) = None.
Proof.
  intros Hc. unfold match_here, paramPattern, l, lit, chr.
  cbn [js list_ascii_of_string map seqs rmatch].
  destruct (Ascii.eqb_spec "{"%char c) as [<-|]; [contradiction | reflexivity].
Qed.

Lemma not_in_forallb (c : ascii) (s : str) :
  c ∉ s -> forallb (fun d => negb (Ascii.eqb c d)) s = true.
Proof.
  intros Hc. apply forallb_forall. intros d Hd.
  destruct (Ascii.eqb_spec c d) as [<-|]; [|reflexivity].
  exfalso. apply Hc. by apply list_elem_of_In.
Qed.

Lemma paramPattern_hit (prev : option ascii) (name rest : str) :
  name <> [] -> "}"%char ∉ name ->
  match_here paramPattern prev (js "{" ++ name ++ js "}" ++ rest)
  = Some (S (S (length name)), [(1, name)]).
Proof.
  intros Hne Hclose. destruct name as [|c name]; [contradiction|].
  apply not_in_forallb in Hclose. cbn [forallb] in Hclose.
  apply andb_true_iff in Hclose as [Hc Hname].
  unfold match_here, paramPattern, l, lit, notchr, chr, plus.
  cbn [js list_ascii_of_string map seqs app].
  rewrite rmatch_seq, rmatch_char, Ascii.eqb_refl.
  rewrite rmatch_seq, rmatch_group, rmatch_seq, rmatch_char, Hc.
  erewrite star_class_cont; [reflexivity | exact Hname | |].
  - intros d [= <-]. reflexivity.
  - intros prev'. rewrite rmatch_char, Ascii.eqb_refl.
    replace (2 + length name - 1) with (S (length name)) by lia.
    rewrite firstn_cons, take_app_length. reflexivity.
Qed.

(** The characters of a match are passed over. *)
Lemma matches_from_skip (r : regex) (t rest : str) (pos : nat) (prev : option ascii) :
  exists prev',
    matches_from r (length t) pos prev (t ++ rest)
    = matches_from r 0 (pos + length t) prev' rest.
Proof.
  revert pos prev. induction t as [|c t IH]; intros pos prev.
  - exists prev. cbn. by rewrite Nat.add_0_r.
  - destruct (IH (S pos) (Some c)) as [prev' Heq]. exists prev'.
    cbn [length app matches_from]. rewrite Heq. f_equal. lia.
Qed.

Lemma matches_from_nil_skip (r : regex) (skip pos : nat) (prev : option ascii) :
  matches_from r skip pos prev [] = [].
Proof. reflexivity. Qed.

Lemma paramPattern_text (s rest : str) (pos : nat) (prev : option ascii) :
  "{"%char ∉ s ->
  exists prev',
    matches_from paramPattern 0 pos prev (s ++ rest)
    = matches_from paramPattern 0 (pos + length s) prev' rest.
Proof.
  revert pos prev. induction s as [|c s IH]; intros pos prev Hs.
  - exists prev. cbn [app length]. by rewrite Nat.add_0_r.
  - apply not_elem_of_cons in Hs as [Hc Hs].
    destruct (IH (S pos) (Some c) Hs) as [prev' Heq]. exists prev'.
    cbn [app matches_from]. rewrite paramPattern_miss by congruence.
    rewrite Heq. cbn [length]. f_equal. lia.
Qed.

Lemma paramPattern_pieces (pieces : list pathPiece) (pos : nat) (prev : option ascii) :
  Forall valid_piece pieces ->
  m_text <$> matches_from paramPattern 0 pos prev (renderPath pieces)
  = (fun name => js "{" ++ name ++ js "}") <$> paramNames pieces.
Proof.
  intros Hvalid. revert pos prev.
  induction Hvalid as [|piece pieces Hpiece _ IH]; intros pos prev; [reflexivity|].
  unfold renderPath, paramNames. cbn [flat_map omap list_omap].
  fold (renderPath pieces). fold (paramNames pieces).
  destruct piece as [s | name]; cbn [renderPiece].
  - destruct (paramPattern_text s (renderPath pieces) pos prev Hpiece) as [prev' ->].
    apply IH.
  - destruct Hpiece as (Hne & Hopen & Hclose).
    rewrite <- !app_assoc.
    pose proof (paramPattern_hit prev name (renderPath pieces) Hne Hclose) as Hhit.
    change (js "{" ++ name ++ js "}" ++ renderPath pieces)
      with ("{"%char :: name ++ js "}" ++ renderPath pieces) in *.
    cbn [matches_from]. rewrite Hhit. rewrite !fmap_cons. cbn [m_text]. f_equal.
    + rewrite firstn_cons. change (js "{" ++ ?x) with ("{"%char :: x). f_equal.
      rewrite (app_assoc name). replace (S (length name)) with (length (name ++ js "}"))
        by (rewrite length_app; simpl; lia).
      by rewrite take_app_length.
    + rewrite (app_assoc name).
      replace (S (length name)) with (length (name ++ js "}"))
        by (rewrite length_app; simpl; lia).
      destruct (matches_from_skip paramPattern (name ++ js "}") (renderPath pieces)
                  (S pos) (Some "{"%char)) as [prev' ->].
      apply IH.
Qed.

Lemma strip_braces (name : str) :
  "{"%char ∉ name -> "}"%char ∉ name ->
  replace_all (RChar (fun c => Ascii.eqb c "{" || Ascii.eqb c "}")) []
    (js "{" ++ name ++ js "}") = name.
Proof.
  intros Hopen Hclose. rewrite replace_all_class.
  rewrite !flat_map_app. cbn [js list_ascii_of_string flat_map].
  rewrite Ascii.eqb_refl. cbn [orb app].
  replace (Ascii.eqb "}" "{") with false by reflexivity.
  rewrite Ascii.eqb_refl. cbn [orb app]. rewrite app_nil_r.
  induction name as [|c name IH]; [reflexivity|].
  apply not_elem_of_cons in Hopen as [Ho Hopen].
  apply not_elem_of_cons in Hclose as [Hc Hclose].
  cbn [flat_map]. rewrite IH by assumption.
  destruct (Ascii.eqb_spec c "{"); [congruence|].
  destruct (Ascii.eqb_spec c "}"); [congruence|]. reflexivity.
Qed.

(** X9: [extractRouteParameters] gives back the names of the parameters of
    a path written as texts and parameters in braces, in their order, when
    the texts hold no opening brace and the names are not empty and hold no
    brace. *)
Theorem route_parameters_round_trip (pieces : list pathPiece) :
  Forall valid_piece pieces ->
  Flow.extractRouteParameters (renderPath pieces) = paramNames pieces.
Proof.
  intros Hvalid. unfold Flow.extractRouteParameters. fold paramPattern.
  set (strip := replace_all (RChar (fun c => Ascii.eqb c "{" || Ascii.eqb c "}")) []).
  change (map (fun param => strip (m_text param)) ?x) with ((strip ∘ m_text) <$> x).
  rewrite list_fmap_compose. unfold matchAll.
  rewrite paramPattern_pieces by assumption.
  rewrite <- list_fmap_compose.
  assert (Hnames : Forall (fun name => ("{"%char ∉ name) /\ ("}"%char ∉ name))
                     (paramNames pieces)).
  { clear -Hvalid. induction Hvalid as [|piece pieces Hp _ IH]; [constructor|].
    unfold paramNames. cbn [omap list_omap]. destruct piece as [s | name]; [exact IH|].
    constructor; [|exact IH]. destruct Hp as (_ & ? & ?). by split. }
  induction Hnames as [|name names [Ho Hc] _ IH]; [reflexivity|].
  rewrite fmap_cons, IH. f_equal. by apply strip_braces.
Qed.

Import MoreExamples.

(** X9: an example: the parameters of /users/{id}/posts/{postId}. *)
Lemma route_parameters_round_trip_witness :
  Forall valid_piece user_post_path /\
  Flow.extractRouteParameters (renderPath user_post_path) = paramNames user_post_path.
Proof.
  assert (Hvalid : Forall valid_piece user_post_path).
  { apply (bool_decide_unpack _). vm_compute. exact I. }
  split; [exact Hvalid|]. apply (route_parameters_round_trip user_post_path Hvalid).
Defined.

End RouteParameters.

(** *** Tracing a route by its identifier *)

Section TraceHandler.
Context {host : RegExpHost}.
Import Flow.

Lemma find_id (routeId : str) (routes : list APIRoute) :
  match find (fun r => str_eqb (id r) routeId) routes with
  | Some r =>
      exists pre post, routes = pre ++ r :: post /\ id r = routeId /\
                       forall x, x ∈ pre -> id x <> routeId
  | None => forall x, x ∈ routes -> id x <> routeId
  end.
Proof.
  induction routes as [|r routes IH]; cbn [find].
  - intros x H. inversion H.
  - unfold str_eqb at 1. case_bool_decide as Hr.
    + exists [], routes. split; [reflexivity|]. split; [assumption|].
      intros x H. inversion H.
    + destruct (find _ routes) as [r'|].
      * destruct IH as (pre & post & -> & Hid & Hpre). exists (r :: pre), post.
        split; [reflexivity|]. split; [assumption|].
        intros x [-> | Hx]%elem_of_cons; auto.
      * intros x [-> | Hx]%elem_of_cons; auto.
Qed.

(** X12: the handler of [go:traceAPIFlow] throws exactly when route
    discovery throws or no discovered route has the identifier asked for;
    otherwise it traces the first discovered route that has the identifier,
    and the graph it returns starts with the node route- followed by that
    identifier and has its edges between its own nodes. *)
Theorem trace_request_by_route_id (p : project) (routeId : str) :
  match traceAPIFlow p routeId with
  | None =>
      discoverAPIRoutesInternal p = None \/
      exists routes, discoverAPIRoutesInternal p = Some routes /\
                     forall r, r ∈ routes -> id r <> routeId
  | Some flow =>
      exists pre post,
        discoverAPIRoutesInternal p = Some (pre ++ flow_route flow :: post) /\
        id (flow_route flow) = routeId /\
        (forall r, r ∈ pre -> id r <> routeId) /\
        traceCompleteDataFlow p (flow_route flow) = Some (flow_nodes flow, flow_edges flow) /\
        node_id <$> head (flow_nodes flow) = Some (js "route-" ++ routeId) /\
        closed_edges (flow_nodes flow) (flow_edges flow)
  end.
Proof.
  unfold traceAPIFlow.
  destruct (discoverAPIRoutesInternal p) as [routes|]; cbn [mbind option_bind]; [|by left].
  pose proof (find_id routeId routes) as Hfind.
  destruct (find _ routes) as [r|]; cbn [mbind option_bind].
  - destruct Hfind as (pre & post & -> & Hid & Hpre).
    destruct (traceCompleteDataFlow_returns p r) as [[ns es] Hg].
    rewrite Hg. cbn [mbind option_bind flow_route flow_nodes flow_edges fst snd].
    exists pre, post. split; [reflexivity|]. split; [assumption|].
    split; [assumption|]. split; [exact Hg|].
    destruct (traceCompleteDataFlow_graph p r ns es Hg) as (Hhead & Hclosed & _).
    split; [|assumption]. rewrite Hhead. cbn. by rewrite Hid.
  - right. exists routes. split; [reflexivity | assumption].
Qed.

End TraceHandler.

(** *** The totals of a project analysis *)

Section Counts.
Import AST.

Lemma countTotalElements_fold (structures : list CodeStructure) (c0 : elementCount) :
  let c := fold_left
    (fun count structure =>
       {| count_files := count_files count;
          count_imports := count_imports count + length (imports structure);
          count_types := count_types count + length (types structure);
          count_constants := count_constants count + length (constants structure);
          count_variables := count_variables count + length (variables structure);
          count_functions := count_functions count + length (functions structure);
          count_structs := count_structs count + length (structs structure);
          count_interfaces := count_interfaces count + length (interfaces structure) |})
    structures c0 in
  count_files c = count_files c0 /\
  count_imports c = count_imports c0 + total (fun s => length (imports s)) structures /\
  count_types c = count_types c0 + total (fun s => length (types s)) structures /\
  count_constants c = count_constants c0 + total (fun s => length (constants s)) structures /\
  count_variables c = count_variables c0 + total (fun s => length (variables s)) structures /\
  count_functions c = count_functions c0 + total (fun s => length (functions s)) structures /\
  count_structs c = count_structs c0 + total (fun s => length (structs s)) structures /\
  count_interfaces c = count_interfaces c0 + total (fun s => length (interfaces s)) structures.
Proof.
  revert c0. induction structures as [|s structures IH]; intros c0.
  - cbn. unfold total. cbn. repeat split; lia.
  - cbn [fold_left]. specialize (IH {|
          count_files := count_files c0;
          count_imports := count_imports c0 + length (imports s);
          count_types := count_types c0 + length (types s);
          count_constants := count_constants c0 + length (constants s);
          count_variables := count_variables c0 + length (variables s);
          count_functions := count_functions c0 + length (functions s);
          count_structs := count_structs c0 + length (structs s);
          count_interfaces := count_interfaces c0 + length (interfaces s) |}).
    cbv zeta in *. unfold total in *. rewrite !fmap_cons. cbn [sum_list sum_list_with] in *.
    cbn [count_files count_imports count_types count_constants count_variables
         count_functions count_structs count_interfaces] in IH.
    destruct IH as (H0 & H1 & H2 & H3 & H4 & H5 & H6 & H7).
    rewrite H0, H1, H2, H3, H4, H5, H6, H7. unfold Datatypes.id.
    repeat split; lia.
Qed.

Section Analyze.
Variable relative : str -> str -> str.
Variable parseBody : str -> CodeStructure -> CodeStructure.

Lemma parseAll_Some (p : project) (goFiles : list str) (structures : list CodeStructure) :
  parseAll relative parseBody p goFiles = Some structures ->
  Forall2 (fun f s => exists content,
               readFileSync p f = Some content /\
               s = parseBody content (emptyStructure (relative (projectPath p) f)))
    goFiles structures.
Proof.
  revert structures. induction goFiles as [|f goFiles IH]; intros structures; cbn.
  - intros [= <-]. constructor.
  - unfold parseFile. destruct (readFileSync p f) as [content|] eqn:Hread; [|discriminate].
    cbn. destruct (parseAll relative parseBody p goFiles) as [more|]; [|discriminate].
    cbn. intros [= <-]. constructor; [|by apply IH]. eauto.
Qed.

(** X21: when the handler of [ast:analyzeProject] succeeds there is one
    structure for each discovered file, in the order of discovery, parsed
    from the content of that file; the number of files, reported twice, is
    that number; and each total is the sum over the structures. *)
Theorem analyze_project_counts (p : project) (structures : list CodeStructure)
    (totalFiles : nat) (totalElements : elementCount) :
  analyzeProject relative parseBody p = Success structures totalFiles totalElements ->
  Forall2 (fun f s => exists content,
               readFileSync p f = Some content /\
               s = parseBody content (emptyStructure (relative (projectPath p) f)))
    (getGoFilesRecursive p) structures /\
  totalFiles = length structures /\
  count_files totalElements = length structures /\
  count_imports totalElements = total (fun s => length (imports s)) structures /\
  count_types totalElements = total (fun s => length (types s)) structures /\
  count_constants totalElements = total (fun s => length (constants s)) structures /\
  count_variables totalElements = total (fun s => length (variables s)) structures /\
  count_functions totalElements = total (fun s => length (functions s)) structures /\
  count_structs totalElements = total (fun s => length (structs s)) structures /\
  count_interfaces totalElements = total (fun s => length (interfaces s)) structures.
Proof.
  unfold analyzeProject.
  destruct (parseAll relative parseBody p (getGoFilesRecursive p)) as [ss|] eqn:Hall;
    [|discriminate].
  intros [= <- <- <-]. apply parseAll_Some in Hall.
  split; [exact Hall|]. split; [by eapply Forall2_length|].
  unfold countTotalElements.
  match goal with
  | |- context [fold_left ?f ss ?c0] =>
      pose proof (countTotalElements_fold ss c0) as Hc
  end.
  cbv zeta in Hc. destruct Hc as (H0 & H1 & H2 & H3 & H4 & H5 & H6 & H7).
  repeat split; first [exact H0 | exact H1 | exact H2 | exact H3 | exact H4
                      | exact H5 | exact H6 | exact H7].
Qed.

End Analyze.

Section AnalyzeExample.
Import ASTParser Examples.

(** X21: an example: the analysis of the project of one file with three
    functions. *)
Lemma analyze_project_counts_witness :
  exists structures totalFiles totalElements,
    analyzeProject relativeTo parseBody cycle_project
    = Success structures totalFiles totalElements /\
    Forall2 (fun f s => exists content,
                 readFileSync cycle_project f = Some content /\
                 s = parseBody content
                       (emptyStructure (relativeTo (projectPath cycle_project) f)))
      (getGoFilesRecursive cycle_project) structures /\
    totalFiles = length structures /\
    count_files totalElements = length structures /\
    count_imports totalElements = total (fun s => length (imports s)) structures /\
    count_types totalElements = total (fun s => length (types s)) structures /\
    count_constants totalElements = total (fun s => length (constants s)) structures /\
    count_variables totalElements = total (fun s => length (variables s)) structures /\
    count_functions totalElements = total (fun s => length (functions s)) structures /\
    count_structs totalElements = total (fun s => length (structs s)) structures /\
    count_interfaces totalElements = total (fun s => length (interfaces s)) structures.
Proof.
  eexists _, _, _. split; [vm_compute; reflexivity|].
  apply (analyze_project_counts relativeTo parseBody cycle_project).
  vm_compute. reflexivity.
Defined.

End AnalyzeExample.

End Counts.

(** *** Blocks as line ranges *)

Section Blocks.
Import AST.

Lemma join_cons (sep x : str) (l : list str) :
  join sep (x :: l) = x ++ flat_map (app sep) l.
Proof.
  revert x. induction l as [|y l IH]; intros x.
  - cbn. by rewrite app_nil_r.
  - change (join sep (x :: y :: l)) with (x ++ sep ++ join sep (y :: l)).
    rewrite IH. cbn [flat_map]. by rewrite <- app_assoc.
Qed.

Lemma braceLoop_spec (rest : list str) (i : nat) (n : Z) (content0 : str) :
  exists k, k <= length rest /\
            braceLoop rest i n content0
            = (content0 ++ flat_map (app [nl]) (take k rest), i + k).
Proof.
  revert i n content0. induction rest as [|line rest IH]; intros i n content0.
  - exists 0. split; [lia|]. cbn. by rewrite app_nil_r, Nat.add_0_r.
  - cbn [braceLoop]. destruct (0 <? n)%Z.
    + destruct (IH (S i)
                  (if includes line (js "}")
                   then ((if includes line (js "{") then (n + 1)%Z else n) - 1)%Z
                   else if includes line (js "{") then (n + 1)%Z else n)
                  (content0 ++ nl :: line)) as (k & Hk & Heq).
      exists (S k). split; [simpl; lia|]. rewrite Heq, firstn_cons. cbn [flat_map].
      rewrite <- !app_assoc. f_equal. lia.
    + exists 0. split; [lia|]. cbn. by rewrite app_nil_r, Nat.add_0_r.
Qed.

(** X15: [extractTypeBlock] and [extractFunctionBlock], which has the same
    body, fail only for a start index outside of the lines; the block they
    return is the range of whole lines from the start line to the end
    index, which is a line of the text; and it is the start line alone when
    that line holds no opening brace. *)
Theorem block_is_line_range (lines : list str) (startIndex : nat) :
  extractFunctionBlock lines startIndex = extractTypeBlock lines startIndex /\
  (extractTypeBlock lines startIndex = None <-> length lines <= startIndex) /\
  forall b, extractTypeBlock lines startIndex = Some b ->
            startIndex <= endIndex b < length lines /\
            content b = join [nl] (take (S (endIndex b - startIndex))
                                     (drop startIndex lines)) /\
            (forall line, lines !! startIndex = Some line ->
                          includes line (js "{") = false -> endIndex b = startIndex).
Proof.
  split; [reflexivity|]. unfold extractTypeBlock.
  destruct (lines !! startIndex) as [line|] eqn:Hline; cbn [mbind option_bind].
  - pose proof (lookup_lt_Some _ _ _ Hline) as Hlt. split.
    + split; [|lia]. destruct (includes line (js "{")); [|discriminate].
      destruct (braceLoop _ _ _ _); discriminate.
    + intros b. rewrite (drop_S _ _ _ Hline).
      destruct (includes line (js "{")) eqn:Hopen.
      * destruct (braceLoop_spec (drop (S startIndex) lines) (S startIndex) 1 line)
          as (k & Hk & ->).
        intros [= <-]. cbn [endIndex content]. rewrite length_drop in Hk.
        split; [lia|]. split.
        -- rewrite firstn_cons, join_cons.
           replace (startIndex + k - 0 - startIndex) with k by lia. reflexivity.
        -- intros l0 [= <-]. congruence.
      * intros [= <-]. cbn [endIndex content]. split; [lia|]. split.
        -- rewrite Nat.sub_diag. cbn. reflexivity.
        -- reflexivity.
  - apply lookup_ge_None in Hline. split; [done|]. intros b H. discriminate.
Qed.

End Blocks.

(** *** Parameters *)

Section Parameters.
Import AST ASTParser.

(** [exec] returns a match found at its index. *)
Lemma exec_inv (r : regex) (s : str) (m : rmatched) :
  exec r s = Some m ->
  exists prev,
    match_here r prev (drop (m_index m) s) = Some (length (m_text m), m_caps m) /\
    m_index m <= length s.
Proof.
  unfold exec.
  assert (Hgen : forall pos prev pre,
             pos = length pre ->
             search r pos prev s = Some m ->
             exists prev',
               match_here r prev' (drop (m_index m) (pre ++ s))
               = Some (length (m_text m), m_caps m) /\
               m_index m <= length (pre ++ s)).
  { induction s as [|c s IH]; intros pos prev pre Hpos Hs; rewrite search_unfold in Hs.
    - destruct (match_here r prev []) as [[len caps]|] eqn:Hh; [|discriminate].
      injection Hs as <-. cbn [m_text m_index m_caps]. exists prev.
      pose proof (match_here_sound _ _ _ _ _ Hh) as (Hlen & _).
      rewrite Hpos, drop_app_length, length_take, Nat.min_l by exact Hlen.
      split; [exact Hh | rewrite length_app; lia].
    - destruct (match_here r prev (c :: s)) as [[len caps]|] eqn:Hh.
      + injection Hs as <-. cbn [m_text m_index m_caps]. exists prev.
        pose proof (match_here_sound _ _ _ _ _ Hh) as (Hlen & _).
        rewrite Hpos, drop_app_length, length_take, Nat.min_l by exact Hlen.
        split; [exact Hh | rewrite length_app; lia].
      + specialize (IH (S pos) (Some c) (pre ++ [c])).
        rewrite <- app_assoc in IH. apply IH; [|assumption].
        rewrite length_app. simpl. lia. }
  intros Hs. exact (Hgen 0 None [] eq_refl Hs).
Qed.

(** *** Parameters *)

Lemma twoWords_groups (s : str) (m : rmatched) :
  exec twoWords s = Some m ->
  exists a b, grp m 1 = Some a /\ grp m 2 = Some b /\ identifier a /\ identifier b.
Proof.
  intros Hm.
  destruct (exec_defines twoWords s m 1 Hm) as [a Ha]; [cbn; set_solver|].
  destruct (exec_defines twoWords s m 2 Hm) as [b Hb]; [cbn; set_solver|].
  exists a, b. split; [assumption|]. split; [assumption|].
  apply exec_sound in Hm as (_ & _ & _ & Hg).
  split; (eapply (Hg (fun _ t => identifier t)); [|eassumption]);
    cbn; split_groups; intros t Ht; by apply matched_plus_class.
Qed.

Lemma oneWord_groups (s : str) (m : rmatched) :
  exec oneWord s = Some m -> exists a, grp m 1 = Some a /\ identifier a.
Proof.
  intros Hm.
  destruct (exec_defines oneWord s m 1 Hm) as [a Ha]; [cbn; set_solver|].
  exists a. split; [assumption|].
  apply exec_sound in Hm as (_ & _ & _ & Hg).
  eapply (Hg (fun _ t => identifier t)); [|eassumption].
  cbn; split_groups; intros t Ht; by apply matched_plus_class.
Qed.

Lemma length_omap {A B} (f : A -> option B) (l : list A) :
  length (omap f l) <= length l.
Proof.
  induction l as [|x l IH]; [reflexivity|]. cbn. destruct (f x); simpl; lia.
Qed.

(** X16: [ASTParser.parseParameters] reports a parameter with a non-empty
    type of word characters and with a name that is empty or made of word
    characters, so a pointer, a qualified name or a slice is never reported
    as a type in full.  There is at most one parameter for each text
    between commas, and none for a text of white space. *)
Theorem parsed_parameters_are_words (paramsStr : str) :
  Forall (fun p => identifier (param_type p) /\
                   (param_name p = [] \/ identifier (param_name p)))
    (parseParameters paramsStr) /\
  length (parseParameters paramsStr) <= length (split "," paramsStr) /\
  (trim paramsStr = [] -> parseParameters paramsStr = []).
Proof.
  unfold parseParameters. split; [|split].
  - destruct (negb (nonempty (trim paramsStr))); [constructor|].
    apply Forall_forall. intros x (part & _ & Hx)%list_elem_of_omap.
    destruct (negb (nonempty (trim part))); [discriminate|].
    destruct (exec twoWords (trim part)) as [m|] eqn:Hm.
    + destruct (twoWords_groups _ _ Hm) as (a & b & H1 & H2 & Ha & Hb).
      rewrite H1, H2 in Hx. injection Hx as <-. cbn. auto.
    + destruct (exec oneWord (trim part)) as [m|] eqn:Hm1; [|discriminate].
      destruct (oneWord_groups _ _ Hm1) as (a & H1 & Ha).
      rewrite H1 in Hx. injection Hx as <-. cbn. auto.
  - destruct (negb (nonempty (trim paramsStr))); [simpl; lia | apply length_omap].
  - intros ->. reflexivity.
Qed.

End Parameters.

(** *** Structs *)

Section Structs.
Import AST ASTParser.

Lemma run_split (P : ascii -> bool) (s : str) :
  s = take (run P s) s ++ drop (run P s) s /\
  forallb P (take (run P s) s) = true /\
  (forall d, head (drop (run P s) s) = Some d -> P d = false).
Proof.
  split; [by rewrite take_drop|]. split.
  - induction s as [|c s IH]; [reflexivity|].
    simpl run. destruct (P c) eqn:Hc; [|reflexivity].
    rewrite firstn_cons. cbn [forallb]. by rewrite Hc, IH.
  - intros d. apply run_drop_head.
Qed.

Lemma group_absent (caps : captures) (n : nat) :
  caps_ok (fun m _ => m <> n) caps -> group caps n = None.
Proof.
  induction 1 as [|[m t] caps Hm _ IH]; [reflexivity|].
  cbn [group]. cbn in Hm. destruct (Nat.eqb_spec m n); [contradiction | exact IH].
Qed.

(** The type and the optional tag of the field pattern, after the name and
    the white space: the type takes every character up to the first
    backquote, where the tag cannot start, so the tag is left out. *)
Lemma field_type_without_tag (pos : nat) (prev : option ascii) (s : str)
    (caps : captures) (x : nat * captures) :
  rmatch
    (RSeq (RGroup 2 (plus (notchr bquote)))
       (opt (seqs [plus space; chr bquote; RGroup 3 (plus (notchr bquote)); chr bquote])))
    pos prev s caps (fun len _ _ caps' => Some (len, caps')) = Some x ->
  exists t, x.2 = (2, t) :: caps.
Proof.
  unfold plus, opt, notchr, chr, space.
  cbn [seqs]. rewrite rmatch_seq, rmatch_group, rmatch_seq.
  destruct s as [|c s]; [discriminate|]. rewrite rmatch_char.
  destruct (negb (Ascii.eqb bquote c)) eqn:Hc; [|discriminate].
  destruct (run_split (fun d => negb (Ascii.eqb bquote d)) s) as (Hs & Ht & Hhead).
  set (t := take _ s) in *. set (s' := drop _ s) in *.
  match goal with
  | |- rmatch _ _ _ _ _ ?k = _ -> _ =>
      assert (Hk : forall prev',
                 k (S pos + length t) prev' s' caps
                 = Some (S pos + length t,
                         (2, take (S pos + length t - pos) (c :: s)) :: caps))
  end.
  { intros prev'. rewrite rmatch_alt, !rmatch_seq.
    destruct s' as [|d s'].
    - rewrite rmatch_char_nil, rmatch_eps. reflexivity.
    - rewrite rmatch_char.
      assert (Hd : is_s d = false).
      { specialize (Hhead d eq_refl). apply negb_false_iff, Ascii.eqb_eq in Hhead as <-.
        reflexivity. }
      rewrite Hd, rmatch_eps. reflexivity. }
  rewrite Hs at 1.
  rewrite (star_class_cont _ t s' _ _ _ _ _ Ht Hhead Hk).
  intros [= <-]. cbn [snd]. eexists. reflexivity.
Qed.

Lemma rmatch_bol {R} (ml : bool) (pos : nat) (prev : option ascii) (s : str)
    (caps : captures) (k : @cont R) :
  rmatch (RBol ml) pos prev s caps k
  = match prev with
    | None => k pos prev s caps
    | Some c =>
        if ml && (Ascii.eqb c nl || Ascii.eqb c cr) then k pos prev s caps else None
    end.
Proof. reflexivity. Qed.

Lemma fieldPattern_no_tag (line : str) (m : rmatched) :
  exec fieldPattern line = Some m -> grp m 3 = None.
Proof.
  intros Hm. apply exec_inv in Hm as (prev & Hm & _).
  unfold grp. revert Hm. generalize (drop (m_index m) line) (length (m_text m)) (m_caps m).
  intros s len caps. unfold match_here, fieldPattern.
  cbn [seqs]. rewrite rmatch_seq, rmatch_bol.
  intros Hm.
  assert (Hm' : rmatch
                  (RSeq (RGroup 1 (plus word))
                     (RSeq (plus space)
                        (RSeq (RGroup 2 (plus (notchr bquote)))
                           (opt (seqs [plus space; chr bquote;
                                       RGroup 3 (plus (notchr bquote)); chr bquote])))))
                  0 prev s [] (fun len _ _ caps' => Some (len, caps')) = Some (len, caps)).
  { destruct prev as [c|]; [discriminate Hm | exact Hm]. }
  clear Hm. rewrite rmatch_seq in Hm'.
  apply rmatch_sound in Hm' as (t1 & s1 & prev1 & caps1 & _ & Hm' & _ & Hc1).
  rewrite rmatch_seq in Hm'.
  apply rmatch_sound in Hm' as (t2 & s2 & prev2 & caps2 & _ & Hm' & _ & Hc2).
  apply field_type_without_tag in Hm' as [t Hcaps]. cbn [snd] in Hcaps. subst caps.
  cbn [group Nat.eqb]. apply group_absent.
  apply Hc2; [cbn; split_groups|]. apply Hc1; [|constructor].
  cbn. split_groups. intros; discriminate.
Qed.

Lemma forallb_trimStart (P : ascii -> bool) (s : str) :
  forallb P s = true -> forallb P (trimStart s) = true.
Proof.
  induction s as [|c s IH]; [reflexivity|]. intros H. cbn [trimStart].
  destruct (is_s c); [|exact H]. apply IH. by apply andb_true_iff in H as [_ H].
Qed.

Lemma forallb_trim (P : ascii -> bool) (s : str) :
  forallb P s = true -> forallb P (trim s) = true.
Proof.
  intros H. unfold trim, trimEnd.
  apply forallb_rev', forallb_trimStart, forallb_rev', forallb_trimStart, H.
Qed.

Lemma fieldPattern_groups (line : str) (m : rmatched) :
  exec fieldPattern line = Some m ->
  exists a b, grp m 1 = Some a /\ grp m 2 = Some b /\ grp m 3 = None /\
              identifier a /\ forallb (fun c => negb (Ascii.eqb bquote c)) b = true.
Proof.
  intros Hm.
  destruct (exec_defines fieldPattern line m 1 Hm) as [a Ha]; [cbn; set_solver|].
  destruct (exec_defines fieldPattern line m 2 Hm) as [b Hb]; [cbn; set_solver|].
  exists a, b. split; [assumption|]. split; [assumption|].
  split; [by eapply fieldPattern_no_tag|].
  apply exec_sound in Hm as (_ & _ & _ & Hg). split.
  - apply (Hg (fun n t => n = 1 -> identifier t)) with (n := 1);
      [|assumption | reflexivity].
    cbn. split_groups; intros t Ht Hn;
      first [discriminate Hn | by apply matched_plus_class].
  - apply (Hg (fun n t => n = 2 ->
                          forallb (fun c => negb (Ascii.eqb bquote c)) t = true))
      with (n := 2); [|assumption | reflexivity].
    cbn. split_groups; intros t Ht Hn; try discriminate Hn.
    by apply matched_plus_class in Ht as [_ Ht].
Qed.

Lemma seqs_cons (r : regex) (rs : list regex) :
  rs <> [] -> seqs (r :: rs) = RSeq r (seqs rs).
Proof. destruct rs; [contradiction | reflexivity]. Qed.

Lemma lit_no_groups (w : str) (G : nat -> str -> Prop) :
  groups_ok G (lit w) /\ sure_groups (lit w) = [].
Proof.
  unfold lit. induction w as [|c w IH]; [split; [exact I | reflexivity]|].
  destruct w as [|d w]; [split; [exact I | reflexivity]|].
  cbn [map] in *. rewrite seqs_cons by discriminate.
  destruct IH as [IH1 IH2]. split; [split; [exact I | exact IH1]|].
  cbn [sure_groups]. rewrite IH2. reflexivity.
Qed.

Lemma declaredName_identifier (keyword : string) (firstLine : str) :
  identifier (declaredName keyword firstLine).
Proof.
  unfold declaredName.
  destruct (exec (typeNamePattern keyword) firstLine) as [m|] eqn:Hm.
  - destruct (exec_defines _ _ m 1 Hm) as [a Ha].
    { unfold typeNamePattern, l. cbn [seqs sure_groups].
      rewrite !(proj2 (lit_no_groups _ (fun _ _ => True))). cbn. set_solver. }
    rewrite Ha. apply exec_sound in Hm as (_ & _ & _ & Hg).
    apply (Hg (fun n t => identifier t)) with (n := 1); [|assumption].
    unfold typeNamePattern, l. cbn [seqs groups_ok].
    split; [apply lit_no_groups|]. split; [cbn; split_groups|].
    split; [|split; [cbn; split_groups | apply lit_no_groups]].
    split; [|cbn; split_groups]. intros t Ht. by apply matched_plus_class.
  - split; [discriminate | reflexivity].
Qed.

Lemma structStep_fields (P : StructField -> Prop) :
  (forall line m, exec fieldPattern line = Some m ->
                  forall cs, P {| field_name := default [] (grp m 1);
                                  field_type := trim (default [] (grp m 2));
                                  field_tag := or_else (grp m 3) [];
                                  field_comments := cs |}) ->
  forall lines acc,
    Forall P acc.1 ->
    Forall P (fold_left structStep lines acc).1 /\
    length (fold_left structStep lines acc).1 <= length acc.1 + length lines.
Proof.
  intros HP lines. induction lines as [|l0 lines IH]; intros [fields cs] Hacc.
  - split; [exact Hacc | simpl; lia].
  - cbn [fold_left].
    assert (Hstep : Forall P (structStep (fields, cs) l0).1 /\
                    length (structStep (fields, cs) l0).1 <= S (length fields)).
    { unfold structStep. cbn [fst] in *.
      destruct (negb (nonempty (trim l0)) || str_eqb (trim l0) (js "}"));
        [split; [exact Hacc | simpl; lia]|].
      destruct (startsWith (trim l0) (js "//")); [split; [exact Hacc | simpl; lia]|].
      destruct (exec fieldPattern (trim l0)) as [m|] eqn:Hm;
        [|split; [exact Hacc | simpl; lia]].
      cbn [fst]. split.
      - apply Forall_app. split; [exact Hacc|]. constructor; [|constructor].
        by eapply HP.
      - rewrite length_app. simpl. lia. }
    destruct Hstep as [H1 H2]. destruct (IH _ H1) as [H3 H4].
    split; [exact H3|]. cbn [fst length] in *. lia.
Qed.

(** X17: [parseStruct] never extracts the tag of a field: every field is
    reported with an empty tag, a name of word characters and a type
    without backquote.  The name of the struct is made of word characters
    (it is the word unknown when the first line does not declare one), the
    line and the snippet are those of the block, and there are at most as
    many fields as lines between the first and the last. *)
Theorem struct_tags_never_extracted (b : block) (startLine : nat) :
  identifier (struct_name (parseStruct b startLine)) /\
  struct_line (parseStruct b startLine) = startLine /\
  struct_codeSnippet (parseStruct b startLine) = content b /\
  Forall (fun f => field_tag f = [] /\ identifier (field_name f) /\
                   bquote ∉ field_type f)
    (struct_fields (parseStruct b startLine)) /\
  length (struct_fields (parseStruct b startLine))
  <= length (split nl (content b)) - 2.
Proof.
  unfold parseStruct. cbn [struct_name struct_line struct_codeSnippet struct_fields].
  split; [apply declaredName_identifier|]. split; [reflexivity|]. split; [reflexivity|].
  edestruct (structStep_fields
               (fun f => field_tag f = [] /\ identifier (field_name f) /\
                         bquote ∉ field_type f)) as [H1 H2]; cycle 2.
  - split; [exact H1|]. etransitivity; [exact H2|]. cbn [fst length].
    unfold innerLines. rewrite removelast_firstn_len, length_take.
    destruct (split nl (content b)) as [|x rest]; simpl; lia.
  - intros line m Hm cs.
    destruct (fieldPattern_groups line m Hm) as (a & t & -> & -> & -> & Ha & Ht).
    cbn. split; [reflexivity|]. split; [assumption|].
    intros Hin. apply forallb_trim in Ht. rewrite forallb_forall in Ht.
    apply list_elem_of_In, Ht in Hin. by rewrite Ascii.eqb_refl in Hin.
  - constructor.
Qed.

End Structs.

(** *** Comments *)

Section Comments.
Import AST ASTParser.

Lemma commentsFrom_lines (rest : list str) (i skip : nat) :
  Forall (fun c => i < comment_line c <= i + length rest) (commentsFrom rest i skip) /\
  StronglySorted lt (comment_line <$> commentsFrom rest i skip).
Proof.
  revert i skip. induction rest as [|l0 rest IH]; intros i skip.
  - split; constructor.
  - assert (Hnext : forall k,
               Forall (fun c => i < comment_line c <= i + length (l0 :: rest))
                 (commentsFrom rest (S i) k)).
    { intros k. destruct (IH (S i) k) as [H _]. eapply Forall_impl; [exact H|].
      intros c Hc. cbn beta in Hc. cbn [length]. lia. }
    assert (Hcons : forall k c,
               comment_line c = i + 1 ->
               Forall (fun c => i < comment_line c <= i + length (l0 :: rest))
                 (c :: commentsFrom rest (S i) k) /\
               StronglySorted lt (comment_line <$> c :: commentsFrom rest (S i) k)).
    { intros k c Hc. split.
      - constructor; [cbn [length]; lia | apply Hnext].
      - rewrite fmap_cons. constructor; [apply IH|].
        destruct (IH (S i) k) as [H _]. apply Forall_fmap.
        eapply Forall_impl; [exact H|]. intros c' Hc'. unfold compose.
        cbn beta in *. lia. }
    cbn [commentsFrom]. destruct skip as [|k]; [|split; [apply Hnext | apply IH]].
    destruct (startsWith (trim l0) (js "//")); [by apply Hcons|].
    destruct (startsWith (trim l0) (js "/*")); [|split; [apply Hnext | apply IH]].
    destruct (blockCommentTail rest (S i)) as [text endIndex]. by apply Hcons.
Qed.

Lemma commentsFrom_line_comments (rest : list str) (i : nat) :
  (forall l0, l0 ∈ rest -> startsWith (trim l0) (js "/*") = false) ->
  commentsFrom rest i 0 = omap (fun c => c) (imap (fun j => lineComment (i + j)) rest).
Proof.
  revert i. induction rest as [|l0 rest IH]; intros i Hrest; [reflexivity|].
  cbn [commentsFrom imap omap list_omap]. unfold lineComment at 1.
  rewrite Nat.add_0_r.
  assert (Htail : commentsFrom rest (S i) 0
                  = omap (fun c => c) (imap ((fun j => lineComment (i + j)) ∘ S) rest)).
  { rewrite IH by (intros l1 Hl1; apply Hrest; by right).
    f_equal. apply imap_ext. intros j x _. cbn. f_equal. lia. }
  destruct (startsWith (trim l0) (js "//")); cbv beta.
  - by rewrite Htail.
  - rewrite (Hrest l0) by (by left). exact Htail.
Qed.

(** X18: [extractComments] reports the comments in the order of their
    lines, each at a line of the text and no two at the same line; and in a
    text where no line starts with a slash and a star they are exactly the
    lines that start with two slashes, with the text after the slashes
    trimmed, so a comment at the end of a line of code is not reported. *)
Theorem comments_are_comment_lines (content : str) :
  Forall (fun c => 1 <= comment_line c <= length (split nl content))
    (extractComments content) /\
  StronglySorted lt (comment_line <$> extractComments content) /\
  ((forall l0, l0 ∈ split nl content -> startsWith (trim l0) (js "/*") = false) ->
   extractComments content = omap (fun c => c) (imap lineComment (split nl content))).
Proof.
  unfold extractComments.
  destruct (commentsFrom_lines (split nl content) 0 0) as [H1 H2].
  split; [|split; [exact H2|]].
  - eapply Forall_impl; [exact H1|]. intros c Hc. cbn beta in Hc. lia.
  - intros Hno. by rewrite commentsFrom_line_comments.
Qed.

End Comments.

(** *** Project symbols *)

Section ProjectSymbols.
Import AST ASTParser.

(** *** Lines *)

Lemma split_no_sep (sep : ascii) (s : str) (l0 : str) :
  l0 ∈ split sep s -> sep ∉ l0.
Proof.
  revert l0. induction s as [|c s IH]; intros l0.
  - cbn. intros ->%list_elem_of_singleton Hin. inversion Hin.
  - cbn [split]. destruct (Ascii.eqb_spec c sep) as [->|Hne].
    + intros [-> | Hin]%elem_of_cons; [intros H; inversion H | by apply IH].
    + destruct (split sep s) as [|h t] eqn:Hs.
      * intros ->%list_elem_of_singleton [-> | H]%elem_of_cons; [done | inversion H].
      * intros [-> | Hin]%elem_of_cons.
        -- intros [-> | H]%elem_of_cons; [done|]. revert H. apply IH. by left.
        -- apply IH. by right.
Qed.

Lemma split_one (sep : ascii) (s : str) : sep ∉ s -> split sep s = [s].
Proof.
  induction s as [|c s IH]; [reflexivity|].
  intros [Hc Hs]%not_elem_of_cons. cbn [split].
  destruct (Ascii.eqb_spec c sep); [congruence|]. by rewrite IH.
Qed.

(** *** The parsers of one declaration *)

Lemma signaturePattern_name (firstLine : str) (m : rmatched) :
  exec signaturePattern firstLine = Some m ->
  exists name, grp m 2 = Some name /\ identifier name.
Proof.
  intros Hm.
  destruct (exec_defines signaturePattern firstLine m 2 Hm) as [a Ha]; [cbn; set_solver|].
  exists a. split; [assumption|].
  apply exec_sound in Hm as (_ & _ & _ & Hg).
  apply (Hg (fun n t => n = 2 -> identifier t)) with (n := 2); [|assumption | reflexivity].
  cbn. split_groups; intros t Ht Hn; first [discriminate Hn | by apply matched_plus_class].
Qed.

Lemma parseFunction_symbol (b : block) (startLine : nat) :
  identifier (fn_name (parseFunction b startLine)) /\
  fn_line (parseFunction b startLine) = startLine.
Proof.
  unfold parseFunction. destruct (exec signaturePattern _) as [m|] eqn:Hm.
  - destruct (signaturePattern_name _ _ Hm) as (name & -> & Hname). by split.
  - split; [split; [discriminate | reflexivity] | reflexivity].
Qed.

Lemma parseInterface_symbol (b : block) (startLine : nat) :
  identifier (iface_name (parseInterface b startLine)) /\
  iface_line (parseInterface b startLine) = startLine.
Proof. split; [apply declaredName_identifier | reflexivity]. Qed.

Lemma parseTypeDeclaration_symbol (line : str) (lineNumber : nat) (d : TypeDeclaration) :
  parseTypeDeclaration line lineNumber = Some d ->
  identifier (ty_name d) /\ ty_line d = lineNumber.
Proof.
  unfold parseTypeDeclaration. destruct (exec typePattern line) as [m|] eqn:Hm; [|discriminate].
  cbn. intros [= <-]. cbn. split; [|reflexivity].
  destruct (exec_defines typePattern line m 1 Hm) as [a Ha]; [cbn; set_solver|].
  rewrite Ha. apply exec_sound in Hm as (_ & _ & _ & Hg).
  apply (Hg (fun n t => identifier t)) with (n := 1); [|assumption].
  cbn. split_groups; intros t Ht; by apply matched_plus_class.
Qed.

Lemma parseConstBlock_symbol (b : block) (startLine : nat) (c : ConstantDeclaration) :
  c ∈ parseConstBlock b startLine ->
  identifier (const_name c) /\ const_line c = startLine /\
  startsWith (const_codeSnippet c) (js "const") = false /\
  exists line, line ∈ split nl (content b) /\ const_codeSnippet c = trim line.
Proof.
  unfold parseConstBlock. intros (line & Hline & Hc)%list_elem_of_omap.
  destruct (isBlank (trim line)); [discriminate|].
  destruct (startsWith (trim line) (js "const")) eqn:Hk; [discriminate|].
  destruct (exec constPattern (trim line)) as [m|] eqn:Hm; [|discriminate].
  cbn in Hc. injection Hc as <-. cbn.
  split; [|split; [reflexivity | split; [assumption | eauto]]].
  destruct (exec_defines constPattern (trim line) m 1 Hm) as [a Ha]; [cbn; set_solver|].
  rewrite Ha. apply exec_sound in Hm as (_ & _ & _ & Hg).
  apply (Hg (fun n t => n = 1 -> identifier t)) with (n := 1); [|assumption | reflexivity].
  cbn. split_groups; intros t Ht Hn; first [discriminate Hn | by apply matched_plus_class].
Qed.

Lemma parseVarBlock_symbol (b : block) (startLine : nat) (v : VariableDeclaration) :
  v ∈ parseVarBlock b startLine ->
  identifier (var_name v) /\ var_line v = startLine /\
  startsWith (var_codeSnippet v) (js "var") = false /\
  exists line, line ∈ split nl (content b) /\ var_codeSnippet v = trim line.
Proof.
  unfold parseVarBlock. intros (line & Hline & Hv)%list_elem_of_omap.
  destruct (isBlank (trim line)); [discriminate|].
  destruct (startsWith (trim line) (js "var")) eqn:Hk; [discriminate|].
  destruct (exec twoWords (trim line)) as [m|] eqn:Hm; [|discriminate].
  cbn in Hv. injection Hv as <-. cbn.
  destruct (twoWords_groups _ _ Hm) as (a & b' & -> & _ & Ha & _).
  split; [assumption|]. split; [reflexivity|]. split; [assumption | eauto].
Qed.

(** *** The structure *)

Lemma extract_single_line (lines : list str) (i : nat) (line : str) (b : block) :
  lines !! i = Some line -> includes line (js "(") = false ->
  (extractConstBlock lines i = Some b \/ extractVarBlock lines i = Some b) ->
  content b = line.
Proof.
  unfold extractConstBlock, extractVarBlock. intros -> Hno. cbn [mbind option_bind]. rewrite Hno.
  by intros [[= <-] | [= <-]].
Qed.

Lemma symbolsOf_pushImports xs s : symbolsOf (pushImports xs s) = symbolsOf s.
Proof. reflexivity. Qed.

(** A property of the structure that every turn of the loop of
    [parseGoContent] keeps is kept by the loop. *)
Lemma parseLines_preserves (lines : list str) (Q : CodeStructure -> Prop) :
  (forall i line s, lines !! i = Some line -> Q s -> Q (parseLine lines i line s).1) ->
  forall s, Q s -> Q (parseLines lines lines 0 0 s).
Proof.
  intros Hstep.
  assert (Hgen : forall rest i skip s,
             rest = drop i lines -> Q s -> Q (parseLines lines rest i skip s)).
  { induction rest as [|line rest IH]; intros i skip s Hrest Hs; [exact Hs|].
    assert (Hline : lines !! i = Some line).
    { pose proof (lookup_drop lines i 0) as H. rewrite <- Hrest, Nat.add_0_r in H.
      by rewrite <- H. }
    assert (Hrest' : rest = drop (S i) lines).
    { pose proof (drop_drop lines 1 i) as H. rewrite <- Hrest, Nat.add_1_r in H.
      by rewrite <- H. }
    cbn [parseLines]. destruct skip as [|k]; [|by apply IH].
    pose proof (Hstep i line s Hline Hs) as Hnext.
    destruct (parseLine lines i line s) as [s' e]. by apply IH. }
  intros s. by apply Hgen.
Qed.

Section Sound.
Variable lines : list str.

Lemma sound_pushFunctions (x : FunctionDeclaration) (s : CodeStructure) :
  Forall (sound_symbol lines) (symbolsOf s) ->
  (sound_symbol lines) {| ps_name := fn_name x; ps_type := SFunction; ps_file := filePath s;
       ps_line := fn_line x |} ->
  Forall (sound_symbol lines) (symbolsOf (pushFunctions [x] s)).
Proof.
  unfold symbolsOf. cbn [functions structs interfaces types constants variables
                         pushFunctions filePath].
  rewrite map_app, !Forall_app. cbn [map]. rewrite Forall_singleton. tauto.
Qed.

Lemma sound_pushStructs (x : StructDeclaration) (s : CodeStructure) :
  Forall (sound_symbol lines) (symbolsOf s) ->
  (sound_symbol lines) {| ps_name := struct_name x; ps_type := SStruct; ps_file := filePath s;
       ps_line := struct_line x |} ->
  Forall (sound_symbol lines) (symbolsOf (pushStructs [x] s)).
Proof.
  unfold symbolsOf. cbn [functions structs interfaces types constants variables
                         pushStructs filePath].
  rewrite map_app, !Forall_app. cbn [map]. rewrite Forall_singleton. tauto.
Qed.

Lemma sound_pushInterfaces (x : InterfaceDeclaration) (s : CodeStructure) :
  Forall (sound_symbol lines) (symbolsOf s) ->
  (sound_symbol lines) {| ps_name := iface_name x; ps_type := SInterface; ps_file := filePath s;
       ps_line := iface_line x |} ->
  Forall (sound_symbol lines) (symbolsOf (pushInterfaces [x] s)).
Proof.
  unfold symbolsOf. cbn [functions structs interfaces types constants variables
                         pushInterfaces filePath].
  rewrite map_app, !Forall_app. cbn [map]. rewrite Forall_singleton. tauto.
Qed.

Lemma sound_pushTypes (x : TypeDeclaration) (s : CodeStructure) :
  Forall (sound_symbol lines) (symbolsOf s) ->
  (sound_symbol lines) {| ps_name := ty_name x; ps_type := SType; ps_file := filePath s;
       ps_line := ty_line x |} ->
  Forall (sound_symbol lines) (symbolsOf (pushTypes [x] s)).
Proof.
  unfold symbolsOf. cbn [functions structs interfaces types constants variables
                         pushTypes filePath].
  rewrite map_app, !Forall_app. cbn [map]. rewrite Forall_singleton. tauto.
Qed.

Lemma sound_pushConstants (xs : list ConstantDeclaration) (s : CodeStructure) :
  Forall (sound_symbol lines) (symbolsOf s) ->
  (forall x, x ∈ xs ->
     (sound_symbol lines) {| ps_name := const_name x; ps_type := SConstant; ps_file := filePath s;
          ps_line := const_line x |}) ->
  Forall (sound_symbol lines) (symbolsOf (pushConstants xs s)).
Proof.
  unfold symbolsOf. cbn [functions structs interfaces types constants variables
                         pushConstants filePath].
  rewrite map_app, !Forall_app. intros H Hxs.
  assert (Forall (sound_symbol lines) (map (fun x => {| ps_name := const_name x; ps_type := SConstant;
                                     ps_file := filePath s; ps_line := const_line x |}) xs)).
  { apply Forall_forall. intros y (x & -> & Hx)%list_elem_of_fmap. by apply Hxs. }
  tauto.
Qed.

Lemma sound_pushVariables (xs : list VariableDeclaration) (s : CodeStructure) :
  Forall (sound_symbol lines) (symbolsOf s) ->
  (forall x, x ∈ xs ->
     (sound_symbol lines) {| ps_name := var_name x; ps_type := SVariable; ps_file := filePath s;
          ps_line := var_line x |}) ->
  Forall (sound_symbol lines) (symbolsOf (pushVariables xs s)).
Proof.
  unfold symbolsOf. cbn [functions structs interfaces types constants variables
                         pushVariables filePath].
  rewrite map_app, !Forall_app. intros H Hxs.
  assert (Forall (sound_symbol lines) (map (fun x => {| ps_name := var_name x; ps_type := SVariable;
                                     ps_file := filePath s; ps_line := var_line x |}) xs)).
  { apply Forall_forall. intros y (x & -> & Hx)%list_elem_of_fmap. by apply Hxs. }
  tauto.
Qed.

Lemma startsWith_prefix_of (s a b : str) :
  startsWith s a = true -> startsWith a b = true -> startsWith s b = true.
Proof.
  rewrite !startsWith_spec. intros (x & ->) (y & ->). exists (y ++ x). by rewrite <- app_assoc.
Qed.

Lemma parseLine_sound (i : nat) (line : str) (s : CodeStructure) :
  lines !! i = Some line ->
  Forall nl_free lines ->
  Forall (sound_symbol lines) (symbolsOf s) -> Forall (sound_symbol lines) (symbolsOf (parseLine lines i line s).1).
Proof.
  intros Hline Hnl Hs. unfold parseLine.
  assert (Hat : forall t, startsWith (trim line) (keywordOf t) = true ->
                          (isGrouped t = true -> includes line (js "(") = true) ->
                          declared_at lines t (i + 1)).
  { intros t Hk Hg. exists i, line. auto. }
  destruct (startsWith (trim line) (js "import")) eqn:Himport.
  { destruct (extractImportBlock lines i); exact Hs. }
  destruct (startsWith (trim line) (js "type")) eqn:Htype; cbn [andb].
  { destruct (includes (trim line) (js "struct")).
    { destruct (extractTypeBlock lines i) as [b|]; [|exact Hs]. cbn [fst].
      apply sound_pushStructs; [exact Hs|]. split; cbn.
      - apply declaredName_identifier.
      - by apply (Hat SStruct). }
    destruct (includes (trim line) (js "interface")).
    { destruct (extractTypeBlock lines i) as [b|]; [|exact Hs]. cbn [fst].
      apply sound_pushInterfaces; [exact Hs|]. split; cbn.
      - apply declaredName_identifier.
      - by apply (Hat SInterface). }
    destruct (parseTypeDeclaration (trim line) (i + 1)) as [d|] eqn:Hd; [|exact Hs].
    cbn [fst]. apply parseTypeDeclaration_symbol in Hd as [Hname Hl].
    apply sound_pushTypes; [exact Hs|]. split; cbn; [exact Hname|].
    rewrite Hl. by apply (Hat SType). }
  destruct (startsWith (trim line) (js "const")) eqn:Hconst.
  { destruct (extractConstBlock lines i) as [b|] eqn:Hb; [|exact Hs]. cbn [fst].
    apply sound_pushConstants; [exact Hs|]. intros c Hc.
    destruct (parseConstBlock_symbol _ _ _ Hc) as (Hname & Hl & Hno & l0 & Hl0 & Hsnip).
    split; cbn; [exact Hname|]. rewrite Hl. apply (Hat SConstant); [exact Hconst|].
    intros _. destruct (includes line (js "(")) eqn:Hparen; [reflexivity|].
    exfalso. rewrite (extract_single_line lines i line b Hline Hparen (or_introl Hb)) in Hl0.
    rewrite split_one in Hl0.
    - apply list_elem_of_singleton in Hl0 as ->. rewrite Hsnip in Hno. congruence.
    - eapply Forall_lookup_1 in Hnl; [exact Hnl | exact Hline]. }
  destruct (startsWith (trim line) (js "var")) eqn:Hvar.
  { destruct (extractVarBlock lines i) as [b|] eqn:Hb; [|exact Hs]. cbn [fst].
    apply sound_pushVariables; [exact Hs|]. intros c Hc.
    destruct (parseVarBlock_symbol _ _ _ Hc) as (Hname & Hl & Hno & l0 & Hl0 & Hsnip).
    split; cbn; [exact Hname|]. rewrite Hl. apply (Hat SVariable); [exact Hvar|].
    intros _. destruct (includes line (js "(")) eqn:Hparen; [reflexivity|].
    exfalso. rewrite (extract_single_line lines i line b Hline Hparen (or_intror Hb)) in Hl0.
    rewrite split_one in Hl0.
    - apply list_elem_of_singleton in Hl0 as ->. rewrite Hsnip in Hno. congruence.
    - eapply Forall_lookup_1 in Hnl; [exact Hnl | exact Hline]. }
  destruct (startsWith (trim line) (js "func")) eqn:Hfunc; [|exact Hs].
  destruct (extractFunctionBlock lines i) as [b|]; [|exact Hs]. cbn [fst].
  destruct (parseFunction_symbol b (i + 1)) as [Hname Hl].
  apply sound_pushFunctions; [exact Hs|]. split; cbn; [exact Hname|].
  rewrite Hl. by apply (Hat SFunction).
Qed.

Lemma parseLines_sound (s : CodeStructure) :
  Forall nl_free lines ->
  Forall (sound_symbol lines) (symbolsOf s) -> Forall (sound_symbol lines) (symbolsOf (parseLines lines lines 0 0 s)).
Proof.
  intros Hnl. apply (parseLines_preserves lines (fun s => Forall (sound_symbol lines) (symbolsOf s))).
  intros i line s' Hline. by apply parseLine_sound.
Qed.
End Sound.

Lemma parseLine_filePath (lines : list str) (i : nat) (line : str) (s : CodeStructure) :
  filePath (parseLine lines i line s).1 = filePath s.
Proof.
  unfold parseLine.
  repeat match goal with
         | |- context [if ?b then _ else _] => destruct b
         | |- context [match ?o with Some _ => _ | None => _ end] => destruct o
         end; reflexivity.
Qed.

Lemma parseLines_filePath (lines rest : list str) (i skip : nat) (s : CodeStructure) :
  filePath (parseLines lines rest i skip s) = filePath s.
Proof.
  revert i skip s. induction rest as [|line rest IH]; intros i skip s; [reflexivity|].
  cbn [parseLines]. destruct skip as [|k]; [|apply IH].
  pose proof (parseLine_filePath lines i line s) as H.
  destruct (parseLine lines i line s) as [s' e]. rewrite IH. exact H.
Qed.

Lemma parseBody_filePath (content : str) (s : CodeStructure) :
  filePath (parseBody content s) = filePath s.
Proof.
  unfold parseBody, parseGoContent. rewrite parseLines_filePath.
  by destruct (exec _ content).
Qed.

Lemma symbolsOf_file (s : CodeStructure) (symbol : ProjectSymbol) :
  symbol ∈ symbolsOf s -> ps_file symbol = filePath s.
Proof.
  unfold symbolsOf. rewrite !elem_of_app.
  intros [H|[H|[H|[H|[H|H]]]]];
    apply list_elem_of_fmap in H as (x & -> & _); reflexivity.
Qed.

Lemma parseBody_sound (content : str) (file : str) :
  Forall (sound_symbol (split nl content))
    (symbolsOf (parseBody content (emptyStructure file))).
Proof.
  unfold parseBody, parseGoContent. apply parseLines_sound.
  - apply Forall_forall. intros l0. apply split_no_sep.
  - destruct (exec _ content); constructor.
Qed.

Section Symbols.
Variable relative : str -> str -> str.

(** X20: every symbol that [analyzeProjectSymbols] reports comes from a
    discovered file that was read, carries the path of that file relative
    to the project, has a non-empty name of word characters, and has the
    number of a line of the file that starts, after white space, with the
    keyword of its kind: func for a function, type for a struct, an
    interface or a type, const for a constant, var for a variable.  The
    line of a constant or a variable holds an opening parenthesis: a
    declaration on one line is not reported. *)
Theorem project_symbols_sit_on_keyword_lines (p : project)
    (symbols : list ProjectSymbol) (symbol : ProjectSymbol) :
  analyzeProjectSymbols relative p = Some symbols ->
  symbol ∈ symbols ->
  exists filePath content,
    filePath ∈ getGoFilesRecursive p /\
    readFileSync p filePath = Some content /\
    ps_file symbol = relative (projectPath p) filePath /\
    identifier (ps_name symbol) /\
    declared_at (split nl content) (ps_type symbol) (ps_line symbol).
Proof.
  unfold analyzeProjectSymbols.
  destruct (parseAll relative parseBody p (getGoFilesRecursive p)) as [ss|] eqn:Hall;
    [|discriminate].
  cbn [mbind option_bind]. intros [= <-] Hin.
  apply parseAll_Some in Hall.
  apply list_elem_of_In, in_flat_map in Hin as (s & Hs & Hin).
  apply list_elem_of_In in Hs, Hin.
  destruct (list_elem_of_lookup_1 _ _ Hs) as [k Hk].
  destruct (Forall2_lookup_r _ _ _ _ _ Hall Hk) as (f & Hf & content & Hread & ->).
  exists f, content. split; [by eapply list_elem_of_lookup_2|]. split; [exact Hread|].
  split.
  - rewrite (symbolsOf_file _ _ Hin), parseBody_filePath. reflexivity.
  - pose proof (parseBody_sound content (relative (projectPath p) f)) as Hsound.
    rewrite Forall_forall in Hsound. apply (Hsound _ Hin).
Qed.
End Symbols.

Import Examples.

(** X20: an example. *)
Lemma project_symbols_sit_on_keyword_lines_witness :
  exists filePath content,
    filePath ∈ getGoFilesRecursive cycle_project /\
    readFileSync cycle_project filePath = Some content /\
    js "main.go" = relativeTo (projectPath cycle_project) filePath /\
    identifier (js "Handle") /\
    declared_at (split nl content) SFunction 3.
Proof.
  refine (project_symbols_sit_on_keyword_lines relativeTo cycle_project _
            {| ps_name := js "Handle"; ps_type := SFunction; ps_file := js "main.go";
               ps_line := 3 |} _ _).
  - vm_compute. reflexivity.
  - left.
Defined.

End ProjectSymbols.

(** *** Imports *)

Section Imports.
Import AST ASTParser.

Lemma rmatch_lit {R} (w : str) :
  forall (pos : nat) (prev : option ascii) (s : str) (caps : captures) (k : @cont R) (x : R),
    rmatch (lit w) pos prev s caps k = Some x -> exists rest, s = w ++ rest.
Proof.
  unfold lit. induction w as [|c w IH]; intros pos prev s caps k x.
  - intros _. by exists s.
  - destruct w as [|c' w].
    + cbn [map seqs]. unfold chr. destruct s as [|d s]; [by rewrite rmatch_char_nil|].
      rewrite rmatch_char. destruct (Ascii.eqb_spec c d) as [->|]; [|discriminate].
      intros _. by exists s.
    + change (seqs (map chr (c :: c' :: w))) with (RSeq (chr c) (seqs (map chr (c' :: w)))).
      rewrite rmatch_seq. unfold chr at 1. destruct s as [|d s]; [by rewrite rmatch_char_nil|].
      rewrite rmatch_char.
      destruct (Ascii.eqb_spec c d) as [->|]; [|discriminate].
      intros (rest & ->)%IH. by exists rest.
Qed.

Lemma importPattern_keyword (t : str) (m : rmatched) :
  exec importPattern t = Some m -> includes t (js "import") = true.
Proof.
  intros (prev & Hm & Hle)%exec_inv. unfold match_here in Hm.
  unfold importPattern in Hm. cbn [seqs] in Hm. unfold l at 1 in Hm.
  rewrite rmatch_seq in Hm. apply rmatch_lit in Hm as (rest & Hrest).
  apply includes_spec. exists (take (m_index m) t), rest.
  rewrite <- Hrest. by rewrite take_drop.
Qed.

Lemma firstTruthy_nonempty (texts : list (option str)) (t : str) :
  firstTruthy texts = Some t -> t <> [].
Proof.
  induction texts as [|[[|c s]|] texts IH]; cbn [firstTruthy]; try assumption.
  - discriminate.
  - by intros [= <-].
Qed.

Lemma parseImportBlock_elem (b : block) (startLine : nat) (x : ImportDeclaration) :
  x ∈ parseImportBlock b startLine ->
  imp_path x <> [] /\ includes (imp_codeSnippet x) (js "import") = true /\
  imp_line x = startLine /\
  exists line, line ∈ split nl (content b) /\ imp_codeSnippet x = trim line.
Proof.
  unfold parseImportBlock. intros (line & Hline & Hx)%list_elem_of_omap.
  destruct (isBlank (trim line)); [discriminate|].
  destruct (exec importPattern (trim line)) as [m|] eqn:Hm; [|discriminate].
  cbn [mbind option_bind] in Hx.
  destruct (firstTruthy _) as [path|] eqn:Hpath; [|discriminate].
  cbn [mbind option_bind] in Hx. injection Hx as <-. cbn.
  split; [by eapply firstTruthy_nonempty|].
  split; [by eapply importPattern_keyword|]. split; [reflexivity | eauto].
Qed.

Lemma parseLine_imports (lines : list str) (i : nat) (line : str) (s : CodeStructure) :
  lines !! i = Some line ->
  Forall (sound_import lines) (imports s) ->
  Forall (sound_import lines) (imports (parseLine lines i line s).1).
Proof.
  intros Hline Hs. unfold parseLine.
  destruct (startsWith (trim line) (js "import")) eqn:Himport.
  { destruct (extractImportBlock lines i) as [b|]; [|exact Hs]. cbn [fst pushImports imports].
    apply Forall_app. split; [exact Hs|]. apply Forall_forall. intros x Hx.
    destruct (parseImportBlock_elem _ _ _ Hx) as (Hpath & Hsnip & Hl & _).
    split; [exact Hpath|]. split; [exact Hsnip|]. exists i, line. auto. }
  repeat match goal with
         | |- context [if ?c then _ else _] => destruct c
         | |- context [match ?o with Some _ => _ | None => _ end] => destruct o
         end; exact Hs.
Qed.

(** X19: every import that [parseGoContent] reports has a path that is not
    empty, a snippet that holds the word import, and the number of a line
    of the text that starts, after white space, with import.  So a path on
    a line of its own inside a parenthesised import block, without the word
    import before it, is not reported. *)
Theorem imports_need_the_keyword (content file : str) :
  Forall (sound_import (split nl content))
    (imports (parseBody content (emptyStructure file))).
Proof.
  unfold parseBody, parseGoContent.
  apply (parseLines_preserves _ (fun s => Forall (sound_import (split nl content)) (imports s))).
  - intros i line s. apply parseLine_imports.
  - destruct (exec _ content); constructor.
Qed.

End Imports.

(** *** Duplicate symbols *)

Section DuplicateSymbols.
Import AST ASTParser.

Lemma symbolKey_inj (a b : ProjectSymbol) :
  symbolKey a = symbolKey b <-> ps_type a = ps_type b /\ ps_name a = ps_name b.
Proof.
  unfold symbolKey. split.
  - destruct (ps_type a), (ps_type b); cbn; intros H; try discriminate H;
      (split; [reflexivity|]); by injection H.
  - by intros [-> ->].
Qed.

Lemma str_eqb_eq (a b : str) : str_eqb a b = true <-> a = b.
Proof. unfold str_eqb. apply bool_decide_eq_true. Qed.

Lemma addSymbol_keys (symbol : ProjectSymbol) (m : list (str * list ProjectSymbol)) :
  (addSymbol symbol m).*1
  = if bool_decide (symbolKey symbol ∈ m.*1) then m.*1 else m.*1 ++ [symbolKey symbol].
Proof.
  induction m as [|[key g] m IH]; [reflexivity|].
  cbn [addSymbol]. destruct (str_eqb key (symbolKey symbol)) eqn:Hk.
  - apply str_eqb_eq in Hk as ->. cbn. rewrite bool_decide_eq_true_2; [reflexivity | left].
  - cbn [fmap list_fmap fst]. cbn [fmap] in IH. rewrite IH.
    assert (Hne : key <> symbolKey symbol).
    { intros Heq. apply str_eqb_eq in Heq. congruence. }
    case_bool_decide as H1; case_bool_decide as H2; try reflexivity.
    + exfalso. apply H2. by right.
    + exfalso. apply elem_of_cons in H2 as [H2|H2]; [congruence | contradiction].
Qed.

Lemma addSymbol_elem (symbol : ProjectSymbol) (m : list (str * list ProjectSymbol))
    (key : str) (group : list ProjectSymbol) :
  NoDup m.*1 ->
  (key, group) ∈ addSymbol symbol m <->
  (key <> symbolKey symbol /\ (key, group) ∈ m) \/
  (key = symbolKey symbol /\
   ((exists g0, (key, g0) ∈ m /\ group = g0 ++ [symbol]) \/
    ((key ∉ m.*1) /\ group = [symbol]))).
Proof.
  induction m as [|[k g] m IH]; intros Hnd.
  - cbn [addSymbol]. rewrite list_elem_of_singleton. split.
    + intros [= -> ->]. right. split; [reflexivity|]. right. split; [|reflexivity].
      intros H. inversion H.
    + intros [[_ H] | [-> [(g0 & H & _) | [_ ->]]]]; [by inversion H | by inversion H |].
      reflexivity.
  - cbn [fmap list_fmap fst] in Hnd. apply NoDup_cons in Hnd as [Hk Hnd].
    specialize (IH Hnd). cbn [addSymbol].
    destruct (str_eqb k (symbolKey symbol)) eqn:Heq.
    + apply str_eqb_eq in Heq as ->. rewrite !elem_of_cons. split.
      * intros [[= -> ->] | Hin].
        -- right. split; [reflexivity|]. left. exists g. split; [by left | reflexivity].
        -- left. split; [|by right]. intros ->. apply Hk.
           apply list_elem_of_fmap. by exists (symbolKey symbol, group).
      * intros [[Hne Hin] | [-> [(g0 & Hin & ->) | [Hnot ->]]]].
        -- destruct Hin as [[= -> ->] | Hin]; [congruence | by right].
        -- apply elem_of_cons in Hin as [[= ->] | Hin]; [by left|].
           exfalso. apply Hk. apply list_elem_of_fmap. by exists (symbolKey symbol, g0).
        -- exfalso. apply Hnot. cbn. left.
    + assert (Hne : k <> symbolKey symbol) by (intros Heq'; apply str_eqb_eq in Heq'; congruence).
      rewrite elem_of_cons, IH. cbn [fmap list_fmap fst]. split.
      * intros [[= -> ->] | [[Hkey Hin] | [-> [(g0 & Hin & ->) | [Hnot ->]]]]].
        -- left. split; [exact Hne | by left].
        -- left. split; [exact Hkey | by right].
        -- right. split; [reflexivity|]. left. exists g0. split; [by right | reflexivity].
        -- right. split; [reflexivity|]. right. split; [|reflexivity].
           intros [H|H]%elem_of_cons; [congruence | contradiction].
      * intros [[Hkey Hin] | [-> [(g0 & Hin & ->) | [Hnot ->]]]].
        -- apply elem_of_cons in Hin as [[= -> ->] | Hin]; [by left|].
           right. left. by split.
        -- apply elem_of_cons in Hin as [[= Hk1 Hg] | Hin]; [congruence|].
           right. right. split; [reflexivity|]. left. by exists g0.
        -- right. right. split; [reflexivity|]. right. split; [|reflexivity].
           intros H. apply Hnot. by right.
Qed.

Lemma filter_none {A} (P : A -> Prop) `{forall x, Decision (P x)} (l : list A) :
  (forall x, x ∈ l -> ~ P x) -> filter P l = [].
Proof.
  induction l as [|a l IH]; intros Hl; [reflexivity|].
  rewrite filter_cons_False by (apply Hl; left). apply IH. intros x Hx. apply Hl. by right.
Qed.

Lemma groupSymbols_spec (symbols : list ProjectSymbol) :
  NoDup (groupSymbols symbols).*1 /\
  forall key group,
    (key, group) ∈ groupSymbols symbols <->
    key ∈ symbolKey <$> symbols /\ group = symbolsOfKey key symbols.
Proof.
  unfold groupSymbols, symbolsOfKey.
  induction symbols as [|symbol symbols IH] using rev_ind.
  - cbn. split; [constructor|]. intros key group. split.
    + intros H. inversion H.
    + intros [H _]. inversion H.
  - rewrite fold_left_app. cbn [fold_left]. destruct IH as [Hnd IH].
    set (m := fold_left _ symbols []) in *. split.
    + rewrite addSymbol_keys. case_bool_decide as Hin; [exact Hnd|].
      apply NoDup_app. split; [exact Hnd|]. split; [|apply NoDup_singleton].
      intros x Hx ->%list_elem_of_singleton. contradiction.
    + intros key group. rewrite (addSymbol_elem _ _ _ _ Hnd), fmap_app, elem_of_app.
      rewrite filter_app. cbn [fmap list_fmap]. rewrite list_elem_of_singleton.
      assert (Hkeys : forall k, k ∈ m.*1 <-> k ∈ symbolKey <$> symbols).
      { intros k. rewrite list_elem_of_fmap. split.
        - intros ([k' g] & -> & Hin). by apply IH in Hin as [Hin _].
        - intros Hin. exists (k, filter (fun s => symbolKey s = k) symbols).
          split; [reflexivity|]. by apply IH. }
      destruct (decide (key = symbolKey symbol)) as [->|Hne].
      * rewrite filter_cons_True by reflexivity. rewrite filter_nil. split.
        -- intros [[Hne _] | [_ [(g0 & Hin & ->) | [Hnot ->]]]]; [congruence | |].
           ++ apply IH in Hin as [Hin ->]. split; [by right | reflexivity].
           ++ split; [by right|]. rewrite Hkeys in Hnot.
              replace (filter _ symbols) with (@nil ProjectSymbol); [reflexivity|].
              symmetry. apply filter_none. intros s Hs Heq.
              apply Hnot, list_elem_of_fmap. by exists s.
        -- intros [_ ->]. right. split; [reflexivity|].
           destruct (decide (symbolKey symbol ∈ m.*1)) as [Hin|Hnot].
           ++ left. exists (filter (fun s => symbolKey s = symbolKey symbol) symbols).
              split; [|reflexivity]. apply IH. split; [by apply Hkeys | reflexivity].
           ++ right. split; [exact Hnot|]. rewrite Hkeys in Hnot.
              replace (filter _ symbols) with (@nil ProjectSymbol); [reflexivity|].
              symmetry. apply filter_none. intros s Hs Heq.
              apply Hnot, list_elem_of_fmap. by exists s.
      * rewrite filter_cons_False by congruence. rewrite filter_nil, app_nil_r.
        rewrite IH. split.
        -- intros [[_ [Hin ->]] | [Heq _]]; [|congruence]. split; [by left | reflexivity].
        -- intros [[Hin | Heq] ->]; [|congruence]. left. by split.
Qed.

Section Duplicates.
Variable relative : str -> str -> str.

(** X22: the handler of [ast:getDuplicateSymbols] fails exactly when the
    scan of the project throws.  Otherwise no key is reported twice, and a
    key is reported with a group exactly when the group is the list of all
    symbols of the project with that key, in the order of the scan, and
    holds more than one symbol.  Two symbols have the same key exactly when
    they have the same kind and the same name. *)
Theorem duplicates_are_the_groups_of_two_or_more (p : project) :
  match getDuplicateSymbols relative p with
  | Duplicates ds =>
      exists symbols,
        analyzeProjectSymbols relative p = Some symbols /\
        NoDup ds.*1 /\
        forall key group,
          (key, group) ∈ ds <->
          group = symbolsOfKey key symbols /\ 1 < length group
  | DuplicatesFailure => analyzeProjectSymbols relative p = None
  end /\
  forall a b : ProjectSymbol,
    symbolKey a = symbolKey b <-> ps_type a = ps_type b /\ ps_name a = ps_name b.
Proof.
  split; [|apply symbolKey_inj].
  unfold getDuplicateSymbols.
  destruct (analyzeProjectSymbols relative p) as [symbols|]; [|reflexivity].
  exists symbols. split; [reflexivity|].
  destruct (groupSymbols_spec symbols) as [Hnd Hspec]. split.
  - eapply sublist_NoDup; [exact Hnd|]. apply fmap_sublist, sublist_filter.
  - intros key group. rewrite list_elem_of_filter, Hspec. cbn [snd]. split.
    + intros [Hlen [_ ->]]. by split.
    + intros [-> Hlen]. split; [exact Hlen|]. split; [|reflexivity].
      destruct (symbolsOfKey key symbols) as [|s g] eqn:Hg; [cbn in Hlen; lia|].
      assert (Hs : s ∈ symbolsOfKey key symbols) by (rewrite Hg; left).
      apply list_elem_of_filter in Hs as [<- Hs]. apply list_elem_of_fmap. by exists s.
Qed.
End Duplicates.

End DuplicateSymbols.

(** *** The two deny lists *)

Section DenyLists.

Lemma startsWith_includes (s p : str) : startsWith s p = true -> includes s p = true.
Proof. intros H. destruct s; cbn [includes]; by rewrite H. Qed.

Lemma includes_trans (s a b : str) :
  includes s a = true -> includes a b = true -> includes s b = true.
Proof.
  rewrite !includes_spec. intros (x & y & ->) (u & v & ->).
  exists (x ++ u), (v ++ y). by rewrite <- !app_assoc.
Qed.

Lemma commonPatterns_dotted (name : str) :
  existsb (fun pattern => startsWith name pattern) Flow.commonPatterns = true ->
  includes name (js ".") = true.
Proof.
  intros (pattern & Hin & Hp)%existsb_exists.
  apply startsWith_includes in Hp. apply (includes_trans _ _ _ Hp).
  unfold Flow.commonPatterns in Hin. cbn [map] in Hin.
  repeat (destruct Hin as [<- | Hin]; [reflexivity|]). destruct Hin.
Qed.

(** X26: the deny list of the tracer against the deny list of the
    call-graph analysis.  Except for the word range, which only the tracer
    denies, a name is denied by [isBuiltinOrKeyword] exactly when it is
    denied by [isBuiltinOrCommonPattern] or holds a dot. *)
Theorem deny_lists_differ_by_selectors :
  (forall name,
      name <> js "range" ->
      GoUtils.isBuiltinOrKeyword name
      = Flow.isBuiltinOrCommonPattern name || includes name (js ".")) /\
  GoUtils.isBuiltinOrKeyword (js "range") = false /\
  Flow.isBuiltinOrCommonPattern (js "range") = true.
Proof.
  split; [|split; reflexivity].
  intros name Hrange. unfold GoUtils.isBuiltinOrKeyword, Flow.isBuiltinOrCommonPattern.
  destruct (includes name (js ".")) eqn:Hdot; [by rewrite !orb_true_r|].
  rewrite !orb_false_r.
  assert (Hprefix : forall p, includes p (js ".") = true -> startsWith name p = false).
  { intros p Hp. destruct (startsWith name p) eqn:Hs; [|reflexivity].
    apply startsWith_includes in Hs. rewrite (includes_trans _ _ _ Hs Hp) in Hdot.
    discriminate. }
  rewrite !Hprefix by reflexivity. rewrite !orb_false_r.
  destruct (existsb _ Flow.commonPatterns) eqn:Hcommon.
  { apply commonPatterns_dotted in Hcommon. congruence. }
  rewrite orb_false_r. apply bool_decide_ext. split.
  - unfold GoUtils.builtins. cbn [map]. intros Hin.
    repeat (apply elem_of_cons in Hin as [-> | Hin];
            [first [discriminate Hdot | by (apply list_elem_of_In; vm_compute; tauto)]|]).
    inversion Hin.
  - unfold Flow.flowBuiltins. cbn [map]. intros Hin.
    repeat (apply elem_of_cons in Hin as [-> | Hin];
            [first [contradiction | by (apply list_elem_of_In; vm_compute; tauto)]|]).
    inversion Hin.
Qed.

End DenyLists.

(** *** Relative paths *)

Section RelativePaths.






End RelativePaths.

(** *** Parameters of calls and of handlers *)

Section Trimming.

Lemma trimStart_head (s : str) (c : ascii) :
  head (trimStart s) = Some c -> is_s c = false.
Proof.
  induction s as [|d s IH]; [discriminate|]. cbn [trimStart].
  destruct (is_s d) eqn:Hd; [exact IH|]. by intros [= <-].
Qed.

Lemma trimStart_fixed (s : str) :
  (forall c, head s = Some c -> is_s c = false) -> trimStart s = s.
Proof.
  destruct s as [|d s]; [reflexivity|]. intros H. cbn [trimStart].
  by rewrite (H d eq_refl).
Qed.

Lemma trimStart_idemp (s : str) : trimStart (trimStart s) = trimStart s.
Proof. apply trimStart_fixed, trimStart_head. Qed.

Lemma trimStart_suffix (s : str) : exists t, s = t ++ trimStart s.
Proof.
  induction s as [|d s [t IH]]; [by exists []|]. cbn [trimStart].
  destruct (is_s d); [|by exists []]. exists (d :: t). cbn. by rewrite <- IH.
Qed.

Lemma trimStart_nil (s : str) : trimStart s = [] -> forallb is_s s = true.
Proof.
  induction s as [|d s IH]; [reflexivity|]. cbn [trimStart forallb].
  destruct (is_s d); [exact IH | discriminate].
Qed.

Lemma trim_nil (s : str) : trim s = [] -> forallb is_s s = true.
Proof.
  unfold trim, trimEnd. intros H. apply (f_equal (@rev ascii)) in H.
  rewrite rev_involutive in H. cbn [rev] in H. apply trimStart_nil in H.
  apply forallb_rev' in H. rewrite rev_involutive in H. apply trimStart_nil.
  destruct (trimStart s) as [|c t] eqn:Ht; [reflexivity|]. exfalso.
  cbn [forallb] in H. apply andb_true_iff in H as [Hc _].
  pose proof (trimStart_head s c) as Hh. rewrite Ht in Hh. specialize (Hh eq_refl).
  congruence.
Qed.

Lemma forallb_take' {A} (P : A -> bool) (n : nat) (s : list A) :
  forallb P s = true -> forallb P (take n s) = true.
Proof.
  intros H. rewrite <- (take_drop n s), forallb_app in H.
  by apply andb_true_iff in H as [H _].
Qed.

Lemma trimEnd_prefix (s : str) : exists t, s = trimEnd s ++ t.
Proof.
  unfold trimEnd. destruct (trimStart_suffix (rev s)) as [t Ht]. exists (rev t).
  rewrite <- rev_app_distr, <- Ht. by rewrite rev_involutive.
Qed.

Lemma trimStart_trim (s : str) : trimStart (trim s) = trim s.
Proof.
  apply trimStart_fixed. intros c Hc. unfold trim in Hc.
  destruct (trimEnd_prefix (trimStart s)) as [t Ht].
  apply (trimStart_head s). rewrite Ht.
  destruct (trimEnd (trimStart s)); [discriminate | exact Hc].
Qed.

Lemma trim_trimmed (s : str) : trimmed (trim s).
Proof.
  unfold trimmed, trim at 1. rewrite trimStart_trim. unfold trim, trimEnd. rewrite rev_involutive, trimStart_idemp.
  reflexivity.
Qed.

Lemma split_forallb (P : ascii -> bool) (sep : ascii) (s l0 : str) :
  forallb P s = true -> l0 ∈ split sep s -> forallb P l0 = true.
Proof.
  revert l0. induction s as [|c s IH]; intros l0 Hs.
  - intros ->%list_elem_of_singleton. reflexivity.
  - cbn [forallb] in Hs. apply andb_true_iff in Hs as [Hc Hs]. cbn [split].
    destruct (Ascii.eqb c sep).
    + intros [-> | Hin]%elem_of_cons; [reflexivity | by apply IH].
    + destruct (split sep s) as [|h t] eqn:Hsplit.
      * intros ->%list_elem_of_singleton. cbn. by rewrite Hc.
      * intros [-> | Hin]%elem_of_cons.
        -- cbn. rewrite Hc. apply IH; [exact Hs | by left].
        -- apply IH; [exact Hs | by right].
Qed.

Lemma not_elem_forallb (c : ascii) (s : str) :
  c ∉ s <-> forallb (fun d => negb (Ascii.eqb c d)) s = true.
Proof.
  induction s as [|d s IH]; [split; [reflexivity | intros _ H; inversion H]|].
  rewrite not_elem_of_cons, IH. cbn [forallb]. rewrite andb_true_iff.
  destruct (Ascii.eqb_spec c d); cbn; split; intros [H1 H2]; split; congruence.
Qed.

Lemma nonempty_true (s : str) : nonempty s = true <-> s <> [].
Proof. unfold nonempty. rewrite negb_true_iff, bool_decide_eq_false. reflexivity. Qed.

End Trimming.

Section CallParameters.
Import Flow.

(** X24: [extractParametersFromCall] reports texts that are not empty, have
    no white space at either end and hold neither a comma nor a closing
    parenthesis, so the arguments of a nested call are cut at its closing
    parenthesis; and it reports nothing for a context without an opening
    parenthesis. *)
Theorem call_parameters_are_trimmed_pieces (context : str) :
  Forall (fun param => param <> [] /\ trimmed param /\
                       (","%char ∉ param) /\ (")"%char ∉ param))
    (extractParametersFromCall context) /\
  (includes context (js "(") = false -> extractParametersFromCall context = []).
Proof.
  unfold extractParametersFromCall.
  destruct (exec _ context) as [m|] eqn:Hm; [|split; [constructor | reflexivity]].
  split.
  - assert (Hgroup : ")"%char ∉ default [] (grp m 1)).
    { destruct (grp m 1) as [g|] eqn:Hg; [|intros H; inversion H]. cbn [default].
      apply exec_sound in Hm as (_ & _ & _ & HG).
      apply (HG (fun n t => ")"%char ∉ t)) with (n := 1); [|exact Hg].
      cbn. split_groups. intros t [Ht _]. apply not_elem_forallb, Ht.
      cbn. intros c Hc. exact Hc. }
    apply Forall_forall. intros param [Hne Hin]%list_elem_of_filter.
    apply list_elem_of_fmap in Hin as (piece & -> & Hpiece).
    split; [by apply nonempty_true|]. split; [apply trim_trimmed|]. split.
    + apply not_elem_forallb, forallb_trim, not_elem_forallb.
      by apply split_no_sep in Hpiece.
    + apply not_elem_forallb, forallb_trim.
      apply (split_forallb _ _ _ _ (proj1 (not_elem_forallb _ _) Hgroup) Hpiece).
  - intros Hno. exfalso. apply exec_inv in Hm as (prev & Hm & _).
    unfold match_here in Hm. cbn [seqs] in Hm. unfold l at 1 in Hm.
    rewrite rmatch_seq in Hm. apply rmatch_lit in Hm as (rest & Hrest).
    assert (Hin : includes context (js "(") = true); [|congruence].
    apply includes_spec. exists (take (m_index m) context), rest.
    rewrite <- Hrest. by rewrite take_drop.
Qed.

Lemma matches_from_space (s : str) (pos : nat) (prev : option ascii) :
  match matches_from (plus space) 0 pos prev s with
  | [] => forallb nonspace s = true
  | m :: _ => m_index m = pos + run nonspace s
  end.
Proof.
  revert pos prev. induction s as [|c s IH]; intros pos prev; [reflexivity|].
  cbn [matches_from]. unfold space at 1. rewrite match_here_plus_class.
  cbn [run forallb]. unfold nonspace at 1 3. destruct (is_s c); cbn [negb andb].
  - cbn [m_index]. lia.
  - specialize (IH (S pos) (Some c)).
    destruct (matches_from (plus space) 0 (S pos) (Some c) s) as [|m ms];
      [exact IH | lia].
Qed.

Lemma run_length (P : ascii -> bool) (s : str) :
  forallb P s = true -> run P s = length s.
Proof.
  induction s as [|c s IH]; [reflexivity|]. cbn. intros [-> H]%andb_true_iff.
  by rewrite IH.
Qed.

Lemma split_re_space_head (t : str) :
  head (split_re (plus space) t) = Some (firstWord t).
Proof.
  unfold split_re, matchAll, firstWord.
  pose proof (matches_from_space t 0 None) as H.
  destruct (matches_from (plus space) 0 0 None t) as [|m ms]; cbn [split_at head].
  - rewrite (run_length _ _ H), drop_0, firstn_all. reflexivity.
  - rewrite H. unfold substring. cbn [Nat.add].
    rewrite Nat.max_r, Nat.min_l, drop_0, Nat.sub_0_r by lia. reflexivity.
Qed.

Lemma firstWord_trimmed (t : str) : trimmed t -> firstWord t = [] -> t = [].
Proof.
  unfold trimmed, firstWord. intros Ht Hw. destruct t as [|c t]; [reflexivity|].
  exfalso. assert (Hc : is_s c = false).
  { apply (trimStart_head (trim (c :: t))). rewrite trimStart_trim, Ht.
    reflexivity. }
  cbn [run] in Hw. unfold nonspace in Hw. rewrite Hc in Hw. discriminate.
Qed.

(** X25: [parseParameters] of apiFlowUtils.ts reports, for every text
    between commas that is not blank, its first word: the longest text
    without white space that the trimmed text starts with.  So every
    parameter it reports is not empty and holds neither white space nor a
    comma. *)
Theorem parameters_are_first_words (paramStr : str) :
  parseParameters paramStr
  = filter (fun param => param <> [])
      (map (fun piece => firstWord (trim piece)) (split "," paramStr)) /\
  Forall (fun param => param <> [] /\ forallb nonspace param = true /\
                       (","%char ∉ param))
    (parseParameters paramStr).
Proof.
  assert (Heq : parseParameters paramStr
                = filter (fun param => param <> [])
                    (map (fun piece => firstWord (trim piece)) (split "," paramStr))).
  { unfold parseParameters.
    assert (Hmap : filter (fun p => nonempty p = true)
                     (map (fun p => or_else (head (split_re (plus space) (trim p))) (trim p))
                        (split "," paramStr))
                   = filter (fun param => param <> [])
                       (map (fun piece => firstWord (trim piece)) (split "," paramStr))).
    { rewrite (list_filter_iff (fun p => nonempty p = true) (fun p => p <> []))
        by (intros; apply nonempty_true).
      f_equal. apply map_ext. intros piece. rewrite split_re_space_head.
      destruct (firstWord (trim piece)) as [|c w] eqn:Hw; [|reflexivity].
      cbn [or_else]. apply (firstWord_trimmed _ (trim_trimmed piece) Hw). }
    destruct (nonempty (trim paramStr)) eqn:Hblank; cbn [negb]; [exact Hmap|].
    assert (Ht : trim paramStr = []).
    { destruct (decide (trim paramStr = [])) as [He | Hne]; [exact He|].
      apply nonempty_true in Hne. congruence. }
    assert (Hcomma : ","%char ∉ paramStr).
    { apply not_elem_forallb. apply trim_nil in Ht.
      eapply forallb_weaken; [|exact Ht]. intros c Hc.
      destruct (Ascii.eqb_spec "," c) as [<-|]; [discriminate Hc | reflexivity]. }
    rewrite (split_one _ _ Hcomma). cbn [map]. rewrite Ht.
    by rewrite filter_cons_False by (intros H; by apply H). }
  split; [exact Heq|]. rewrite Heq. apply Forall_forall.
  intros param [Hne Hin]%list_elem_of_filter.
  apply list_elem_of_fmap in Hin as (piece & -> & Hpiece).
  split; [exact Hne|]. unfold firstWord. split.
  - apply (run_split nonspace (trim piece)).
  - apply not_elem_forallb, forallb_take', forallb_trim, not_elem_forallb.
    by apply split_no_sep in Hpiece.
Qed.

End CallParameters.

(** *** Database queries *)

Section MatchAllInversion.

Lemma matchAll_inv (r : regex) (s : str) (m : rmatched) :
  m ∈ matchAll r s ->
  exists prev n,
    match_here r prev (drop (m_index m) s) = Some (S n, m_caps m) /\
    m_text m = take (S n) (drop (m_index m) s).
Proof.
  unfold matchAll.
  assert (Hgen : forall skip pos prev pre,
             pos = length pre ->
             m ∈ matches_from r skip pos prev s ->
             exists prev' n,
               match_here r prev' (drop (m_index m) (pre ++ s)) = Some (S n, m_caps m) /\
               m_text m = take (S n) (drop (m_index m) (pre ++ s))).
  { induction s as [|c s IH]; intros skip pos prev pre Hpos Hs; [inversion Hs|].
    assert (Hnext : forall skip',
               m ∈ matches_from r skip' (S pos) (Some c) s ->
               exists prev' n,
                 match_here r prev' (drop (m_index m) (pre ++ c :: s))
                 = Some (S n, m_caps m) /\
                 m_text m = take (S n) (drop (m_index m) (pre ++ c :: s))).
    { intros skip' Hs'. specialize (IH skip' (S pos) (Some c) (pre ++ [c])).
      rewrite <- app_assoc in IH. apply IH; [|assumption].
      rewrite length_app. simpl. lia. }
    cbn [matches_from] in Hs. destruct skip as [|skip]; [|by eapply Hnext].
    destruct (match_here r prev (c :: s)) as [[[|len] caps]|] eqn:Hh;
      try by eapply Hnext.
    apply elem_of_cons in Hs as [-> | Hs]; [|by eapply Hnext].
    cbn [m_text m_index m_caps]. exists prev, len.
    rewrite Hpos, drop_app_length. split; [exact Hh | reflexivity]. }
  intros Hs. exact (Hgen 0 0 None [] eq_refl Hs).
Qed.

End MatchAllInversion.

Section DatabaseQueries.
Import Flow.

Lemma within_lit_ci (P : ascii -> bool) (w : str) :
  (forall v c, v ∈ w -> Ascii.eqb (lower_char c) (lower_char v) = true -> P c = true) ->
  within P (lit_ci w).
Proof.
  unfold lit_ci. induction w as [|v w IH]; intros H; [exact I|].
  destruct w as [|v' w].
  - cbn. intros c Hc. apply (H v c); [left | exact Hc].
  - change (seqs (map chr_ci (v :: v' :: w)))
      with (RSeq (chr_ci v) (seqs (map chr_ci (v' :: w)))).
    cbn [within]. split.
    + intros c Hc. apply (H v c); [left | exact Hc].
    + apply IH. intros u c Hu. apply H. by right.
Qed.

Lemma queryPattern_text (quote : ascii) (verb : string) (prev : option ascii) (t : str)
    (n : nat) (caps : captures) :
  within (fun c => negb (Ascii.eqb quote c)) (lit_ci (js verb)) ->
  match_here (queryPattern quote verb) prev t = Some (n, caps) ->
  exists sql rest,
    t = quote :: sql ++ quote :: rest /\ n = S (S (length sql)) /\ quote ∉ sql.
Proof.
  intros Hverb. unfold match_here, queryPattern. cbn [seqs]. unfold chr at 1.
  rewrite rmatch_seq. destruct t as [|a t]; [by rewrite rmatch_char_nil|].
  rewrite rmatch_char. destruct (Ascii.eqb_spec quote a) as [<-|]; [|discriminate].
  rewrite rmatch_seq. intros H.
  apply rmatch_sound in H as (sql & s' & prev' & caps' & -> & Hk & [Hw _] & _).
  unfold chr in Hk. destruct s' as [|b s']; [by rewrite rmatch_char_nil in Hk|].
  rewrite rmatch_char in Hk. destruct (Ascii.eqb_spec quote b) as [<-|]; [|discriminate].
  injection Hk as <- _. exists sql, s'. split; [reflexivity|]. split; [lia|].
  apply not_elem_forallb, Hw. cbn [within]. split; [exact Hverb|].
  unfold plus, notchr. cbn [within]. split; intros c Hc; exact Hc.
Qed.

Lemma queryPatterns_text (pattern : regex) (content : str) (m : rmatched) :
  pattern ∈ queryPatterns -> m ∈ matchAll pattern content ->
  exists quote sql, m_text m = quote :: sql ++ [quote] /\ quote ∉ sql.
Proof.
  intros Hp (prev & n & Hm & Ht)%matchAll_inv.
  assert (Hq : exists quote verb,
             pattern = queryPattern quote verb /\
             within (fun c => negb (Ascii.eqb quote c)) (lit_ci (js verb))).
  { unfold queryPatterns in Hp. cbn [map app] in Hp.
    repeat (apply elem_of_cons in Hp as [-> | Hp];
            [eexists _, _; split; [reflexivity|];
             apply within_lit_ci; intros v c Hv Hc;
             match goal with
             | |- negb (Ascii.eqb ?q c) = true =>
                 destruct (Ascii.eqb_spec q c) as [<-|]; [exfalso | reflexivity]
             end;
             cbn [js list_ascii_of_string] in Hv;
             repeat (apply elem_of_cons in Hv as [-> | Hv]; [discriminate Hc|]);
             inversion Hv|]).
    inversion Hp. }
  destruct Hq as (quote & verb & -> & Hverb).
  destruct (queryPattern_text _ _ _ _ _ _ Hverb Hm) as (sql & rest & Hd & Hn & Hsql).
  exists quote, sql. split; [|exact Hsql].
  rewrite Ht, Hd. injection Hn as ->. rewrite firstn_cons. f_equal.
  replace (S (length sql)) with (length (sql ++ [quote]))
    by (rewrite length_app; simpl; lia).
  change (sql ++ quote :: rest) with (sql ++ [quote] ++ rest).
  rewrite app_assoc. by rewrite take_app_length.
Qed.

Lemma queryPattern_miss (quote : ascii) (verb : string) (prev : option ascii)
    (c : ascii) (s : str) :
  c <> quote -> match_here (queryPattern quote verb) prev (c :: s) = None.
Proof.
  intros Hc. unfold match_here, queryPattern. cbn [seqs]. unfold chr at 1.
  rewrite rmatch_seq, rmatch_char.
  destruct (Ascii.eqb_spec quote c) as [<-|]; [contradiction | reflexivity].
Qed.

Lemma queryPattern_pass (quote : ascii) (verb : string) (s rest : str) (pos : nat)
    (prev : option ascii) :
  quote ∉ s ->
  exists prev',
    matches_from (queryPattern quote verb) 0 pos prev (s ++ rest)
    = matches_from (queryPattern quote verb) 0 (pos + length s) prev' rest.
Proof.
  revert pos prev. induction s as [|c s IH]; intros pos prev Hs.
  - exists prev. cbn [app length]. by rewrite Nat.add_0_r.
  - apply not_elem_of_cons in Hs as [Hc Hs].
    destruct (IH (S pos) (Some c) Hs) as [prev' Heq]. exists prev'.
    cbn [app matches_from]. rewrite queryPattern_miss by congruence.
    rewrite Heq. cbn [length]. f_equal. lia.
Qed.

Lemma select_hit (prev : option ascii) (sql post : str) :
  sql <> [] -> dq ∉ sql ->
  match_here (queryPattern dq "SELECT") prev (dq :: js "SELECT" ++ sql ++ dq :: post)
  = Some (8 + length sql, [(1, js "SELECT" ++ sql)]).
Proof.
  intros Hne Hsql. destruct sql as [|c sql]; [contradiction|].
  apply not_elem_forallb in Hsql. cbn [forallb] in Hsql.
  apply andb_true_iff in Hsql as [Hc Hsql].
  unfold match_here, queryPattern, lit_ci, chr_ci, notchr, chr, plus.
  cbn [js list_ascii_of_string map seqs app].
  rewrite rmatch_seq, rmatch_char, Ascii.eqb_refl.
  rewrite rmatch_seq, rmatch_group, rmatch_seq.
  do 5 (rewrite rmatch_seq, rmatch_char; cbv beta; rewrite Ascii.eqb_refl).
  rewrite rmatch_char; cbv beta; rewrite Ascii.eqb_refl.
  rewrite rmatch_seq, rmatch_char, Hc.
  erewrite star_class_cont; [reflexivity | exact Hsql | |].
  - intros d [= <-]. by rewrite Ascii.eqb_refl.
  - intros prev'. rewrite rmatch_char, Ascii.eqb_refl.
    replace (8 + length sql - 1) with (S (S (S (S (S (S (S (length sql)))))))) by lia.
    rewrite !firstn_cons, take_app_length. cbn [length]. do 2 f_equal.
Qed.

Lemma single_select (pre sql post : str) :
  dq ∉ pre -> sql <> [] -> dq ∉ sql -> dq ∉ post ->
  length (matchAll (queryPattern dq "SELECT")
            (pre ++ dq :: js "SELECT" ++ sql ++ dq :: post)) = 1.
Proof.
  intros Hpre Hne Hsql Hpost. unfold matchAll.
  destruct (queryPattern_pass dq "SELECT" pre (dq :: js "SELECT" ++ sql ++ dq :: post)
              0 None Hpre) as [prev ->].
  cbn [matches_from]. rewrite (select_hit prev sql post Hne Hsql).
  cbn [Nat.add length]. f_equal.
  set (text := js "SELECT" ++ sql ++ [dq]).
  replace (js "SELECT" ++ sql ++ dq :: post) with (text ++ post)
    by (unfold text; rewrite <- !app_assoc; reflexivity).
  replace (S (S (S (S (S (S (S (length sql)))))))) with (length text)
    by (unfold text; rewrite !length_app; simpl; lia).
  destruct (matches_from_skip (queryPattern dq "SELECT") text post
              (S (length pre)) (Some dq)) as [prev' ->].
  destruct (queryPattern_pass dq "SELECT" post [] (S (length pre) + length text) prev'
              Hpost) as [prev'' Heq].
  rewrite app_nil_r in Heq. rewrite Heq. reflexivity.
Qed.

(** X23: [extractDatabaseQuery] never returns the first statement it finds.
    With the statements of the first kind that the content holds, in the
    order of the patterns, it returns the second of them, quotes included,
    and [undefined] when there is only one; it returns the first hundred
    characters of the content followed by three dots when no pattern
    matches.  So for a content whose only double quotes are those around
    one statement that starts with SELECT the result is [undefined]. *)
Theorem database_query_is_the_second_statement :
  (forall content,
  match extractDatabaseQuery content with
  | None =>
      exists earlier pattern later only,
        queryPatterns = earlier ++ pattern :: later /\
        (forall r, r ∈ earlier -> matchAll r content = []) /\
        matchAll pattern content = [only]
  | Some query =>
      (query = substring 0 100 content ++ js "..." /\
       forall r, r ∈ queryPatterns -> matchAll r content = []) \/
      exists earlier pattern later first second rest quote sql,
        queryPatterns = earlier ++ pattern :: later /\
        (forall r, r ∈ earlier -> matchAll r content = []) /\
        matchAll pattern content = first :: second :: rest /\
        query = m_text second /\
        query = quote :: sql ++ [quote] /\ quote ∉ sql
  end) /\
  (forall pre sql post,
      dq ∉ pre -> sql <> [] -> dq ∉ sql -> dq ∉ post ->
      extractDatabaseQuery (pre ++ dq :: js "SELECT" ++ sql ++ dq :: post) = None).
Proof.
  split; [|intros pre sql post Hpre Hne Hsql Hpost;
           pose proof (single_select pre sql post Hpre Hne Hsql Hpost) as Hone;
           unfold extractDatabaseQuery, queryPatterns; cbn [map app firstQuery];
           destruct (matchAll _ _) as [|only [|second rest]];
           [discriminate Hone | reflexivity | discriminate Hone]].
  intros content. unfold extractDatabaseQuery.
  assert (Hgen : forall patterns earlier,
             queryPatterns = earlier ++ patterns ->
             (forall r, r ∈ earlier -> matchAll r content = []) ->
             match firstQuery patterns content with
             | None =>
                 exists earlier pattern later only,
                   queryPatterns = earlier ++ pattern :: later /\
                   (forall r, r ∈ earlier -> matchAll r content = []) /\
                   matchAll pattern content = [only]
             | Some query =>
                 (query = substring 0 100 content ++ js "..." /\
                  forall r, r ∈ queryPatterns -> matchAll r content = []) \/
                 exists earlier pattern later first second rest quote sql,
                   queryPatterns = earlier ++ pattern :: later /\
                   (forall r, r ∈ earlier -> matchAll r content = []) /\
                   matchAll pattern content = first :: second :: rest /\
                   query = m_text second /\
                   query = quote :: sql ++ [quote] /\ quote ∉ sql
             end).
  { induction patterns as [|pattern patterns IH]; intros earlier Heq Hnone.
    - cbn [firstQuery]. left. split; [reflexivity|].
      rewrite Heq, app_nil_r. exact Hnone.
    - cbn [firstQuery]. destruct (matchAll pattern content) as [|first [|second rest]] eqn:Hm.
      + apply (IH (earlier ++ [pattern])).
        * by rewrite <- app_assoc.
        * intros r [Hr | ->%list_elem_of_singleton]%elem_of_app; [by apply Hnone | exact Hm].
      + cbn. exists earlier, pattern, patterns, first. auto.
      + cbn. right.
        destruct (queryPatterns_text pattern content second) as (quote & sql & Ht & Hsql).
        { rewrite Heq. apply elem_of_app. right. left. }
        { rewrite Hm. right. left. }
        exists earlier, pattern, patterns, first, second, rest, quote, sql.
        repeat split; try assumption; reflexivity. }
  apply (Hgen queryPatterns []); [reflexivity|]. intros r Hr. inversion Hr.
Qed.

End DatabaseQueries.

(** *** Symbol usage *)

Section SymbolUsage.

Lemma referencesOfLines_elem (symbolName file : str) (lines : list str) (i : nat)
    (r : SymbolReference) :
  r ∈ referencesOfLines symbolName file lines i <->
  exists j line,
    lines !! j = Some line /\ includes line symbolName = true /\
    r = {| ref_file := file; ref_line := i + j + 1; ref_code := trim line |}.
Proof.
  revert i. induction lines as [|l0 lines IH]; intros i.
  - cbn. split; [intros H; inversion H | intros (j & line & H & _); discriminate H].
  - cbn [referencesOfLines]. rewrite elem_of_app, IH. split.
    + intros [Hr | (j & line & Hj & Hinc & ->)].
      * destruct (includes l0 symbolName) eqn:Hinc; [|inversion Hr].
        apply list_elem_of_singleton in Hr as ->. exists 0, l0.
        rewrite Nat.add_0_r. auto.
      * exists (S j), line. split; [exact Hj|]. split; [exact Hinc|].
        do 2 f_equal. lia.
    + intros ([|j] & line & Hj & Hinc & ->).
      * left. injection Hj as ->. rewrite Hinc, Nat.add_0_r. left.
      * right. exists j, line. split; [exact Hj|]. split; [exact Hinc|].
        do 2 f_equal. lia.
Qed.

Lemma collectReferences_None (p : project) (symbolName : str) (goFiles : list str) :
  collectReferences p symbolName goFiles = None <->
  exists f, f ∈ goFiles /\ readFileSync p f = None.
Proof.
  induction goFiles as [|f goFiles IH]; cbn [collectReferences].
  - split; [discriminate | intros (f & H & _); inversion H].
  - destruct (readFileSync p f) as [content|] eqn:Hread; cbn [mbind option_bind].
    + destruct (collectReferences p symbolName goFiles) as [more|]; cbn [mbind option_bind].
      * split; [discriminate|]. intros (g & [-> | Hg]%elem_of_cons & Hnone); [congruence|].
        exfalso. assert (Some more = None) as Habs; [apply IH; eauto | discriminate Habs].
      * split; [|reflexivity]. intros _. destruct (proj1 IH eq_refl) as (g & Hg & Hnone).
        exists g. split; [by right | exact Hnone].
    + split; [|reflexivity]. intros _. exists f. split; [left | exact Hread].
Qed.

Lemma collectReferences_elem (p : project) (symbolName : str) (goFiles : list str)
    (references : list SymbolReference) (r : SymbolReference) :
  collectReferences p symbolName goFiles = Some references ->
  r ∈ references <->
  exists file content,
    file ∈ goFiles /\ readFileSync p file = Some content /\
    r ∈ referencesOfLines symbolName (relativeTo (projectPath p) file)
          (split nl content) 0.
Proof.
  revert references. induction goFiles as [|f goFiles IH]; intros references;
    cbn [collectReferences].
  - intros [= <-]. split; [intros H; inversion H | intros (f & c & H & _); inversion H].
  - destruct (readFileSync p f) as [content|] eqn:Hread; [|discriminate].
    cbn [mbind option_bind].
    destruct (collectReferences p symbolName goFiles) as [more|]; [|discriminate].
    cbn [mbind option_bind]. intros [= <-]. rewrite elem_of_app, (IH more eq_refl). split.
    + intros [Hr | (g & c & Hg & Hc & Hr)].
      * exists f, content. split; [left | auto].
      * exists g, c. split; [by right | auto].
    + intros (g & c & [-> | Hg]%elem_of_cons & Hc & Hr).
      * left. congruence.
      * right. eauto.
Qed.

(** X28: the handler of [go:findSymbolUsage] returns no reference at all
    when one of the files [getGoFiles] lists cannot be read.  When all of
    them can be read, the references it returns are exactly those of the
    lines of the listed files that hold the name as a part of their text:
    each carries the path of the file below the project, the number of the
    line and the trimmed line. *)
Theorem symbol_usage_lists_every_line (p : project) (symbolName : str) :
  ((exists f, f ∈ getGoFiles p /\ readFileSync p f = None) ->
   findSymbolUsage p symbolName = []) /\
  ((forall f, f ∈ getGoFiles p -> is_Some (readFileSync p f)) ->
   forall r,
     r ∈ findSymbolUsage p symbolName <->
     exists file content i line,
       file ∈ getGoFiles p /\ readFileSync p file = Some content /\
       split nl content !! i = Some line /\ includes line symbolName = true /\
       r = {| ref_file := relativeTo (projectPath p) file; ref_line := i + 1;
              ref_code := trim line |}).
Proof.
  unfold findSymbolUsage. split.
  - intros Hbad. apply collectReferences_None with (symbolName := symbolName) in Hbad.
    by rewrite Hbad.
  - intros Hall r.
    destruct (collectReferences p symbolName (getGoFiles p)) as [references|] eqn:Hc.
    + cbn [default]. rewrite (collectReferences_elem _ _ _ _ r Hc). split.
      * intros (file & content & Hf & Hread & Hr).
        apply referencesOfLines_elem in Hr as (i & line & Hi & Hinc & ->).
        exists file, content, i, line. auto.
      * intros (file & content & i & line & Hf & Hread & Hi & Hinc & ->).
        exists file, content. split; [exact Hf|]. split; [exact Hread|].
        apply referencesOfLines_elem. exists i, line. auto.
    + exfalso. apply collectReferences_None in Hc as (f & Hf & Hnone).
      destruct (Hall f Hf) as [c Hc']. congruence.
Qed.

End SymbolUsage.

(** *** Return types *)

Section ReturnTypes.
Import AST ASTParser.

Lemma rmatch_group_star_final (n : nat) (p : ascii -> bool) (pos : nat)
    (prev : option ascii) (s : str) (caps : captures) :
  rmatch (RGroup n (RStar (RChar p))) pos prev s caps
    (fun len _ _ caps' => Some (len, caps'))
  = Some (pos + run p s, (n, take (run p s) s) :: caps).
Proof.
  rewrite rmatch_group.
  destruct (run_split p s) as (Hs & Ht & Hhead).
  pose proof (star_class_cont p (take (run p s) s) (drop (run p s) s) pos prev caps
                (fun pos' prev' s' caps' =>
                   Some (pos', (n, take (pos' - pos) s) :: caps'))
                (pos + run p s, (n, take (run p s) s) :: caps) Ht Hhead) as H.
  rewrite <- Hs in H. apply H. intros prev'.
  rewrite length_take, Nat.min_l by apply run_le.
  replace (pos + run p s - pos) with (run p s) by lia. reflexivity.
Qed.

Lemma trimStart_split (s : str) :
  exists t, s = t ++ trimStart s /\ forallb is_s t = true.
Proof.
  induction s as [|d s (t & IH & Ht)]; [by exists []|]. cbn [trimStart].
  destruct (is_s d) eqn:Hd; [|by exists []].
  exists (d :: t). cbn. rewrite Hd, Ht. split; [by rewrite <- IH | reflexivity].
Qed.

Lemma trim_keeps_last (s : str) (c : ascii) :
  last s = Some c -> is_s c = false -> last (trim s) = Some c.
Proof.
  intros Hlast Hc.
  destruct (trimStart_split s) as (t & Hs & Ht).
  assert (Hu : exists u, trimStart s = u ++ [c]).
  { destruct (trimStart s) as [|x u0] eqn:Hts using rev_ind.
    - rewrite app_nil_r in Hs. subst t. exfalso.
      apply last_Some in Hlast as [s' ->]. rewrite forallb_app in Ht.
      apply andb_true_iff in Ht as [_ Ht]. cbn in Ht. rewrite Hc in Ht. discriminate.
    - exists u0. rewrite Hs, app_assoc, last_snoc in Hlast. by injection Hlast as ->. }
  destruct Hu as [u Hu]. unfold trim, trimEnd. rewrite Hu, rev_app_distr.
  cbn [rev app trimStart]. rewrite Hc. cbn [rev]. rewrite rev_involutive.
  apply last_snoc.
Qed.

Lemma last_app_cons {A} (l1 l2 : list A) (x : A) : last (l1 ++ x :: l2) = last (x :: l2).
Proof. rewrite last_app. by destruct (last (x :: l2)) eqn:H; [|by apply last_None in H]. Qed.

Lemma forallb_last {A} (P : A -> bool) (l : list A) (x : A) :
  forallb P l = true -> last l = Some x -> P x = true.
Proof.
  intros Hl [l' ->]%last_Some. rewrite forallb_app in Hl.
  apply andb_true_iff in Hl as [_ Hl]. cbn in Hl. by rewrite andb_true_r in Hl.
Qed.

(** The end of a match of the signature pattern: the text before the last
    group ends in a closing parenthesis or in white space, and the last
    group is the rest of the line up to a line terminator. *)
Lemma signaturePattern_rest (prev : option ascii) (line : str) (len : nat)
    (caps : captures) :
  match_here signaturePattern prev line = Some (len, caps) ->
  exists front rest c,
    line = front ++ rest /\
    group caps 4 = Some (take (run is_dot rest) rest) /\
    last front = Some c /\ (c = ")"%char \/ is_s c = true).
Proof.
  unfold match_here, signaturePattern. cbn [seqs]. intros H.
  rewrite rmatch_seq in H.
  apply rmatch_sound in H as (t1 & s1 & prev1 & caps1 & -> & H & _ & _).
  rewrite rmatch_seq in H.
  apply rmatch_sound in H as (t2 & s2 & prev2 & caps2 & -> & H & _ & _).
  rewrite rmatch_seq in H.
  apply rmatch_sound in H as (t3 & s3 & prev3 & caps3 & -> & H & _ & _).
  rewrite rmatch_seq in H.
  apply rmatch_sound in H as (t4 & s4 & prev4 & caps4 & -> & H & _ & _).
  rewrite rmatch_seq in H.
  apply rmatch_sound in H as (t5 & s5 & prev5 & caps5 & -> & H & _ & _).
  rewrite rmatch_seq in H.
  apply rmatch_sound in H as (t6 & s6 & prev6 & caps6 & -> & H & _ & _).
  rewrite rmatch_seq in H.
  apply rmatch_sound in H as (t7 & s7 & prev7 & caps7 & -> & H & [Hw7 Hl7] & _).
  rewrite rmatch_seq in H.
  apply rmatch_sound in H as (t8 & s8 & prev8 & caps8 & -> & H & [Hw8 _] & _).
  unfold dot in H. rewrite rmatch_group_star_final in H. injection H as <- <-.
  assert (H7 : forallb (fun c => Ascii.eqb ")" c) t7 = true).
  { apply Hw7. cbn. intros c Hc. exact Hc. }
  assert (H8 : forallb is_s t8 = true).
  { apply Hw8. cbn. intros c Hc. exact Hc. }
  assert (Hne : t7 <> []).
  { intros ->. cbn in Hl7. lia. }
  assert (Hlast : exists c, last (t7 ++ t8) = Some c /\ (c = ")"%char \/ is_s c = true)).
  { destruct t8 as [|x t8] using rev_ind.
    - rewrite app_nil_r. destruct (last t7) as [c|] eqn:Hc; [|by apply last_None in Hc].
      exists c. split; [reflexivity|]. left.
      pose proof (forallb_last _ _ _ H7 Hc) as Heq. symmetry. by apply Ascii.eqb_eq.
    - exists x. rewrite app_assoc, last_snoc. split; [reflexivity|]. right.
      apply (forallb_last _ (t8 ++ [x])); [exact H8 | apply last_snoc]. }
  destruct Hlast as (c & Hc & Hclass).
  exists (t1 ++ t2 ++ t3 ++ t4 ++ t5 ++ t6 ++ t7 ++ t8), s8, c.
  split; [by rewrite <- !app_assoc|]. split.
  - cbn [group Nat.eqb]. reflexivity.
  - split; [|exact Hclass].
    rewrite !app_assoc, <- (app_assoc _ t7 t8).
    destruct (t7 ++ t8) as [|y ys] eqn:Hys; [discriminate Hc|].
    rewrite last_app_cons. exact Hc.
Qed.

(** X29: the return type [parseFunction] reports for a function whose first
    line ends in an opening brace ends in that brace: the rest of the line
    after the parameters is taken whole.  So such a function is never
    reported with the return type void. *)
Theorem return_type_keeps_the_brace (b : block) (startLine : nat) :
  let firstLine := trim (default [] (head (split nl (content b)))) in
  is_Some (exec signaturePattern firstLine) ->
  cr ∉ firstLine ->
  last firstLine = Some "{"%char ->
  last (fn_returnType (parseFunction b startLine)) = Some "{"%char.
Proof.
  intros firstLine [m Hm] Hcr Hbrace. unfold parseFunction. fold firstLine. rewrite Hm.
  cbn [fn_returnType].
  assert (Hnl : nl ∉ firstLine).
  { unfold firstLine. apply not_elem_forallb, forallb_trim, not_elem_forallb.
    destruct (split nl (content b)) as [|l0 ls] eqn:Hs; [intros H; inversion H|].
    cbn [head default]. apply (split_no_sep nl (content b)). rewrite Hs. left. }
  apply exec_inv in Hm as (prev & Hm & Hle).
  destruct (signaturePattern_rest _ _ _ _ Hm) as (front & rest & c & Hd & Hg & Hc & Hclass).
  assert (Hline : firstLine = (take (m_index m) firstLine ++ front) ++ rest).
  { rewrite <- app_assoc, <- Hd. by rewrite take_drop. }
  assert (Hrun : run is_dot rest = length rest).
  { apply run_length. apply forallb_forall. intros x Hx. unfold is_dot.
    assert (Hin : x ∈ firstLine).
    { rewrite Hline. apply elem_of_app. right. by apply list_elem_of_In. }
    destruct (Ascii.eqb_spec x nl) as [->|]; [contradiction|].
    destruct (Ascii.eqb_spec x cr) as [->|]; [contradiction | reflexivity]. }
  unfold grp. rewrite Hg, Hrun, firstn_all.
  destruct rest as [|r0 rest].
  - exfalso. rewrite app_nil_r in Hline. rewrite Hline in Hbrace.
    destruct front as [|f0 front]; [discriminate Hc|].
    rewrite last_app_cons, Hc in Hbrace. injection Hbrace as ->.
    destruct Hclass as [Hclass | Hclass]; discriminate Hclass.
  - cbn [or_else]. apply trim_keeps_last; [|reflexivity].
    rewrite Hline, last_app_cons in Hbrace. exact Hbrace.
Qed.

End ReturnTypes.

Section ReturnTypeExample.
Import AST ASTParser MoreExamples.

(** X29: an example, the function [f] that returns a string. *)
Lemma return_type_keeps_the_brace_witness :
  last (fn_returnType (parseFunction brace_function 1)) = Some "{"%char.
Proof.
  apply (return_type_keeps_the_brace brace_function 1).
  - vm_compute. by eexists.
  - apply not_elem_forallb. vm_compute. reflexivity.
  - reflexivity.
Defined.

End ReturnTypeExample.
